(** * AI Voice Narrator: a shallow embedding of the text pipeline and of the
    orchestration code, and the properties stated about them.

    Part I holds the embedding, one module per source file.  Part II holds
    the lemmas and the theorems.

    Conventions.
    - A Python [str] is a list of Unicode code points ([N]).
    - A Python [int] is a [Z]; [len] is [Z.of_nat (length _)].
    - A Python [dict] is an insertion-ordered association list.
    - Code that can raise runs in a small trace-and-exception monad. *)

From Stdlib Require Import Ascii String List NArith ZArith Bool Lia Floats
  DecimalNat.
Import ListNotations.

#[global] Set Warnings "-register-all,-inexact-float".

(* ===================================================================== *)
(** * Part I.  The embedding                                               *)
(* ===================================================================== *)

(** ** Python strings *)

Module Str.

Definition char := N.
Definition str := list char.

(** An ASCII literal as a [str]. *)
Fixpoint lit (s : string) : str :=
  match s with
  | EmptyString => []
  | String a s' => N_of_ascii a :: lit s'
  end.

Definition NL : char := 10%N.
Definition SP : char := 32%N.

(** [str.isspace] on one code point, which is also what [\s] matches in a
    [str] pattern: both test [Py_UNICODE_ISSPACE]. *)
Definition isspace (c : char) : bool :=
  ((9 <=? c) && (c <=? 13) || (28 <=? c) && (c <=? 32)
   || (c =? 133) || (c =? 160) || (c =? 5760)
   || (8192 <=? c) && (c <=? 8202)
   || (c =? 8232) || (c =? 8233) || (c =? 8239) || (c =? 8287)
   || (c =? 12288))%N.

(** The character class [[.!?]]. *)
Definition is_punct (c : char) : bool :=
  ((c =? 46) || (c =? 33) || (c =? 63))%N.

Definition len (s : str) : Z := Z.of_nat (length s).

(** Truth value of a string: non-empty. *)
Definition truthy (s : str) : bool :=
  match s with [] => false | _ :: _ => true end.

Fixpoint eqb (s t : str) : bool :=
  match s, t with
  | [], [] => true
  | a :: s', b :: t' => (a =? b)%N && eqb s' t'
  | _, _ => false
  end.

Fixpoint drop_space (s : str) : str :=
  match s with
  | [] => []
  | c :: s' => if isspace c then drop_space s' else s
  end.

(** [s.lstrip()], [s.rstrip()] and [s.strip()]. *)
Definition lstrip (s : str) : str := drop_space s.
Definition rstrip (s : str) : str := rev (drop_space (rev s)).
Definition strip (s : str) : str := rstrip (lstrip s).

Fixpoint starts_with (p s : str) : bool :=
  match p, s with
  | [], _ => true
  | a :: p', b :: s' => (a =? b)%N && starts_with p' s'
  | _ :: _, [] => false
  end.

(** [s.replace(old, new)] for a non-empty [old]: the occurrences of [old]
    are found from left to right and do not overlap.  [skip] counts the
    characters of the current occurrence still to be passed over. *)
Fixpoint replace_from (old new : str) (skip : nat) (s : str) : str :=
  match s with
  | [] => []
  | c :: s' =>
      match skip with
      | S k => replace_from old new k s'
      | O =>
          if starts_with old s
          then new ++ replace_from old new (length old - 1) s'
          else c :: replace_from old new 0 s'
      end
  end.

(** With an empty [old], Python puts [new] before every character and at
    the end. *)
Definition replace (old new s : str) : str :=
  match old with
  | [] => new ++ flat_map (fun c => c :: new) s
  | _ :: _ => replace_from old new 0 s
  end.

(** [s.split(sep)] for a non-empty [sep]; [cur] is the piece being read,
    most recent character first. *)
Fixpoint split_from (sep : str) (skip : nat) (cur : str) (s : str)
  : list str :=
  match s with
  | [] => [rev cur]
  | c :: s' =>
      match skip with
      | S k => split_from sep k cur s'
      | O =>
          if starts_with sep s
          then rev cur :: split_from sep (length sep - 1) [] s'
          else split_from sep 0 (c :: cur) s'
      end
  end.

Definition split (sep s : str) : list str := split_from sep 0 [] s.

(** [re.sub(c{k,}, repl, s)]: every maximal run of at least [k] copies of
    [c] becomes [repl]; [pending] counts the copies of [c] just read. *)
Definition flush_run (c : char) (k : nat) (repl : str) (pending : nat)
  : str :=
  if (k <=? pending)%nat then repl else repeat c pending.

Fixpoint sub_runs_from (c : char) (k : nat) (repl : str) (pending : nat)
    (s : str) : str :=
  match s with
  | [] => flush_run c k repl pending
  | x :: s' =>
      if (x =? c)%N then sub_runs_from c k repl (S pending) s'
      else flush_run c k repl pending ++ x :: sub_runs_from c k repl 0 s'
  end.

Definition sub_runs (c : char) (k : nat) (repl : str) (s : str) : str :=
  sub_runs_from c k repl 0 s.

(** [re.sub(r"\s+([.!?])", r"\1", s)]: a run of whitespace that ends just
    before [.], [!] or [?] is removed.  [pending] is the whitespace run
    being read, most recent character first. *)
Fixpoint sub_space_before_punct_from (pending : str) (s : str) : str :=
  match s with
  | [] => rev pending
  | c :: s' =>
      if isspace c then sub_space_before_punct_from (c :: pending) s'
      else if is_punct c then c :: sub_space_before_punct_from [] s'
      else rev pending ++ c :: sub_space_before_punct_from [] s'
  end.

Definition sub_space_before_punct (s : str) : str :=
  sub_space_before_punct_from [] s.

(** [re.split(r"(?<=[.!?])\s+", s)]: a separator is a maximal run of
    whitespace whose first character follows [.], [!] or [?].
    [in_sep] says that a separator is being passed over, [after_punct]
    that the previous character is in the class. *)
Fixpoint split_after_punct_from (in_sep after_punct : bool) (cur : str)
    (s : str) : list str :=
  match s with
  | [] => [rev cur]
  | c :: s' =>
      if isspace c then
        if in_sep then split_after_punct_from true false cur s'
        else if after_punct
             then rev cur :: split_after_punct_from true false [] s'
             else split_after_punct_from false false (c :: cur) s'
      else split_after_punct_from false (is_punct c) (c :: cur) s'
  end.

Definition split_after_punct (s : str) : list str :=
  split_after_punct_from false false [] s.

(** The text with its whitespace left out. *)
Definition content (s : str) : str :=
  filter (fun c => negb (isspace c)) s.

End Str.

Import Str.

(** ** Python values, dictionaries and decimal formatting *)

Module Py.

(** The values a story document is made of.  A [dict] keeps its keys in
    insertion order; its keys are strings, as in a JSON object and in
    every dictionary of this program. *)
Inductive value : Type :=
| VNone
| VBool (b : bool)
| VInt (z : Z)
| VFloat (f : float)
| VStr (s : str)
| VList (l : list value)
| VDict (d : list (str * value)).

Definition dict (V : Type) : Type := list (str * V).

(** [d.get(k)] as an option; [d.get(k, default)] is [dict_get_default]. *)
Fixpoint dict_get {V} (d : dict V) (k : str) : option V :=
  match d with
  | [] => None
  | (k', v) :: d' => if Str.eqb k' k then Some v else dict_get d' k
  end.

Definition dict_get_default {V} (d : dict V) (k : str) (default : V) : V :=
  match dict_get d k with Some v => v | None => default end.

(** [d[k] = v]: the value of a key already present changes in place, a
    new key goes to the end. *)
Fixpoint dict_set {V} (d : dict V) (k : str) (v : V) : dict V :=
  match d with
  | [] => [(k, v)]
  | (k', v') :: d' =>
      if Str.eqb k' k then (k', v) :: d' else (k', v') :: dict_set d' k v
  end.

(** [d.update(other)] for a dictionary [other]. *)
Definition dict_update {V} (d other : dict V) : dict V :=
  fold_left (fun d kv => dict_set d (fst kv) (snd kv)) other d.

Definition keys {V} (d : dict V) : list str := map fst d.

(** [bool(v)]. *)
Definition truthy_value (v : value) : bool :=
  match v with
  | VNone => false
  | VBool b => b
  | VInt z => negb (z =? 0)%Z
  | VFloat f => negb (f =? 0)%float
  | VStr s => truthy s
  | VList l => match l with [] => false | _ => true end
  | VDict d => match d with [] => false | _ => true end
  end.

Definition of_option (o : option str) : value :=
  match o with Some s => VStr s | None => VNone end.

(** Decimal digits of a natural number. *)
Fixpoint str_of_uint (u : Decimal.uint) : str :=
  match u with
  | Decimal.Nil => []
  | Decimal.D0 u => 48%N :: str_of_uint u
  | Decimal.D1 u => 49%N :: str_of_uint u
  | Decimal.D2 u => 50%N :: str_of_uint u
  | Decimal.D3 u => 51%N :: str_of_uint u
  | Decimal.D4 u => 52%N :: str_of_uint u
  | Decimal.D5 u => 53%N :: str_of_uint u
  | Decimal.D6 u => 54%N :: str_of_uint u
  | Decimal.D7 u => 55%N :: str_of_uint u
  | Decimal.D8 u => 56%N :: str_of_uint u
  | Decimal.D9 u => 57%N :: str_of_uint u
  end.

Definition decimal (n : nat) : str := str_of_uint (Nat.to_uint n).

(** The format [{n:03d}] for a natural number: at least three digits,
    zeros in front. *)
Definition format_03d (n : nat) : str :=
  let d := decimal n in repeat 48%N (3 - length d) ++ d.

End Py.

Import Py.

(** ** Python floats

    A [float] is a binary64 number.  Its arithmetic is the primitive one;
    the operations that C and Python add to it are computed on the exact
    value of the number, a mantissa times a power of two. *)

Module PyFloat.

(** The float nearest to [m * 2 ^ e], ties to even. *)
Definition of_scaled (m e : Z) (negative_zero : bool) : float :=
  SF2Prim (binary_normalize prec emax m e negative_zero).

(** [float(n)] for an int [n]; [None] stands for [OverflowError]. *)
Definition of_int (n : Z) : option float :=
  let x := of_scaled n 0 false in
  if is_infinity x then None else Some x.

(** C's [fmod]: the remainder has the sign of [x] and is exact. *)
Definition fmod (x y : float) : float :=
  match Prim2SF x, Prim2SF y with
  | S754_nan, _ | _, S754_nan => nan
  | S754_infinity _, _ => nan
  | _, S754_zero _ => nan
  | S754_zero _, _ => x
  | S754_finite _ _ _, S754_infinity _ => x
  | S754_finite sx mx ex, S754_finite _ my ey =>
      let e := Z.min ex ey in
      let r := ((Zpos mx * 2 ^ (ex - e)) mod (Zpos my * 2 ^ (ey - e)))%Z in
      of_scaled (if sx then - r else r) e sx
  end.

(** C's [floor]. *)
Definition floor (x : float) : float :=
  match Prim2SF x with
  | S754_finite s m e =>
      if (0 <=? e)%Z then x
      else
        let q := (Zpos m / 2 ^ (- e))%Z in
        let exact := (Zpos m mod 2 ^ (- e) =? 0)%Z in
        of_scaled (if s then (if exact then - q else - (q + 1)) else q)%Z
          0 s
  | _ => x
  end.

(** A C double as a condition: true unless it is a zero. *)
Definition nonzero (x : float) : bool := negb (x =? 0)%float.

(** [copysign(0.0, x)]. *)
Definition zero_like (x : float) : float :=
  if get_sign x then (-0)%float else 0%float.

(** [vx % wx] for floats and a divisor that is not zero ([float_rem]). *)
Definition rem (vx wx : float) : float :=
  let mod_ := fmod vx wx in
  if nonzero mod_
  then if xorb (wx <? 0)%float (mod_ <? 0)%float then (mod_ + wx)%float
       else mod_
  else zero_like wx.

(** [vx // wx] for floats and a divisor that is not zero
    ([_float_div_mod]). *)
Definition floor_div (vx wx : float) : float :=
  let mod_ := fmod vx wx in
  let div := ((vx - mod_) / wx)%float in
  let div :=
    if nonzero mod_ && xorb (wx <? 0)%float (mod_ <? 0)%float
    then (div - 1)%float else div in
  if nonzero div
  then let floordiv := floor div in
       if (0.5 <? div - floordiv)%float then (floordiv + 1)%float
       else floordiv
  else zero_like (vx / wx)%float.

(** [n > x] for an int [n] and a float [x].  CPython compares the two
    values exactly ([float_richcompare]): the int is not rounded. *)
Definition int_gt (n : Z) (x : float) : bool :=
  match Prim2SF x with
  | S754_nan => false
  | S754_infinity negative => negative
  | S754_zero _ => (n >? 0)%Z
  | S754_finite negative m e =>
      let m := if negative then Zneg m else Zpos m in
      if (0 <=? e)%Z then (n >? m * 2 ^ e)%Z
      else (n * 2 ^ (- e) >? m)%Z
  end.

Definition digits (n : Z) : str := str_of_uint (N.to_uint (Z.to_N n)).

(** The digits of [q], a count of units of [10 ^ -precision]. *)
Definition fixed (precision : nat) (q : Z) : str :=
  let d := digits q in
  let d := repeat 48%N (S precision - length d) ++ d in
  match precision with
  | O => d
  | S _ =>
      firstn (length d - precision) d ++ 46%N
      :: skipn (length d - precision) d
  end.

(** [format(x, ".{precision}f")]: the decimal nearest to [x], ties to
    even. *)
Definition format_f (precision : nat) (x : float) : str :=
  match Prim2SF x with
  | S754_nan => lit "nan"
  | S754_infinity s => if s then lit "-inf" else lit "inf"
  | S754_zero s => (if s then [45%N] else []) ++ fixed precision 0
  | S754_finite s m e =>
      let num := (Zpos m * 10 ^ Z.of_nat precision * 2 ^ Z.max e 0)%Z in
      let den := (2 ^ Z.max (- e) 0)%Z in
      let q := (num / den)%Z in
      let r := (num mod den)%Z in
      let q := if ((den <? 2 * r) || ((2 * r =? den) && Z.odd q))%Z
               then (q + 1)%Z else q in
      (if s then [45%N] else []) ++ fixed precision q
  end.

End PyFloat.

Import PyFloat.

(** ** The JSON text of a document

    [json.dump(obj, f, indent=4, ensure_ascii=False)] and [json.load] on the
    values without numbers: [None], booleans, strings, lists and
    dictionaries.  On anything else [dumps] and [loads] answer [None] and
    the callers below turn to the environment. *)

Module Json.

Definition hex_digit (n : N) : char :=
  (if n <? 10 then 48 + n else 87 + n)%N.

(** [ESCAPE_DCT] of the encoder: the short escapes, and [\u00xx] for the
    other characters below space. *)
Definition escape_char (c : char) : str :=
  (if c =? 92 then [92; 92]
   else if c =? 34 then [92; 34]
   else if c =? 8 then [92; 98]
   else if c =? 12 then [92; 102]
   else if c =? 10 then [92; 110]
   else if c =? 13 then [92; 114]
   else if c =? 9 then [92; 116]
   else if c <? 32 then [92; 117; 48; 48; hex_digit (c / 16);
                         hex_digit (c mod 16)]
   else [c])%N.

Definition encode_basestring (s : str) : str :=
  34%N :: flat_map escape_char s ++ [34%N].

Definition newline_indent (level : nat) : str :=
  NL :: repeat SP (4 * level).

Fixpoint join (sep : str) (parts : list str) : str :=
  match parts with
  | [] => []
  | [p] => p
  | p :: ps => p ++ sep ++ join sep ps
  end.

(** No number anywhere in the value. *)
Fixpoint number_free (v : value) : bool :=
  match v with
  | VNone | VBool _ | VStr _ => true
  | VInt _ | VFloat _ => false
  | VList l => forallb number_free l
  | VDict d => forallb (fun kv => number_free (snd kv)) d
  end.

(** The text of a number-free value at nesting depth [level]. *)
Fixpoint encode (level : nat) (v : value) : str :=
  match v with
  | VNone => lit "null"
  | VBool true => lit "true"
  | VBool false => lit "false"
  | VInt _ | VFloat _ => []
  | VStr s => encode_basestring s
  | VList [] => lit "[]"
  | VList l =>
      lit "[" ++ newline_indent (S level)
      ++ join (lit "," ++ newline_indent (S level))
           (map (encode (S level)) l)
      ++ newline_indent level ++ lit "]"
  | VDict [] => lit "{}"
  | VDict d =>
      lit "{" ++ newline_indent (S level)
      ++ join (lit "," ++ newline_indent (S level))
           (map (fun kv => encode_basestring (fst kv) ++ lit ": "
                           ++ encode (S level) (snd kv)) d)
      ++ newline_indent level ++ lit "}"
  end.

Definition dumps (v : value) : option str :=
  if number_free v then Some (encode 0 v) else None.

(** The decoder's [WHITESPACE]: space, tab, newline, carriage return. *)
Definition is_ws (c : char) : bool :=
  ((c =? 32) || (c =? 9) || (c =? 10) || (c =? 13))%N.

Fixpoint skip_ws (s : str) : str :=
  match s with
  | [] => []
  | c :: s' => if is_ws c then skip_ws s' else s
  end.

Definition hex_value (c : char) : option N :=
  (if (48 <=? c) && (c <=? 57) then Some (c - 48)
   else if (97 <=? c) && (c <=? 102) then Some (c - 87)
   else if (65 <=? c) && (c <=? 70) then Some (c - 55)
   else None)%N.

Definition hex4 (a b c d : char) : option N :=
  match hex_value a, hex_value b, hex_value c, hex_value d with
  | Some x, Some y, Some z, Some w =>
      Some (((x * 16 + y) * 16 + z) * 16 + w)%N
  | _, _, _, _ => None
  end.

(** [py_scanstring] in strict mode, from just after the opening quote:
    the string read and the text after its closing quote.  A high
    surrogate escape followed by a low surrogate escape is one character. *)
Fixpoint scanstring (s : str) (acc : str) : option (str * str) :=
  match s with
  | [] => None
  | c :: s1 =>
      if (c =? 34)%N then Some (rev acc, s1)
      else if (c =? 92)%N then
        match s1 with
        | [] => None
        | e :: s2 =>
            if (e =? 34)%N then scanstring s2 (34%N :: acc)
            else if (e =? 92)%N then scanstring s2 (92%N :: acc)
            else if (e =? 47)%N then scanstring s2 (47%N :: acc)
            else if (e =? 98)%N then scanstring s2 (8%N :: acc)
            else if (e =? 102)%N then scanstring s2 (12%N :: acc)
            else if (e =? 110)%N then scanstring s2 (10%N :: acc)
            else if (e =? 114)%N then scanstring s2 (13%N :: acc)
            else if (e =? 116)%N then scanstring s2 (9%N :: acc)
            else if (e =? 117)%N then
              match s2 with
              | h1 :: h2 :: h3 :: h4 :: s6 =>
                  match hex4 h1 h2 h3 h4 with
                  | None => None
                  | Some uni =>
                      if ((55296 <=? uni) && (uni <=? 56319))%N then
                        match s6 with
                        | b :: u :: l1 :: l2 :: l3 :: l4 :: s12 =>
                            if ((b =? 92) && (u =? 117))%N then
                              match hex4 l1 l2 l3 l4 with
                              | None => None
                              | Some uni2 =>
                                  if ((56320 <=? uni2)
                                      && (uni2 <=? 57343))%N
                                  then scanstring s12
                                         ((65536 + (uni - 55296) * 1024
                                           + (uni2 - 56320))%N :: acc)
                                  else scanstring s6 (uni :: acc)
                              end
                            else scanstring s6 (uni :: acc)
                        | _ => scanstring s6 (uni :: acc)
                        end
                      else scanstring s6 (uni :: acc)
                  end
              | _ => None
              end
            else None
        end
      else if (c <? 32)%N then None
      else scanstring s1 (c :: acc)
  end.

(** [scan_once], [JSONArray] and [JSONObject].  [fuel] bounds the number
    of values, items and pairs read. *)
Fixpoint parse_value (fuel : nat) (s : str) : option (value * str) :=
  match fuel with
  | O => None
  | S fuel' =>
      match s with
      | [] => None
      | c :: s1 =>
          if (c =? 34)%N then
            match scanstring s1 [] with
            | Some (x, rest) => Some (VStr x, rest)
            | None => None
            end
          else if (c =? 123)%N then
            match skip_ws s1 with
            | c2 :: s2 =>
                if (c2 =? 125)%N then Some (VDict [], s2)
                else if (c2 =? 34)%N then
                  match parse_pairs fuel' s2 [] with
                  | Some (d, rest) => Some (VDict d, rest)
                  | None => None
                  end
                else None
            | [] => None
            end
          else if (c =? 91)%N then
            match skip_ws s1 with
            | c2 :: s2 =>
                if (c2 =? 93)%N then Some (VList [], s2)
                else
                  match parse_items fuel' (c2 :: s2) [] with
                  | Some (l, rest) => Some (VList l, rest)
                  | None => None
                  end
            | [] => None
            end
          else if starts_with (lit "null") s
          then Some (VNone, skipn 4 s)
          else if starts_with (lit "true") s
          then Some (VBool true, skipn 4 s)
          else if starts_with (lit "false") s
          then Some (VBool false, skipn 5 s)
          else None
      end
  end

(** The items of an array, from the first character of an item; [acc]
    holds the items read, most recent first. *)
with parse_items (fuel : nat) (s : str) (acc : list value)
  : option (list value * str) :=
  match fuel with
  | O => None
  | S fuel' =>
      match parse_value fuel' s with
      | None => None
      | Some (v, rest) =>
          match skip_ws rest with
          | c :: s1 =>
              if (c =? 93)%N then Some (rev (v :: acc), s1)
              else if (c =? 44)%N
                   then parse_items fuel' (skip_ws s1) (v :: acc)
                   else None
          | [] => None
          end
      end
  end

(** The pairs of an object, from just after the opening quote of a key;
    [acc] is the dictionary built so far. *)
with parse_pairs (fuel : nat) (s : str) (acc : dict value)
  : option (dict value * str) :=
  match fuel with
  | O => None
  | S fuel' =>
      match scanstring s [] with
      | None => None
      | Some (key, rest) =>
          match skip_ws rest with
          | c :: s1 =>
              if (c =? 58)%N then
                match parse_value fuel' (skip_ws s1) with
                | None => None
                | Some (v, rest2) =>
                    match skip_ws rest2 with
                    | c2 :: s2 =>
                        if (c2 =? 125)%N
                        then Some (dict_set acc key v, s2)
                        else if (c2 =? 44)%N then
                          match skip_ws s2 with
                          | c3 :: s3 =>
                              if (c3 =? 34)%N
                              then parse_pairs fuel' s3
                                     (dict_set acc key v)
                              else None
                          | [] => None
                          end
                        else None
                    | [] => None
                    end
                end
              else None
          | [] => None
          end
      end
  end.

(** [json.loads]: one value, with whitespace allowed around it. *)
Definition loads (s : str) : option value :=
  match parse_value (S (length s)) (skip_ws s) with
  | Some (v, rest) =>
      match skip_ws rest with [] => Some v | _ :: _ => None end
  | None => None
  end.

End Json.

Import Json.

(** ** Effects: console output, the file system and the TTS model

    A run appends the effects it performs to a trace.  What the world
    answers (does a file exist, does synthesis succeed) is given by an
    environment, and every answer may depend on the trace so far. *)

Module Run.

(** The exceptions of the program; all are subclasses of [Exception]. *)
Inductive exn : Type :=
| AttributeError
| TypeError
| ValueError
| KeyError
| ZeroDivisionError
| FileNotFoundError (message : str)
| OtherError (name : str).

(** A printed line is kept as the pieces of its f-string. *)
Inductive frag : Type :=
| FText (s : str)
| FValue (v : value)
| FExn (e : exn).

Inductive event : Type :=
| Print (line : list frag)
| Mkdir (dir : str)
| LoadModel (device : str)
| Generate (text : str) (audio_prompt_path : option value)
    (params : dict value)
| SaveAudio (path : str)
| Concatenate (files : list str) (output_path : str)
| WriteText (path : str) (text : str).

Definition trace : Type := list event.

Inductive outcome (A : Type) : Type :=
| Ok (a : A)
| Raise (e : exn).
Arguments Ok {A} a.
Arguments Raise {A} e.

Definition M (A : Type) : Type := trace -> outcome A * trace.

Definition ret {A} (a : A) : M A := fun t => (Ok a, t).

Definition bind {A B} (m : M A) (k : A -> M B) : M B :=
  fun t =>
    match m t with
    | (Ok a, t') => k a t'
    | (Raise e, t') => (Raise e, t')
    end.

Definition raise {A} (e : exn) : M A := fun t => (Raise e, t).

(** [try: m except Exception as e: handler e]. *)
Definition try_except {A} (m : M A) (handler : exn -> M A) : M A :=
  fun t =>
    match m t with
    | (Ok a, t') => (Ok a, t')
    | (Raise e, t') => handler e t'
    end.

Definition emit (e : event) : M unit := fun t => (Ok tt, t ++ [e]).

Definition print (line : list frag) : M unit := emit (Print line).

(** A question to the world that leaves no effect. *)
Definition ask {A} (answer : trace -> A) : M A := fun t => (Ok (answer t), t).

(** An action on the world: it is recorded, and it succeeds or raises. *)
Definition act {A} (e : event) (answer : trace -> outcome A) : M A :=
  fun t => (answer t, t ++ [e]).

Definition lift {A} (o : outcome A) : M A := fun t => (o, t).

(** [for x in l], threading the loop variables [s], for a body that has no
    effect but can raise. *)
Fixpoint for_in {A St} (body : St -> A -> outcome St) (l : list A) (s : St)
  : outcome St :=
  match l with
  | [] => Ok s
  | x :: l' =>
      match body s x with
      | Ok s' => for_in body l' s'
      | Raise e => Raise e
      end
  end.

(** [for i, x in enumerate(l, start)], threading the loop variables [s]. *)
Fixpoint for_enumerate {A St} (body : nat -> A -> St -> M St)
    (start : nat) (l : list A) (s : St) : M St :=
  match l with
  | [] => ret s
  | x :: l' =>
      bind (body start x s) (fun s' => for_enumerate body (S start) l' s')
  end.

Definition for_each {A St} (body : A -> St -> M St) (l : list A) (s : St)
  : M St :=
  for_enumerate (fun _ => body) 0 l s.

(** What lies outside the program. *)
Record Env : Type := {
  wav : Type;
  model : Type;
  (** pathlib: [str(Path(p))], [Path(p).name], [Path(p).stem],
      [str(Path(p) / q)] *)
  path_str : str -> str;
  path_name : str -> str;
  path_stem : str -> str;
  path_join : str -> str -> str;
  (** [str.title] *)
  str_title : str -> str;
  (** the file system *)
  path_exists : trace -> str -> bool;
  read_text : trace -> str -> outcome str;
  write_text : trace -> str -> str -> outcome unit;
  mkdir : trace -> str -> outcome unit;
  glob_json : trace -> str -> outcome (list str);
  (** the json module outside the values of module [Json] *)
  json_dumps_other : value -> outcome str;
  json_loads_other : str -> outcome value;
  (** ChatterboxTTS, torch and torchaudio *)
  from_pretrained : trace -> str -> outcome model;
  generate : trace -> model -> str -> option value -> dict value
             -> outcome wav;
  save : trace -> model -> str -> wav -> outcome unit;
  concatenate : trace -> model -> list str -> str -> float
                -> outcome unit
}.

(** The paths of the audio files a trace saves, in order. *)
Definition saved_paths (t : trace) : list str :=
  flat_map (fun e => match e with SaveAudio p => [p] | _ => [] end) t.

(** The synthesis requests of a trace, in order. *)
Definition generate_calls (t : trace)
  : list (str * option value * dict value) :=
  flat_map (fun e => match e with
                     | Generate x p ps => [(x, p, ps)]
                     | _ => []
                     end) t.

End Run.

Import Run.

Declare Scope run_scope.
Delimit Scope run_scope with run.
Notation "x <- m ;; k" := (bind m (fun x => k))
  (at level 61, m at next level, right associativity) : run_scope.
Notation "m ;;; k" := (bind m (fun _ => k))
  (at level 61, right associativity) : run_scope.
Open Scope run_scope.

(** Methods of Python values that the program calls. *)

Module Methods.

(** [v.get(key, default)]: only a dictionary has it. *)
Definition get (v : value) (key : str) (default : value) : M value :=
  match v with
  | VDict d => ret (dict_get_default d key default)
  | _ => raise AttributeError
  end.

(** [v.strip()]: only a string has it. *)
Definition strip (v : value) : M str :=
  match v with
  | VStr s => ret (Str.strip s)
  | _ => raise AttributeError
  end.

(** [len(v)]. *)
Definition len (v : value) : M nat :=
  match v with
  | VStr s => ret (length s)
  | VList l => ret (length l)
  | VDict d => ret (length d)
  | _ => raise TypeError
  end.

(** The items that [for x in v] visits: the elements of a list, the
    characters of a string, the keys of a dictionary. *)
Definition iter (v : value) : M (list value) :=
  match v with
  | VList l => ret l
  | VStr s => ret (map (fun c => VStr [c]) s)
  | VDict d => ret (map (fun kv => VStr (fst kv)) d)
  | _ => raise TypeError
  end.

(** [d.get(key, default)] on a dictionary with string keys, for a key
    that is any value: a list or a dictionary cannot be hashed, and a
    value that is not a string equals no key. *)
Definition lookup {V} (d : dict V) (key : value) (default : V) : M V :=
  match key with
  | VStr k => ret (dict_get_default d k default)
  | VList _ | VDict _ => raise TypeError
  | _ => ret default
  end.

End Methods.

(** ** config.py *)

Module Config.

Definition VOICE_PRESETS : dict (dict value) :=
  [ (lit "neutral", [ (lit "exaggeration", VFloat 0.5);
                      (lit "cfg_weight", VFloat 0.5) ]);
    (lit "calm", [ (lit "exaggeration", VFloat 0.3);
                   (lit "cfg_weight", VFloat 0.7) ]) ].

Definition DEFAULT_VOICE_PATTERN : list str :=
  [lit "neutral"; lit "calm"; lit "neutral"].

Definition DEFAULT_SEGMENT_LENGTH : Z := 250.
Definition DEFAULT_OUTPUT_DIR : str := lit "voice_output".
Definition DEFAULT_PAUSE_DURATION : float := 0.5.

End Config.

Import Config.

(** ** text_processor.py *)

Module TextProcessor.

Definition DQUOTE : char := 34%N.
Definition SQUOTE : char := 39%N.

(** The first argument of the [replace] on line 25, as the source file
    spells it.  The three double quotes that open the argument list start
    a triple-quoted string, which runs to the next three double quotes:
    a comma, a space, a double quote, a single quote, a double quote, and
    then [).replace(]. *)
Definition quote_pattern : str :=
  lit ", " ++ [DQUOTE; SQUOTE; DQUOTE] ++ lit ").replace(".

Definition clean_text (text : str) : str :=
  let text := sub_runs NL 3 [NL; NL] text in
  let text := sub_runs SP 2 [SP] text in
  let text := replace [DQUOTE] [DQUOTE]
                (replace [DQUOTE] [DQUOTE] text) in
  let text := replace quote_pattern [SQUOTE] text in
  let text := sub_space_before_punct text in
  strip text.

Definition split_into_sentences (text : str) : list str :=
  let sentences := split_after_punct text in
  map strip (filter (fun s => truthy (strip s)) sentences).

(** The loop variables of the segmenter: [segments] and
    [current_segment]. *)
Definition acc : Type := (list str * str)%type.

(** The body shared by the sentence branch ([sep] is one space) and the
    paragraph branch ([sep] is a blank line). *)
Definition accumulate (target_length : Z) (sep : str) (st : acc)
    (unit : str) : acc :=
  let '(segments, current_segment) := st in
  if (len current_segment + len unit >? target_length)%Z
     && truthy current_segment
  then (segments ++ [strip current_segment], unit ++ sep)
  else (segments, current_segment ++ unit ++ sep).

(** [target_length * 1.5]: the int is converted to a float first, and
    the conversion raises [OverflowError] beyond the range of floats. *)
Definition threshold (target_length : Z) : outcome float :=
  match of_int target_length with
  | Some x => Ok (x * 1.5)%float
  | None => Raise (OtherError (lit "OverflowError"))
  end.

(** [len(paragraph) > target_length * 1.5]. *)
Definition very_long (target_length : Z) (paragraph : str) : outcome bool :=
  match threshold target_length with
  | Ok limit => Ok (int_gt (len paragraph) limit)
  | Raise e => Raise e
  end.

Definition add_paragraph (target_length : Z) (st : acc) (paragraph : str)
  : outcome acc :=
  match very_long target_length paragraph with
  | Ok true =>
      Ok (fold_left (accumulate target_length [SP])
            (split_into_sentences paragraph) st)
  | Ok false => Ok (accumulate target_length [NL; NL] st paragraph)
  | Raise e => Raise e
  end.

Definition paragraphs_of (text : str) : list str :=
  map strip (filter (fun p => truthy (strip p)) (split [NL; NL] text)).

Definition finish (st : acc) : list str :=
  let '(segments, current_segment) := st in
  if truthy (strip current_segment)
  then segments ++ [strip current_segment]
  else segments.

Definition intelligent_text_splitting (text : str) (target_length : Z)
  : outcome (list str) :=
  let text := clean_text text in
  let paragraphs := paragraphs_of text in
  match for_in (add_paragraph target_length) paragraphs ([], []) with
  | Ok st => Ok (finish st)
  | Raise e => Raise e
  end.

(** The units that the loop hands to [accumulate], each with its
    separator, when the product of line 64 is [limit]: the sentences of a
    paragraph longer than [limit], or else the paragraph itself. *)
Definition units_of_paragraph (limit : float) (paragraph : str)
  : list (str * str) :=
  if int_gt (len paragraph) limit
  then map (fun sentence => (sentence, [SP]))
         (split_into_sentences paragraph)
  else [(paragraph, [NL; NL])].

Definition units (text : str) (limit : float) : list (str * str) :=
  flat_map (units_of_paragraph limit) (paragraphs_of (clean_text text)).

(** One turn of the loop, on a unit and its separator. *)
Definition step (target_length : Z) (st : acc) (u : str * str) : acc :=
  accumulate target_length (snd u) st (fst u).

(** The keyword arguments of [auto_ingest_text_file]. *)
Record kwargs : Type := {
  title : option str;
  description : option str;
  target_segment_length : Z;
  voice_style_pattern : option (list str);
  global_audio_prompt : option str;
  output_json_path : option str
}.

Definition defaults : kwargs :=
  {| title := None; description := None;
     target_segment_length := DEFAULT_SEGMENT_LENGTH;
     voice_style_pattern := None; global_audio_prompt := None;
     output_json_path := None |}.

(** [voice_style_pattern[voice_cycle_index % len(voice_style_pattern)]];
    the index is in range whenever the division is defined. *)
Definition cycled (voice_style_pattern : list str)
    (voice_cycle_index : nat) : M str :=
  match length voice_style_pattern with
  | O => raise ZeroDivisionError
  | S _ as n => ret (nth (voice_cycle_index mod n) voice_style_pattern [])
  end.

(** The body of the loop that builds [story_segments]. *)
Definition add_segment (voice_style_pattern : list str)
    (segment_text : str) (st : list value * nat) : M (list value * nat) :=
  let '(story_segments, voice_cycle_index) := st in
  voice_style <- cycled voice_style_pattern voice_cycle_index ;;
  let voice_cycle_index := S voice_cycle_index in
  let segment := [(lit "text", VStr (strip segment_text))] in
  let segment :=
    if negb (Str.eqb voice_style (lit "neutral"))
    then dict_set segment (lit "voice_style") (VStr voice_style)
    else segment in
  ret (story_segments ++ [VDict segment], voice_cycle_index).

(** [d[k1][k2] = v]. *)
Definition setitem2 (d : dict value) (k1 k2 : str) (v : value)
  : M (dict value) :=
  match dict_get d k1 with
  | None => raise KeyError
  | Some (VDict inner) => ret (dict_set d k1 (VDict (dict_set inner k2 v)))
  | Some _ => raise TypeError
  end.

Section WithEnv.

Variable env : Env.

Definition auto_ingest_text_file (text_file_path : str) (kw : kwargs)
  : M value :=
  found <- ask (fun t => path_exists env t text_file_path) ;;
  if negb found
  then raise (FileNotFoundError
                (lit "Text file not found: " ++ text_file_path))
  else
    print [FText (128214%N :: lit " Reading text file: ");
           FText (path_name env text_file_path)] ;;;
    text_content <- (fun t => (read_text env t text_file_path, t)) ;;
    let title :=
      match title kw with
      | None =>
          str_title env
            (replace (lit "_") (lit " ")
               (replace (lit "-") (lit " ")
                  (path_stem env text_file_path)))
      | Some s => s
      end in
    let voice_style_pattern :=
      match voice_style_pattern kw with
      | None => DEFAULT_VOICE_PATTERN
      | Some p => p
      end in
    print [FText ([9986; 65039]%N
                  ++ lit "  Splitting text into segments (target length: ");
           FValue (VInt (target_segment_length kw));
           FText (lit " chars)")] ;;;
    segments <-
      lift (intelligent_text_splitting text_content
              (target_segment_length kw)) ;;
    st <- for_each (add_segment voice_style_pattern) segments ([], 0) ;;
    let story_segments := fst st in
    let story_data :=
      [ (lit "title", VStr title);
        (lit "description",
         VStr (match description kw with
               | Some d =>
                   if truthy d then d
                   else lit "Auto-generated from "
                        ++ path_name env text_file_path
               | None =>
                   lit "Auto-generated from "
                   ++ path_name env text_file_path
               end));
        (lit "settings", VDict [(lit "voice_style", VStr (lit "neutral"))]);
        (lit "create_full_audio", VBool true);
        (lit "segments", VList story_segments) ] in
    story_data <-
      match global_audio_prompt kw with
      | Some p =>
          if truthy p
          then setitem2 story_data (lit "settings") (lit "audio_prompt")
                 (VStr p)
          else ret story_data
      | None => ret story_data
      end ;;
    print [FText (9989%N :: lit " Generated ");
           FValue (VInt (Z.of_nat (length story_segments)));
           FText (lit " segments from text")] ;;;
    match output_json_path kw with
    | Some p =>
        if truthy p then
          let output_path := path_str env p in
          text <- match dumps (VDict story_data) with
                  | Some text => ret text
                  | None => lift (json_dumps_other env (VDict story_data))
                  end ;;
          act (WriteText output_path text)
            (fun t => write_text env t output_path text) ;;;
          print [FText (128190%N :: lit " Saved JSON to: ");
                 FText output_path]
        else ret tt
    | None => ret tt
    end ;;;
    ret (VDict story_data).

Definition load_story_from_json (json_path : str) : M value :=
  text <- (fun t => (read_text env t json_path, t)) ;;
  match loads text with
  | Some v => ret v
  | None => lift (json_loads_other env text)
  end.

End WithEnv.

End TextProcessor.

(** ** audio_generator.py *)

Module AudioGenerator.

Section WithEnv.

Variable env : Env.

Record obj : Type := { device : str; model : Run.model env }.

Definition init (device : str) : M obj :=
  print [FText (lit "Loading Chatterbox TTS model...")] ;;;
  m <- act (LoadModel device) (fun t => from_pretrained env t device) ;;
  print [FText (lit "Model loaded successfully!")] ;;;
  ret {| device := device; model := m |}.

(** One element of a sequence given to [dict.update]: it must itself have
    exactly two elements, the key and the value. *)
Definition pair_of (item : value) : outcome (value * value) :=
  match item with
  | VList [k; v] => Ok (k, v)
  | VStr [a; b] => Ok (VStr [a], VStr [b])
  | VDict [(k1, _); (k2, _)] => Ok (VStr k1, VStr k2)
  | VList _ | VStr _ | VDict _ => Raise ValueError
  | _ => Raise TypeError
  end.

(** [params.update(items)] for a list of pairs, followed by the check of
    [**params] that every keyword is a string.  A key that cannot be
    hashed stops the update; a key that can be hashed but is not a string
    is accepted by the update and refused by the call, which [nonstring]
    remembers. *)
Fixpoint update_items (params : dict value) (nonstring : bool)
    (items : list value) : outcome (dict value) :=
  match items with
  | [] => if nonstring then Raise TypeError else Ok params
  | item :: rest =>
      match pair_of item with
      | Raise e => Raise e
      | Ok (VStr k, v) => update_items (dict_set params k v) nonstring rest
      | Ok (VList _, _) | Ok (VDict _, _) => Raise TypeError
      | Ok (_, _) => update_items params true rest
      end
  end.

(** [params.update(custom_params)] for a true [custom_params]: a
    dictionary, or a list of pairs; a string gives characters, which are
    not pairs, and the other values cannot be iterated. *)
Definition update (params : dict value) (custom_params : value)
  : outcome (dict value) :=
  match custom_params with
  | VDict other => Ok (dict_update params other)
  | VList items => update_items params false items
  | VStr _ => Raise ValueError
  | _ => Raise TypeError
  end.

Definition getitem {V} (d : dict V) (k : str) : M V :=
  match dict_get d k with
  | Some v => ret v
  | None => raise KeyError
  end.

Definition generate_segment_audio (self : obj) (text : str)
    (voice_style audio_prompt_path custom_params : value)
  : M (wav env) :=
  neutral <- getitem VOICE_PRESETS (lit "neutral") ;;
  params <- Methods.lookup VOICE_PRESETS voice_style neutral ;;
  params <- (if truthy_value custom_params
             then lift (update params custom_params)
             else ret params) ;;
  if truthy_value audio_prompt_path then
    match dict_get params (lit "audio_prompt_path") with
    | Some _ => raise TypeError
    | None =>
        act (Generate text (Some audio_prompt_path) params)
          (fun t => generate env t (model self) text
                      (Some audio_prompt_path) params)
    end
  else
    act (Generate text None params)
      (fun t => generate env t (model self) text None params).

(** Lines 83 to 98 (load every file, put the pauses in, concatenate
    and save) are one action of the environment. *)
Definition concatenate_segments (self : obj) (audio_files : list str)
    (output_path : str) (pause_duration : float) : M unit :=
  print [FText (lit "Concatenating ");
         FValue (VInt (Z.of_nat (length audio_files)));
         FText (lit " segments...")] ;;;
  act (Concatenate audio_files output_path)
    (fun t => concatenate env t (model self) audio_files output_path
                pause_duration) ;;;
  print [FText (lit "Complete audio saved: "); FText output_path].

Definition save_audio (self : obj) (audio_tensor : wav env)
    (file_path : str) : M unit :=
  act (SaveAudio file_path)
    (fun t => save env t (model self) file_path audio_tensor).

End WithEnv.

(** What lines 83 to 92 put in [audio_tensors] when every file loads:
    for each path in turn the audio loaded from it, and after it the pause
    unless the path equals [audio_files[-1]]. *)
Inductive tensor : Type :=
| Loaded (file_path : str)
| Pause.

Definition audio_tensors (audio_files : list str) : list tensor :=
  flat_map (fun file_path =>
              Loaded file_path
              :: (if negb (Str.eqb file_path (last audio_files []))
                  then [Pause]
                  else []))
    audio_files.

Arguments device {env} _.
Arguments model {env} _.
Arguments generate_segment_audio {env} self text voice_style
  audio_prompt_path custom_params.
Arguments concatenate_segments {env} self audio_files output_path
  pause_duration.
Arguments save_audio {env} self audio_tensor file_path.

End AudioGenerator.

(** ** story_narrator.py *)

Module StoryNarrator.

(** [f"{story_name}_segment_{i+1:03d}.wav"] *)
Definition segment_filename (story_name : str) (i : nat) : str :=
  story_name ++ lit "_segment_" ++ format_03d (i + 1) ++ lit ".wav".

Section WithEnv.

Variable env : Env.

Record obj : Type := {
  device : str;
  output_dir : str;
  audio_generator : AudioGenerator.obj env
}.

Definition init (device : str) (output_dir : str) : M obj :=
  let output_dir := path_str env output_dir in
  act (Mkdir output_dir) (fun t => mkdir env t output_dir) ;;;
  g <- AudioGenerator.init env device ;;
  ret {| device := device; output_dir := output_dir;
         audio_generator := g |}.

Definition load_story_from_json (self : obj) (json_path : str)
  : M value :=
  TextProcessor.load_story_from_json env json_path.

Definition generate_segment_audio (self : obj) (text : str)
    (voice_style audio_prompt_path custom_params : value)
  : M (wav env) :=
  AudioGenerator.generate_segment_audio (audio_generator self) text
    voice_style audio_prompt_path custom_params.

(** The body of the loop over [enumerate(segments)]; [count] is
    [len(segments)]. *)
Definition process_segment (self : obj) (global_settings : value)
    (story_name : str) (count : nat) (i : nat) (segment : value)
    (generated_files : list str) : M (list str) :=
  segment_text <- Methods.get segment (lit "text") (VStr []) ;;
  stripped <- Methods.strip segment_text ;;
  if negb (truthy stripped) then ret generated_files
  else
    global_style <- Methods.get global_settings (lit "voice_style")
                      (VStr (lit "neutral")) ;;
    voice_style <- Methods.get segment (lit "voice_style")
                     global_style ;;
    global_prompt <- Methods.get global_settings (lit "audio_prompt")
                       VNone ;;
    audio_prompt <- Methods.get segment (lit "audio_prompt")
                      global_prompt ;;
    custom_params <- Methods.get segment (lit "tts_params")
                       (VDict []) ;;
    print [FText (lit "Processing segment ");
           FValue (VInt (Z.of_nat (i + 1))); FText (lit "/");
           FValue (VInt (Z.of_nat count)); FText (lit ": ");
           FValue voice_style; FText (lit " style")] ;;;
    text <- match segment_text with
            | VStr s => ret s
            | _ => raise AttributeError
            end ;;
    wav <- generate_segment_audio self text voice_style audio_prompt
             custom_params ;;
    let segment_filename := segment_filename story_name i in
    let segment_path := path_join env (output_dir self) segment_filename in
    AudioGenerator.save_audio (audio_generator self) wav segment_path ;;;
    let generated_files := generated_files ++ [segment_path] in
    print [FText (lit "Saved: "); FText segment_filename] ;;;
    ret generated_files.

Definition process_war_story (self : obj) (story_data : value)
    (story_name : str) : M (list str) :=
  let generated_files := [] in
  segments <- Methods.get story_data (lit "segments") (VList []) ;;
  global_settings <- Methods.get story_data (lit "settings")
                       (VDict []) ;;
  shown_title <- Methods.get story_data (lit "title")
                   (VStr (lit "Untitled")) ;;
  print [FText (lit "Processing war story: "); FValue shown_title] ;;;
  count <- Methods.len segments ;;
  print [FText (lit "Generating audio for ");
         FValue (VInt (Z.of_nat count)); FText (lit " segments...")] ;;;
  items <- Methods.iter segments ;;
  generated_files <-
    for_enumerate (process_segment self global_settings story_name count)
      0 items generated_files ;;
  create_full_audio <- Methods.get story_data (lit "create_full_audio")
                         (VBool true) ;;
  (if truthy_value create_full_audio
      && match generated_files with [] => false | _ :: _ => true end
   then
     let complete_path :=
       path_join env (output_dir self)
         (story_name ++ lit "_complete.wav") in
     AudioGenerator.concatenate_segments (audio_generator self)
       generated_files complete_path DEFAULT_PAUSE_DURATION
   else ret tt) ;;;
  ret generated_files.

Definition process_story_from_file (self : obj) (json_file_path : str)
  : M (list str) :=
  story_data <- load_story_from_json self json_file_path ;;
  let story_name := path_stem env json_file_path in
  process_war_story self story_data story_name.

Definition rule : str := repeat 61%N 50.

(** The body of the loop over [json_files]. *)
Definition process_json_file (self : obj) (json_file : str)
    (results : dict (list str)) : M (dict (list str)) :=
  print [FText (NL :: rule)] ;;;
  print [FText (lit "Processing: "); FText (path_name env json_file)] ;;;
  print [FText rule] ;;;
  try_except
    (generated_files <- process_story_from_file self json_file ;;
     let results :=
       dict_set results (path_stem env json_file) generated_files in
     print [FText (9989%N :: lit " Successfully processed ");
            FText (path_name env json_file)] ;;;
     ret results)
    (fun e =>
       print [FText (10060%N :: lit " Error processing ");
              FText (path_name env json_file); FText (lit ": ");
              FExn e] ;;;
       ret (dict_set results (path_stem env json_file) [])).

(** [json_files] holds the paths that [json_dir.glob("*.json")] finds,
    each as the string of its [Path]. *)
Definition batch_process_stories (self : obj) (json_directory : str)
  : M (dict (list str)) :=
  let results := [] in
  json_files <- (fun t => (glob_json env t json_directory, t)) ;;
  match json_files with
  | [] =>
      print [FText (lit "No JSON files found in ");
             FText json_directory] ;;;
      ret results
  | _ :: _ =>
      print [FText (lit "Found ");
             FValue (VInt (Z.of_nat (length json_files)));
             FText (lit " story files to process...")] ;;;
      for_each (process_json_file self) json_files results
  end.

Definition auto_ingest_text_file (self : obj) (text_file_path : str)
    (kw : TextProcessor.kwargs) : M value :=
  TextProcessor.auto_ingest_text_file env text_file_path kw.

Definition process_text_file_directly (self : obj)
    (text_file_path : str) (story_name : option str)
    (kw : TextProcessor.kwargs) : M (list str) :=
  story_data <- auto_ingest_text_file self text_file_path kw ;;
  let story_name :=
    match story_name with
    | None => path_stem env text_file_path
    | Some n => n
    end in
  process_war_story self story_data story_name.

End WithEnv.

Arguments device {env} _.
Arguments output_dir {env} _.
Arguments audio_generator {env} _.
Arguments load_story_from_json {env} self json_path.
Arguments generate_segment_audio {env} self text voice_style
  audio_prompt_path custom_params.
Arguments process_segment {env} self global_settings story_name count i
  segment generated_files.
Arguments process_war_story {env} self story_data story_name.
Arguments process_story_from_file {env} self json_file_path.
Arguments process_json_file {env} self json_file results.
Arguments batch_process_stories {env} self json_directory.
Arguments auto_ingest_text_file {env} self text_file_path kw.
Arguments process_text_file_directly {env} self text_file_path story_name
  kw.

End StoryNarrator.

(** ** utils.py *)

Module Utils.

Definition format_duration (seconds : float) : str :=
  if (seconds <? 60)%float then format_f 1 seconds ++ lit "s"
  else if (seconds <? 3600)%float then
    let minutes := floor_div seconds 60 in
    let secs := rem seconds 60 in
    format_f 0 minutes ++ lit "m " ++ format_f 0 secs ++ lit "s"
  else
    let hours := floor_div seconds 3600 in
    let minutes := floor_div (rem seconds 3600) 60 in
    format_f 0 hours ++ lit "h " ++ format_f 0 minutes ++ lit "m".

(** [num_segments] is an int and [avg_segment_time] a float, seven
    seconds unless the caller says otherwise: the product converts the
    int, which fails when it is too large for a float. *)
Definition estimate_processing_time (num_segments : Z)
    (avg_segment_time : float) : outcome str :=
  match of_int num_segments with
  | None => Raise (OtherError (lit "OverflowError"))
  | Some n => Ok (format_duration (n * avg_segment_time)%float)
  end.

Section WithEnv.

Variable env : Env.

Definition validate_audio_prompt (audio_path : option str) : M bool :=
  match audio_path with
  | None => ret true
  | Some audio_path =>
      found <- ask (fun t => path_exists env t audio_path) ;;
      if negb found then
        print [FText ([9888; 65039]%N
                      ++ lit "  Audio prompt file not found: ");
               FText audio_path] ;;;
        print [FText (lit "   Proceeding without voice cloning...")] ;;;
        ret false
      else ret true
  end.

End WithEnv.

End Utils.

(** ** main.py *)

Module Main.

Section WithEnv.

Variable env : Env.

Definition auto_mode (input_file : str) (voice_prompt : option str)
    (device : str) : M unit :=
  found <- ask (fun t => path_exists env t input_file) ;;
  if negb found then
    print [FText (10060%N :: lit " File not found: ");
           FText input_file]
  else
    print [FText ([127894; 65039]%N ++ lit " Processing large text: ");
           FText input_file] ;;;
    narrator <- StoryNarrator.init env device DEFAULT_OUTPUT_DIR ;;
    let kw := TextProcessor.defaults in
    kw <- match voice_prompt with
          | Some p =>
              if truthy p then
                found <- ask (fun t => path_exists env t p) ;;
                if found
                then ret {| TextProcessor.title := TextProcessor.title kw;
                            TextProcessor.description :=
                              TextProcessor.description kw;
                            TextProcessor.target_segment_length :=
                              TextProcessor.target_segment_length kw;
                            TextProcessor.voice_style_pattern :=
                              TextProcessor.voice_style_pattern kw;
                            TextProcessor.global_audio_prompt := Some p;
                            TextProcessor.output_json_path :=
                              TextProcessor.output_json_path kw |}
                else ret kw
              else ret kw
          | None => ret kw
          end ;;
    audio_files <- StoryNarrator.process_text_file_directly narrator
                     input_file None kw ;;
    print [FText (9989%N :: lit " Generated ");
           FValue (VInt (Z.of_nat (length audio_files)));
           FText (lit " audio files")].

Definition manual_mode (text : str) (voice_style : str)
    (voice_prompt : option str) (output : str) (device : str)
  : M unit :=
  print [FText (127919%N :: lit " Generating audio with ");
         FText voice_style; FText (lit " style")] ;;;
  narrator <- StoryNarrator.init env device DEFAULT_OUTPUT_DIR ;;
  wav <- StoryNarrator.generate_segment_audio narrator text
           (VStr voice_style) (of_option voice_prompt) VNone ;;
  AudioGenerator.save_audio (StoryNarrator.audio_generator narrator)
    wav output ;;;
  print [FText (9989%N :: lit " Audio saved: "); FText output].

End WithEnv.

End Main.


(* ===================================================================== *)
(** * Part II.  Lemmas and theorems                                        *)
(* ===================================================================== *)

(** ** Strings: trimming and whitespace-free content *)

Module StrFacts.

Definition all_space (s : str) : Prop := forallb isspace s = true.

(** A text is tight when it is not empty and neither starts nor ends with
    whitespace. *)
Definition tight (s : str) : Prop :=
  s <> [] /\ drop_space s = s /\ drop_space (rev s) = rev s.

Lemma drop_space_idem s : drop_space (drop_space s) = drop_space s.
Proof.
  induction s as [|c s IH]; simpl; [reflexivity|].
  destruct (isspace c) eqn:E; [exact IH|]. simpl. now rewrite E.
Qed.

Lemma drop_space_fixed_app a b :
  a <> [] -> drop_space a = a -> drop_space (a ++ b) = a ++ b.
Proof.
  destruct a as [|c a]; [congruence|]. simpl. intros _.
  destruct (isspace c) eqn:E; [|reflexivity].
  intros H. exfalso.
  assert (L : (length (drop_space a) <= length a)%nat).
  { clear. induction a as [|x a IH]; simpl; [lia|].
    destruct (isspace x); simpl; lia. }
  rewrite H in L. simpl in L. lia.
Qed.

Lemma drop_space_all_space_app w a :
  all_space w -> drop_space (w ++ a) = drop_space a.
Proof.
  unfold all_space. induction w as [|c w IH]; simpl; [reflexivity|].
  intros H. apply andb_true_iff in H as [Hc Hw]. rewrite Hc. now apply IH.
Qed.

Lemma drop_space_all_space w : all_space w -> drop_space w = [].
Proof.
  intros H. rewrite <- (app_nil_r w). now rewrite drop_space_all_space_app.
Qed.

Lemma all_space_rev w : all_space w -> all_space (rev w).
Proof.
  unfold all_space. rewrite !forallb_forall. intros H x Hx.
  apply H. now apply in_rev.
Qed.

Lemma all_space_app a b : all_space a -> all_space b -> all_space (a ++ b).
Proof. unfold all_space. rewrite forallb_app. now intros -> ->. Qed.

(** The head of [drop_space s], when there is one, is not whitespace. *)
Lemma drop_space_head {s c r} : drop_space s = c :: r -> isspace c = false.
Proof.
  induction s as [|x s IH]; simpl; [discriminate|].
  destruct (isspace x) eqn:E; [exact IH|]. now intros [= <- _].
Qed.

Lemma drop_space_fixed_iff s :
  s <> [] -> (drop_space s = s <-> exists c r, s = c :: r /\ isspace c = false).
Proof.
  intros Hs. split.
  - intros H. destruct s as [|c r]; [congruence|].
    exists c, r. split; [reflexivity|]. now apply (drop_space_head H).
  - intros (c & r & -> & Hc). simpl. now rewrite Hc.
Qed.

Lemma drop_space_keeps_last x v :
  isspace x = false -> exists p, drop_space (v ++ [x]) = p ++ [x].
Proof.
  intros Hx. induction v as [|y v IH]; simpl.
  - rewrite Hx. now exists [].
  - destruct (isspace y); [exact IH|]. now exists (y :: v).
Qed.

Lemma strip_tight_or_empty s : strip s = [] \/ tight (strip s).
Proof.
  unfold strip, rstrip, lstrip.
  destruct (drop_space (rev (drop_space s))) as [|c r] eqn:E.
  - left. reflexivity.
  - right. unfold tight. split; [|split].
    + intros H. apply (f_equal (@rev char)) in H.
      rewrite rev_involutive in H. discriminate.
    + rewrite <- E.
      remember (drop_space s) as u eqn:Hu.
      assert (Hfix : drop_space u = u) by (subst; apply drop_space_idem).
      clear Hu E. destruct u as [|x u]; [reflexivity|].
      pose proof (drop_space_head Hfix) as Hx. simpl rev.
      destruct (drop_space_keeps_last x (rev u) Hx) as [p Hp]. rewrite Hp.
      rewrite rev_app_distr. simpl. now rewrite Hx.
    + rewrite rev_involutive. simpl. now rewrite (drop_space_head E).
Qed.

Lemma tight_strip s : tight s -> strip s = s.
Proof.
  intros (Hne & Hl & Hr). unfold strip, rstrip, lstrip.
  now rewrite Hl, Hr, rev_involutive.
Qed.

Lemma strip_idem s : strip (strip s) = strip s.
Proof.
  destruct (strip_tight_or_empty s) as [H|H].
  - rewrite H. reflexivity.
  - now apply tight_strip.
Qed.

Lemma truthy_true s : truthy s = true <-> s <> [].
Proof. destruct s; simpl; split; congruence. Qed.

Lemma strip_truthy_tight s : truthy (strip s) = true -> tight (strip s).
Proof.
  intros H. destruct (strip_tight_or_empty s) as [E|T]; [|exact T].
  rewrite E in H. discriminate.
Qed.

(** Trimming removes exactly a trailing separator from a tight text. *)
Lemma strip_tight_app a w : tight a -> all_space w -> strip (a ++ w) = a.
Proof.
  intros (Hne & Hl & Hr) Hw. unfold strip, rstrip, lstrip.
  rewrite (drop_space_fixed_app _ _ Hne Hl).
  rewrite rev_app_distr, drop_space_all_space_app by now apply all_space_rev.
  now rewrite Hr, rev_involutive.
Qed.

Lemma tight_app a m b : tight a -> tight b -> tight (a ++ m ++ b).
Proof.
  intros (Ha & Hal & Har) (Hb & Hbl & Hbr). unfold tight. repeat split.
  - destruct a; [congruence|discriminate].
  - now apply drop_space_fixed_app.
  - rewrite !rev_app_distr, <- app_assoc.
    apply drop_space_fixed_app; [|exact Hbr].
    intros E. apply Hb. apply (f_equal (@rev char)) in E.
    now rewrite rev_involutive in E.
Qed.

Lemma content_app a b : content (a ++ b) = content a ++ content b.
Proof. apply filter_app. Qed.

Lemma content_all_space w : all_space w -> content w = [].
Proof.
  unfold all_space, content. induction w as [|c w IH]; simpl; [reflexivity|].
  intros H. apply andb_true_iff in H as [Hc Hw]. rewrite Hc. simpl. now apply IH.
Qed.

Lemma content_rev a : content (rev a) = rev (content a).
Proof.
  unfold content. induction a as [|c a IH]; simpl; [reflexivity|].
  rewrite filter_app, IH. simpl. destruct (isspace c); simpl.
  - now rewrite app_nil_r.
  - reflexivity.
Qed.

Lemma content_drop_space s : content (drop_space s) = content s.
Proof.
  induction s as [|c s IH]; simpl; [reflexivity|].
  destruct (isspace c) eqn:E; simpl; rewrite ?E; simpl; [exact IH|reflexivity].
Qed.

Lemma content_strip s : content (strip s) = content s.
Proof.
  unfold strip, rstrip, lstrip.
  rewrite content_rev, content_drop_space, content_rev, rev_involutive.
  apply content_drop_space.
Qed.

Lemma content_nil_strip s : strip s = [] -> content s = [].
Proof. intros H. rewrite <- content_strip, H. reflexivity. Qed.

End StrFacts.

(** ** The product of line 64

    [target_length * 1.5] is a product of floats.  For a target of at most
    51 binary digits nothing is rounded, neither when the int is made a
    float nor in the product, since both fit the 53 digits of a float. *)

Module FloatFacts.

Import TextProcessor.

Local Open Scope Z_scope.

(** The number of binary digits of a positive number. *)
Lemma digits2_pos_bounds p :
  2 ^ (Zpos (digits2_pos p) - 1) <= Zpos p < 2 ^ Zpos (digits2_pos p).
Proof.
  induction p as [p IH|p IH|]; cbn [digits2_pos].
  - rewrite Pos2Z.inj_succ, (Pos2Z.inj_xI p).
    replace (Z.succ (Zpos (digits2_pos p)) - 1)
      with (Z.succ (Zpos (digits2_pos p) - 1)) by lia.
    rewrite !Z.pow_succ_r by lia.
    revert IH. generalize (2 ^ (Zpos (digits2_pos p) - 1)).
    generalize (2 ^ Zpos (digits2_pos p)). intros v u IH. lia.
  - rewrite Pos2Z.inj_succ, (Pos2Z.inj_xO p).
    replace (Z.succ (Zpos (digits2_pos p)) - 1)
      with (Z.succ (Zpos (digits2_pos p) - 1)) by lia.
    rewrite !Z.pow_succ_r by lia.
    revert IH. generalize (2 ^ (Zpos (digits2_pos p) - 1)).
    generalize (2 ^ Zpos (digits2_pos p)). intros v u IH. lia.
  - simpl. lia.
Qed.

Lemma digits2_pos_unique p d :
  2 ^ (d - 1) <= Zpos p < 2 ^ d -> Zpos (digits2_pos p) = d.
Proof.
  intros [Hlow Hhigh]. pose proof (digits2_pos_bounds p) as [Blow Bhigh].
  assert (Hd : 0 < d).
  { destruct (Z_lt_le_dec 0 d) as [H|H]; [exact H|].
    assert (2 ^ d <= 2 ^ 0) by (apply Z.pow_le_mono_r; lia).
    simpl in *. lia. }
  destruct (Z.lt_trichotomy (Zpos (digits2_pos p)) d) as [H|[H|H]];
    [|exact H|].
  - assert (2 ^ Zpos (digits2_pos p) <= 2 ^ (d - 1))
      by (apply Z.pow_le_mono_r; lia).
    lia.
  - assert (2 ^ d <= 2 ^ (Zpos (digits2_pos p) - 1))
      by (apply Z.pow_le_mono_r; lia).
    lia.
Qed.

(** [k] more digits, all zero. *)
Lemma iter_xO_value (k : nat) (a : positive) :
  Zpos (Nat.iter k xO a) = Zpos a * 2 ^ Z.of_nat k.
Proof.
  induction k as [|k IH]; [simpl; lia|].
  rewrite Nat2Z.inj_succ, Z.pow_succ_r by lia.
  change (Nat.iter (S k) xO a) with (xO (Nat.iter k xO a)).
  rewrite (Pos2Z.inj_xO (Nat.iter k xO a)), IH. lia.
Qed.

Lemma iter_xO_digits (k : nat) (a : positive) :
  Zpos (digits2_pos (Nat.iter k xO a))
  = Zpos (digits2_pos a) + Z.of_nat k.
Proof.
  induction k as [|k IH]; [simpl; lia|].
  change (Nat.iter (S k) xO a) with (xO (Nat.iter k xO a)).
  cbn [digits2_pos]. rewrite Pos2Z.inj_succ, IH. lia.
Qed.

Lemma iter_pos_nat {A} (f : A -> A) (n : positive) (x : A) :
  SpecFloat.iter_pos f n x = Nat.iter (Pos.to_nat n) f x.
Proof.
  revert x. induction n as [n IH|n IH|]; intros x; cbn [SpecFloat.iter_pos].
  - rewrite !IH, Pos2Nat.inj_xI, Nat.iter_succ_r.
    replace (2 * Pos.to_nat n)%nat with (Pos.to_nat n + Pos.to_nat n)%nat
      by lia.
    now rewrite Nat.iter_add.
  - rewrite !IH, Pos2Nat.inj_xO.
    replace (2 * Pos.to_nat n)%nat with (Pos.to_nat n + Pos.to_nat n)%nat
      by lia.
    now rewrite Nat.iter_add.
  - reflexivity.
Qed.

(** Shifting out [k] zero digits loses nothing. *)
Lemma shr_zeros (k : nat) (a : positive) :
  Nat.iter k shr_1
    {| shr_m := Zpos (Nat.iter k xO a); shr_r := false; shr_s := false |}
  = {| shr_m := Zpos a; shr_r := false; shr_s := false |}.
Proof.
  induction k as [|k IH]; [reflexivity|].
  rewrite Nat.iter_succ_r. cbn [Nat.iter shr_1 orb]. exact IH.
Qed.

(** A mantissa of 53 digits followed by [k] zeros is rounded to
    itself. *)
Lemma binary_round_aux_exact (s : bool) (a : positive) (k : nat) (e : Z) :
  Zpos (digits2_pos a) = 53 ->
  -1074 <= e + Z.of_nat k <= 971 ->
  binary_round_aux prec emax s (Zpos (Nat.iter k xO a)) e loc_Exact
  = S754_finite s a (e + Z.of_nat k).
Proof.
  intros Ha He. unfold binary_round_aux, shr_fexp.
  cbn [Zdigits2 shr_record_of_loc]. rewrite iter_xO_digits, Ha.
  assert (F : fexp prec emax (53 + Z.of_nat k + e) - e = Z.of_nat k).
  { unfold fexp, emin, prec, emax. lia. }
  rewrite F.
  assert (S1 : shr {| shr_m := Zpos (Nat.iter k xO a); shr_r := false;
                     shr_s := false |} e (Z.of_nat k)
               = ({| shr_m := Zpos a; shr_r := false; shr_s := false |},
                  e + Z.of_nat k)).
  { destruct k as [|k]; [simpl; f_equal; lia|].
    unfold shr. cbn [Z.of_nat].
    rewrite iter_pos_nat, SuccNat2Pos.id_succ, shr_zeros.
    reflexivity. }
  rewrite S1. cbn [shr_m loc_of_shr_record round_nearest_even Zdigits2].
  rewrite Ha.
  assert (F2 : fexp prec emax (53 + (e + Z.of_nat k)) - (e + Z.of_nat k)
               = 0).
  { unfold fexp, emin, prec, emax. lia. }
  rewrite F2. cbn [shr shr_m].
  assert (L : (e + Z.of_nat k <=? emax - prec) = true).
  { apply Z.leb_le. unfold emax, prec. lia. }
  now rewrite L.
Qed.


Lemma digits2_pos_le p d :
  Zpos p < 2 ^ d -> Zpos (digits2_pos p) <= d.
Proof.
  intros H. pose proof (digits2_pos_bounds p) as [B _].
  destruct (Z_le_gt_dec (Zpos (digits2_pos p)) d) as [L|G]; [exact L|].
  assert (2 ^ d <= 2 ^ (Zpos (digits2_pos p) - 1))
    by (apply Z.pow_le_mono_r; lia).
  lia.
Qed.

(** [float(n)] for an int [n] of at most 51 digits: the digits of [n],
    followed by zeros up to 53 digits. *)
Lemma binary_round_small (s : bool) (m : positive) :
  Zpos m < 2 ^ 51 ->
  binary_round prec emax s m 0
  = S754_finite s
      (Nat.iter (Z.to_nat (53 - Zpos (digits2_pos m))) xO m)
      (Zpos (digits2_pos m) - 53).
Proof.
  intros Hm. pose proof (digits2_pos_le m 51 Hm) as Hd.
  unfold binary_round, shl_align. rewrite Z.add_0_r.
  assert (F : fexp prec emax (Zpos (digits2_pos m))
              = Zpos (digits2_pos m) - 53).
  { unfold fexp, emin, prec, emax. lia. }
  rewrite F.
  assert (E : Zpos (digits2_pos m) - 53 - 0
              = Zneg (Z.to_pos (53 - Zpos (digits2_pos m)))).
  { rewrite <- Pos2Z.opp_pos, Z2Pos.id; lia. }
  rewrite E, Pos2Nat.inj_iter.
  change (nat_rect (fun _ => positive) m (fun _ => xO)
            (Pos.to_nat (Z.to_pos (53 - Zpos (digits2_pos m)))))
    with (Nat.iter (Pos.to_nat (Z.to_pos (53 - Zpos (digits2_pos m))))
            xO m).
  replace (Pos.to_nat (Z.to_pos (53 - Zpos (digits2_pos m))))
    with (Z.to_nat (53 - Zpos (digits2_pos m)))
    by (destruct (53 - Zpos (digits2_pos m)) eqn:D; try lia; reflexivity).
  set (j := Z.to_nat (53 - Zpos (digits2_pos m))).
  pose proof (binary_round_aux_exact s (Nat.iter j xO m) 0
                (Zpos (digits2_pos m) - 53)) as R.
  change (Nat.iter 0 xO (Nat.iter j xO m)) with (Nat.iter j xO m) in R.
  rewrite R.
  - f_equal. change (Z.of_nat 0) with 0. lia.
  - rewrite iter_xO_digits. unfold j. lia.
  - change (Z.of_nat 0) with 0. lia.
Qed.

(** One and a half. *)
Definition three_halves : spec_float :=
  S754_finite false 6755399441055744 (-52).

(** One and a half times a float of an int of at most 51 digits is
    exact. *)
Lemma times_three_halves (s : bool) (m : positive) :
  Zpos m < 2 ^ 51 ->
  exists a e,
    SFmul prec emax (binary_round prec emax s m 0) three_halves
    = S754_finite s a e
    /\ e < 0
    /\ 2 * Zpos a = 3 * Zpos m * 2 ^ (- e).
Proof.
  intros Hm. pose proof (digits2_pos_le m 51 Hm) as Hd.
  rewrite (binary_round_small s m Hm).
  set (d := Zpos (digits2_pos m)) in *.
  set (j := Z.to_nat (53 - d)).
  assert (H3 : Zpos (3 * m) < 2 ^ 53).
  { rewrite Pos2Z.inj_mul. change (2 ^ 53) with (4 * 2 ^ 51). lia. }
  pose proof (digits2_pos_le (3 * m) 53 H3) as Hd3.
  set (d3 := Zpos (digits2_pos (3 * m))) in *.
  assert (Hd3' : 0 < d3) by (unfold d3; lia).
  assert (Hd' : 0 < d) by (unfold d; lia).
  set (j' := Z.to_nat (53 - d3)).
  set (k := Z.to_nat (51 - d + d3)).
  exists (Nat.iter j' xO (3 * m)%positive), (d3 - 54).
  split; [|split].
  - unfold three_halves, SFmul. rewrite xorb_false_r.
    assert (P : (Nat.iter j xO m * 6755399441055744)%positive
                = Nat.iter k xO (Nat.iter j' xO (3 * m)%positive)).
    { apply Pos2Z.inj. rewrite Pos2Z.inj_mul, !iter_xO_value.
      rewrite Pos2Z.inj_mul.
      change (Zpos 6755399441055744) with (3 * 2 ^ 51).
      unfold j, j', k. rewrite !Z2Nat.id by lia.
      assert (H : 2 ^ (53 - d) * 2 ^ 51
                  = 2 ^ (53 - d3) * 2 ^ (51 - d + d3)).
      { rewrite <- !Z.pow_add_r by lia. f_equal. lia. }
      transitivity (3 * Zpos m * (2 ^ (53 - d) * 2 ^ 51)); [ring|].
      rewrite H. ring. }
    rewrite P, binary_round_aux_exact.
    + f_equal. unfold k. rewrite Z2Nat.id by lia. lia.
    + rewrite iter_xO_digits. unfold j'. fold d3. lia.
    + unfold k. rewrite Z2Nat.id by lia. lia.
  - lia.
  - rewrite iter_xO_value, Pos2Z.inj_mul. unfold j'.
    rewrite Z2Nat.id by lia.
    replace (- (d3 - 54)) with (Z.succ (53 - d3)) by lia.
    rewrite Z.pow_succ_r by lia. lia.
Qed.


Lemma gtb_scaled (n a c w : Z) :
  0 < w -> 2 * a = c * w -> (n * w >? a) = (2 * n >? c).
Proof.
  intros Hw H.
  destruct (Z.gtb_spec (n * w) a) as [G|G];
    destruct (Z.gtb_spec (2 * n) c) as [G'|G']; try reflexivity; nia.
Qed.

(** The product of line 64 for a target of at most 51 binary digits:
    [float(target_length)] and the product are exact, so that the
    comparison is the comparison of [2 * n] with [3 * target_length]. *)
Lemma times_1_5_exact (t : Z) :
  - 2 ^ 51 < t < 2 ^ 51 ->
  exists x,
    of_int t = Some x
    /\ forall n, int_gt n (x * 1.5)%float = (2 * n >? 3 * t).
Proof.
  intros Ht.
  assert (Hsigned :
            forall (s : bool) (m : positive),
              Zpos m < 2 ^ 51 ->
              of_int (if s then Zneg m else Zpos m)
              = Some (SF2Prim (binary_round prec emax s m 0))
              /\ forall n,
                   int_gt n (SF2Prim (binary_round prec emax s m 0) * 1.5)
                   = (2 * n >? 3 * (if s then Zneg m else Zpos m))).
  { intros s m Hm.
    pose proof (digits2_pos_le m 51 Hm) as Hd.
    assert (Hvalid : Prim2SF (SF2Prim (binary_round prec emax s m 0))
                     = binary_round prec emax s m 0).
    { apply Prim2SF_SF2Prim. rewrite (binary_round_small s m Hm).
      unfold valid_binary, SpecFloat.bounded, canonical_mantissa.
      rewrite iter_xO_digits, Z2Nat.id by lia.
      apply andb_true_iff. split.
      - apply Z.eqb_eq. unfold fexp, emin, prec, emax. lia.
      - apply Z.leb_le. unfold prec, emax. lia. }
    split.
    - unfold of_int, of_scaled.
      replace (binary_normalize prec emax (if s then Zneg m else Zpos m)
                 0 false)
        with (binary_round prec emax s m 0) by now destruct s.
      unfold is_infinity. rewrite eqb_spec, abs_spec, Hvalid.
      rewrite (binary_round_small s m Hm). reflexivity.
    - intros n. unfold int_gt. rewrite mul_spec, Hvalid.
      replace (Prim2SF 1.5) with three_halves by reflexivity.
      unfold SF64mul.
      destruct (times_three_halves s m Hm) as (a & e & -> & He & Ha).
      assert (E : (0 <=? e) = false) by (apply Z.leb_gt; exact He).
      rewrite E. apply gtb_scaled.
      + apply Z.pow_pos_nonneg; lia.
      + destruct s; lia. }
  destruct t as [|m|m].
  - exists 0%float. split; [reflexivity|]. intros n.
    unfold int_gt.
    replace (Prim2SF (0 * 1.5)) with (S754_zero false) by reflexivity.
    destruct (Z.gtb_spec n 0); destruct (Z.gtb_spec (2 * n) (3 * 0));
      try reflexivity; lia.
  - destruct (Hsigned false m ltac:(lia)) as [H1 H2]. eexists.
    split; [exact H1|exact H2].
  - destruct (Hsigned true m ltac:(lia)) as [H1 H2]. eexists.
    split; [exact H1|exact H2].
Qed.

(** Below [2 ^ 51] on either side the test of line 64 does not raise
    and is the comparison of [2 * len(paragraph)] with
    [3 * target_length]. *)
Lemma very_long_exact (target_length : Z) (paragraph : str) :
  - 2 ^ 51 < target_length < 2 ^ 51 ->
  very_long target_length paragraph
  = Ok (2 * len paragraph >? 3 * target_length).
Proof.
  intros Ht. destruct (times_1_5_exact target_length Ht) as (x & Hx & H).
  unfold very_long, threshold. now rewrite Hx, H.
Qed.

Lemma of_int_small (target_length : Z) :
  - 2 ^ 51 < target_length < 2 ^ 51 -> of_int target_length <> None.
Proof.
  intros Ht. destruct (times_1_5_exact target_length Ht) as (x & Hx & _).
  now rewrite Hx.
Qed.

End FloatFacts.

Import FloatFacts.

(** ** The segmenter *)

Module SegmenterFacts.

Import StrFacts TextProcessor.

Lemma starts_with_firstn p s :
  starts_with p s = true -> firstn (length p) s = p.
Proof.
  revert s. induction p as [|a p IH]; intros [|b s]; simpl;
    try reflexivity; try discriminate.
  intros H. apply andb_true_iff in H as [Hab Hp].
  apply N.eqb_eq in Hab. subst. f_equal. now apply IH.
Qed.

Lemma all_space_cons c w : all_space (c :: w) <-> isspace c = true /\ all_space w.
Proof. unfold all_space. simpl. apply andb_true_iff. Qed.

(** Splitting at a whitespace separator loses no other character. *)
Lemma content_cons_space {c} s : isspace c = true -> content (c :: s) = content s.
Proof. intros H. unfold content. simpl. now rewrite H. Qed.

Lemma content_cons_other {c} s :
  isspace c = false -> content (c :: s) = c :: content s.
Proof. intros H. unfold content. simpl. now rewrite H. Qed.

Lemma split_from_content sep :
  sep <> [] -> all_space sep ->
  forall s skip cur,
    all_space (firstn skip s) ->
    content (concat (split_from sep skip cur s))
    = content (rev cur) ++ content s.
Proof.
  intros Hne Hsep. induction s as [|c s IH]; intros skip cur Hskip.
  - simpl. now rewrite !app_nil_r.
  - cbn [split_from]. destruct skip as [|k].
    + destruct (starts_with sep (c :: s)) eqn:E.
      * apply starts_with_firstn in E.
        destruct sep as [|x sep']; [congruence|].
        simpl in E. injection E as Ex Es. subst x.
        apply all_space_cons in Hsep as [Hc Hsep'].
        cbn [concat]. rewrite content_app, IH.
        -- now rewrite (content_cons_space s Hc).
        -- replace (length (c :: sep') - 1)%nat with (length sep')
             by (simpl; lia).
           now rewrite Es.
      * rewrite IH by reflexivity.
        cbn [rev]. rewrite content_app, <- app_assoc.
        now rewrite <- content_app.
    + cbn [firstn] in Hskip. apply all_space_cons in Hskip as [Hc Hk].
      rewrite IH by exact Hk. now rewrite (content_cons_space s Hc).
Qed.

Lemma split_content sep s :
  sep <> [] -> all_space sep -> content (concat (split sep s)) = content s.
Proof.
  intros Hne Hsep. unfold split.
  now rewrite (split_from_content sep Hne Hsep s 0 []) by reflexivity.
Qed.

Lemma split_after_punct_from_content s :
  forall in_sep after_punct cur,
    content (concat (split_after_punct_from in_sep after_punct cur s))
    = content (rev cur) ++ content s.
Proof.
  induction s as [|c s IH]; intros in_sep after_punct cur.
  - simpl. now rewrite !app_nil_r.
  - cbn [split_after_punct_from]. destruct (isspace c) eqn:Hc.
    + rewrite (content_cons_space s Hc).
      destruct in_sep; [apply IH|].
      destruct after_punct.
      * cbn [concat]. rewrite content_app, IH. reflexivity.
      * rewrite IH. cbn [rev]. rewrite content_app.
        rewrite (content_cons_space [] Hc). now rewrite app_nil_r.
    + rewrite IH. cbn [rev]. rewrite content_app, <- app_assoc.
      now rewrite <- content_app.
Qed.

(** Dropping the blank pieces and trimming the others loses no other
    character either. *)
Lemma content_trimmed_pieces (l : list str) :
  content (concat (map strip (filter (fun x => truthy (strip x)) l)))
  = content (concat l).
Proof.
  induction l as [|x l IH]; simpl; [reflexivity|].
  rewrite content_app.
  destruct (truthy (strip x)) eqn:E; simpl.
  - now rewrite content_app, content_strip, IH.
  - rewrite IH. rewrite (content_nil_strip x); [reflexivity|].
    destruct (strip x); [reflexivity|discriminate].
Qed.

Lemma trimmed_pieces_tight (l : list str) :
  Forall tight (map strip (filter (fun x => truthy (strip x)) l)).
Proof.
  induction l as [|x l IH]; simpl; [constructor|].
  destruct (truthy (strip x)) eqn:E; simpl; [|exact IH].
  constructor; [now apply strip_truthy_tight|exact IH].
Qed.

Lemma paragraphs_of_content text :
  content (concat (paragraphs_of text)) = content text.
Proof.
  unfold paragraphs_of. rewrite content_trimmed_pieces.
  apply split_content; [discriminate|reflexivity].
Qed.

Lemma split_into_sentences_content text :
  content (concat (split_into_sentences text)) = content text.
Proof.
  unfold split_into_sentences. rewrite content_trimmed_pieces.
  unfold split_after_punct. now rewrite split_after_punct_from_content.
Qed.

Lemma fold_left_flat_map {A B C} (f : A -> B -> A) (g : C -> list B) l st :
  fold_left f (flat_map g l) st
  = fold_left (fun st x => fold_left f (g x) st) l st.
Proof.
  revert st. induction l as [|x l IH]; intros st; simpl; [reflexivity|].
  now rewrite fold_left_app, IH.
Qed.

(** The product of line 64 has a value exactly when [target_length] has a
    float; otherwise it raises [OverflowError]. *)
Lemma threshold_cases target_length :
  (exists x,
      of_int target_length = Some x
      /\ threshold target_length = Ok (x * 1.5)%float)
  \/ (of_int target_length = None
      /\ threshold target_length = Raise (OtherError (lit "OverflowError"))).
Proof.
  unfold threshold. destruct (of_int target_length) as [x|].
  - left. now exists x.
  - now right.
Qed.

Lemma add_paragraph_as_fold target_length limit st paragraph :
  threshold target_length = Ok limit ->
  add_paragraph target_length st paragraph
  = Ok (fold_left (step target_length)
          (units_of_paragraph limit paragraph) st).
Proof.
  intros Hlimit. unfold add_paragraph, very_long, units_of_paragraph.
  rewrite Hlimit.
  destruct (int_gt (len paragraph) limit); [|reflexivity]. f_equal.
  generalize (split_into_sentences paragraph). intros l. revert st.
  induction l as [|x l IH]; intros st; simpl; [reflexivity|].
  now rewrite IH.
Qed.

Lemma for_in_paragraphs target_length limit paragraphs st :
  threshold target_length = Ok limit ->
  for_in (add_paragraph target_length) paragraphs st
  = Ok (fold_left (step target_length)
          (flat_map (units_of_paragraph limit) paragraphs) st).
Proof.
  intros Hlimit. rewrite fold_left_flat_map. revert st.
  induction paragraphs as [|p l IH]; intros st; simpl; [reflexivity|].
  now rewrite (add_paragraph_as_fold _ _ _ _ Hlimit), IH.
Qed.

(** The segmenter is one loop over the units. *)
Lemma splitting_as_fold text target_length limit :
  threshold target_length = Ok limit ->
  intelligent_text_splitting text target_length
  = Ok (finish (fold_left (step target_length) (units text limit)
                  ([], []))).
Proof.
  intros Hlimit. unfold intelligent_text_splitting, units.
  now rewrite (for_in_paragraphs _ _ _ _ Hlimit).
Qed.

(** Without a float for [target_length] the first paragraph raises; a
    text without a paragraph never gets to the product. *)
Lemma splitting_overflow text target_length :
  of_int target_length = None ->
  intelligent_text_splitting text target_length
  = match paragraphs_of (clean_text text) with
    | [] => Ok []
    | _ :: _ => Raise (OtherError (lit "OverflowError"))
    end.
Proof.
  intros Hnone. unfold intelligent_text_splitting.
  destruct (paragraphs_of (clean_text text)) as [|p l]; [reflexivity|].
  cbn [for_in]. unfold add_paragraph, very_long, threshold.
  now rewrite Hnone.
Qed.

(** When the segmenter returns, it is that loop. *)
Lemma splitting_returns text target_length segments :
  intelligent_text_splitting text target_length = Ok segments ->
  (exists limit,
      threshold target_length = Ok limit
      /\ segments
         = finish (fold_left (step target_length) (units text limit)
                     ([], [])))
  \/ (of_int target_length = None /\ segments = []
      /\ paragraphs_of (clean_text text) = []).
Proof.
  intros H.
  destruct (threshold_cases target_length) as [(x & _ & Hx)|[Hnone _]].
  - left. exists (x * 1.5)%float. split; [exact Hx|].
    rewrite (splitting_as_fold _ _ _ Hx) in H. now injection H as <-.
  - right. rewrite (splitting_overflow _ _ Hnone) in H.
    destruct (paragraphs_of (clean_text text)); [|discriminate H].
    injection H as <-. now repeat split.
Qed.

Lemma units_well_formed text limit :
  Forall (fun u => tight (fst u) /\ all_space (snd u))
    (units text limit).
Proof.
  unfold units. apply Forall_flat_map.
  pose proof (trimmed_pieces_tight (split [NL; NL] (clean_text text))) as H.
  fold (paragraphs_of (clean_text text)) in H.
  eapply Forall_impl; [|exact H]. intros p Hp. cbv beta.
  unfold units_of_paragraph. destruct (int_gt (len p) limit).
  - apply Forall_map. unfold split_into_sentences.
    eapply Forall_impl; [|apply trimmed_pieces_tight].
    intros s Hs. simpl. split; [exact Hs|reflexivity].
  - constructor; [|constructor]. simpl. split; [exact Hp|reflexivity].
Qed.

Lemma units_content text limit :
  content (concat (map fst (units text limit)))
  = content (clean_text text).
Proof.
  unfold units. rewrite <- (paragraphs_of_content (clean_text text)).
  induction (paragraphs_of (clean_text text)) as [|p l IH];
    simpl; [reflexivity|].
  rewrite map_app, concat_app, !content_app, IH. f_equal.
  unfold units_of_paragraph. destruct (int_gt (len p) limit).
  - rewrite map_map. simpl. rewrite map_id.
    apply split_into_sentences_content.
  - simpl. now rewrite app_nil_r.
Qed.

Section Invariant.

Variable target_length : Z.

(** A segment is within the target, or it is one unit that is itself
    longer than the target. *)
Definition bounded (U : list str) (seg : str) : Prop :=
  (len seg <= target_length)%Z
  \/ (In seg U /\ (target_length < len seg)%Z).

Definition good_segment (U : list str) (seg : str) : Prop :=
  tight seg /\ bounded U seg.

(** The accumulator is empty, or it is a good segment followed by the
    separator of its last unit. *)
Definition good_current (U : list str) (cur : str) : Prop :=
  cur = []
  \/ exists body sep,
       cur = body ++ sep /\ good_segment U body /\ all_space sep.

Definition inv (U : list str) (st : acc) : Prop :=
  Forall (good_segment U) (fst st)
  /\ good_current U (snd st)
  /\ content (concat (fst st) ++ snd st) = content (concat U).

Lemma bounded_mono U u seg : bounded U seg -> bounded (U ++ [u]) seg.
Proof.
  intros [H|[H1 H2]]; [now left|right].
  split; [apply in_or_app; now left|exact H2].
Qed.

Lemma good_segment_mono U u seg :
  good_segment U seg -> good_segment (U ++ [u]) seg.
Proof. intros [H1 H2]. split; [exact H1|now apply bounded_mono]. Qed.

Lemma len_app a b : len (a ++ b) = (len a + len b)%Z.
Proof. unfold len. rewrite length_app. lia. Qed.

Lemma bounded_unit U u : bounded (U ++ [u]) u.
Proof.
  unfold bounded. destruct (Z_le_gt_dec (len u) target_length) as [H|H].
  - now left.
  - right. split; [apply in_or_app; right; now left|lia].
Qed.

Lemma inv_step U st u sep :
  inv U st -> tight u -> all_space sep ->
  inv (U ++ [u]) (accumulate target_length sep st u).
Proof.
  intros (Hsegs & Hcur & Hcont) Hu Hsep. destruct st as [segs cur].
  simpl in Hsegs, Hcur, Hcont. unfold accumulate.
  assert (Hsegs' : Forall (good_segment (U ++ [u])) segs).
  { eapply Forall_impl; [|exact Hsegs]. intros x. apply good_segment_mono. }
  assert (Hconcat : content (concat (U ++ [u]))
                    = content (concat U) ++ content u).
  { rewrite concat_app, content_app. simpl. now rewrite app_nil_r. }
  destruct ((len cur + len u >? target_length)%Z && truthy cur) eqn:E.
  - (* flush *)
    apply andb_true_iff in E as [_ Ht]. apply truthy_true in Ht.
    destruct Hcur as [Hcur|(body & sep0 & -> & Hbody & Hsep0)];
      [congruence|].
    rewrite (strip_tight_app _ _ (proj1 Hbody) Hsep0).
    split; [|split]; simpl.
    + apply Forall_app. split; [exact Hsegs'|].
      constructor; [now apply good_segment_mono|constructor].
    + right. exists u, sep. split; [reflexivity|]. split; [|exact Hsep].
      split; [exact Hu|apply bounded_unit].
    + rewrite Hconcat, <- Hcont.
      rewrite concat_app. simpl. rewrite app_nil_r.
      rewrite !content_app, (content_all_space _ Hsep),
        (content_all_space _ Hsep0), !app_nil_r.
      now rewrite <- app_assoc.
  - (* append *)
    split; [exact Hsegs'|split]; simpl.
    + right. destruct Hcur as [->|(body & sep0 & -> & Hbody & Hsep0)].
      * exists u, sep. simpl. split; [reflexivity|].
        split; [|exact Hsep]. split; [exact Hu|apply bounded_unit].
      * exists (body ++ sep0 ++ u), sep.
        split; [now rewrite <- !app_assoc|]. split; [|exact Hsep].
        split; [apply tight_app; [exact (proj1 Hbody)|exact Hu]|].
        left. apply andb_false_iff in E as [E|E].
        -- rewrite !len_app in *. lia.
        -- destruct Hbody as [(Hne & _) _].
           destruct body; [congruence|discriminate].
    + rewrite Hconcat, <- Hcont.
      rewrite !content_app, (content_all_space _ Hsep), !app_nil_r.
      now rewrite <- !app_assoc.
Qed.

Lemma inv_fold l :
  Forall (fun u => tight (fst u) /\ all_space (snd u)) l ->
  forall U st,
    inv U st ->
    inv (U ++ map fst l) (fold_left (step target_length) l st).
Proof.
  induction 1 as [|u l [Hu Hs] _ IH]; intros U st Hst; simpl.
  - now rewrite app_nil_r.
  - replace (U ++ fst u :: map fst l) with ((U ++ [fst u]) ++ map fst l)
      by now rewrite <- app_assoc.
    apply IH. unfold step. now apply inv_step.
Qed.

Lemma inv_finish U st :
  inv U st ->
  Forall (good_segment U) (finish st)
  /\ content (concat (finish st)) = content (concat U).
Proof.
  destruct st as [segs cur]. intros (Hsegs & Hcur & Hcont).
  simpl in Hsegs, Hcur, Hcont. unfold finish.
  destruct Hcur as [->|(body & sep & -> & Hbody & Hsep)].
  - simpl. rewrite app_nil_r in Hcont. now split.
  - rewrite (strip_tight_app _ _ (proj1 Hbody) Hsep).
    assert (Ht : truthy body = true).
    { apply truthy_true. exact (proj1 (proj1 Hbody)). }
    rewrite Ht. split.
    + apply Forall_app. split; [exact Hsegs|]. now constructor.
    + rewrite <- Hcont, concat_app. simpl. rewrite app_nil_r.
      now rewrite !content_app, (content_all_space _ Hsep), app_nil_r.
Qed.

End Invariant.

(** Every segment is tight and bounded, and the segments hold the content
    of the normalized text. *)
Lemma loop_invariant text target_length limit :
  Forall (good_segment target_length (map fst (units text limit)))
    (finish (fold_left (step target_length) (units text limit) ([], [])))
  /\ content (concat (finish (fold_left (step target_length)
                                (units text limit) ([], []))))
     = content (clean_text text).
Proof.
  rewrite <- (units_content text limit).
  apply inv_finish.
  apply (inv_fold target_length _ (units_well_formed text limit) []).
  repeat split; simpl; [constructor|now left].
Qed.

Lemma splitting_invariant text target_length segments :
  intelligent_text_splitting text target_length = Ok segments ->
  Forall (fun seg =>
            tight seg
            /\ ((len seg <= target_length)%Z
                \/ (target_length < len seg)%Z
                   /\ exists limit,
                        threshold target_length = Ok limit
                        /\ In seg (map fst (units text limit))))
    segments
  /\ content (concat segments) = content (clean_text text).
Proof.
  intros H.
  destruct (splitting_returns _ _ _ H)
    as [(limit & Hlimit & ->)|(_ & -> & Hnone)].
  - destruct (loop_invariant text target_length limit) as [Hg Hc].
    split; [|exact Hc]. eapply Forall_impl; [|exact Hg].
    intros seg [Ht [Hb|[Hin Hb]]]; (split; [exact Ht|]);
      [now left|right].
    split; [exact Hb|]. now exists limit.
  - split; [constructor|]. simpl.
    rewrite <- (paragraphs_of_content (clean_text text)), Hnone.
    reflexivity.
Qed.

End SegmenterFacts.

Import TextProcessor StrFacts SegmenterFacts.

(** C1.  The segmenter is one loop of [accumulate] over the units (the
    sentences of a paragraph that line 64 finds very long, or else the whole
    paragraph).  A turn of the loop flushes the accumulator exactly when
    the accumulator is not empty and its length plus the length of the next
    unit exceeds [target_length]; otherwise the unit is appended, so a unit
    always goes into an empty accumulator whatever its own length.
    Consequently every returned segment has length at most
    [target_length], except a segment that is a single unit itself longer
    than [target_length].  This holds for every target, positive or not.
    The segmenter returns whenever [target_length] has a float, as every
    target below [2 ^ 51] on either side has; when it has none, the
    product of line 64 raises [OverflowError] at the first paragraph, and
    a text without a paragraph still gives the empty list. *)
Theorem segmenter_flush_rule_and_bound :
  forall (text : str) (target_length : Z),
    (forall limit,
        threshold target_length = Ok limit ->
        intelligent_text_splitting text target_length
        = Ok (finish (fold_left (step target_length) (units text limit)
                        ([], []))))
    /\ (forall sep segments current unit,
          (current <> [] ->
           (len current + len unit > target_length)%Z ->
           accumulate target_length sep (segments, current) unit
           = (segments ++ [strip current], unit ++ sep))
          /\ (current = [] \/ (len current + len unit <= target_length)%Z ->
              accumulate target_length sep (segments, current) unit
              = (segments, current ++ unit ++ sep)))
    /\ (forall segments seg,
          intelligent_text_splitting text target_length = Ok segments ->
          In seg segments ->
          (len seg <= target_length)%Z
          \/ (target_length < len seg)%Z
             /\ exists limit,
                  threshold target_length = Ok limit
                  /\ In seg (map fst (units text limit)))
    /\ (of_int target_length <> None ->
        exists segments,
          intelligent_text_splitting text target_length = Ok segments)
    /\ ((- 2 ^ 51 < target_length < 2 ^ 51)%Z ->
        of_int target_length <> None)
    /\ (of_int target_length = None ->
        intelligent_text_splitting text target_length
        = match paragraphs_of (clean_text text) with
          | [] => Ok []
          | _ :: _ => Raise (OtherError (lit "OverflowError"))
          end).
Proof.
  intros text target_length. split; [apply splitting_as_fold|]. split.
  - intros sep segments current unit. unfold accumulate. split.
    + intros Hne Hlen.
      assert (E : (len current + len unit >? target_length)%Z = true)
        by (apply Z.gtb_lt; lia).
      rewrite E. apply truthy_true in Hne. now rewrite Hne.
    + intros [->|Hlen]; [now rewrite andb_false_r|].
      assert (E : (len current + len unit >? target_length)%Z = false).
      { destruct (Z.gtb_spec (len current + len unit) target_length);
          [lia|reflexivity]. }
      now rewrite E.
  - split; [|split].
    + intros segments seg Hrun Hin.
      destruct (splitting_invariant _ _ _ Hrun) as [H _].
      rewrite Forall_forall in H. destruct (H seg Hin) as [_ Hb]. exact Hb.
    + intros Hfloat.
      destruct (threshold_cases target_length) as [(x & _ & Hx)|[Hnone _]];
        [|contradiction].
      eexists. apply (splitting_as_fold _ _ _ Hx).
    + split; [apply of_int_small|apply splitting_overflow].
Qed.

(** Beyond the floats: a one-sentence text and a target of [10 ^ 400],
    or its opposite. *)
Example target_beyond_the_floats :
  intelligent_text_splitting (lit "Hello.") (10 ^ 400)
  = Raise (OtherError (lit "OverflowError"))
  /\ intelligent_text_splitting (lit "Hello.") (- 10 ^ 400)
     = Raise (OtherError (lit "OverflowError"))
  /\ intelligent_text_splitting (lit "  ") (10 ^ 400) = Ok [].
Proof. vm_compute. repeat split. Qed.

(** C2.  Every element returned by the segmenter is non-empty and equal to
    its own trimmed form; the concatenation of the elements, in order, has
    the same content as the normalized input once whitespace is left out;
    and the empty input gives the empty sequence, whatever the target.
    The segmenter returns whenever [target_length] has a float, as every
    target below [2 ^ 51] on either side has. *)
Theorem segments_trimmed_and_lossless :
  forall (text : str) (target_length : Z),
    (forall segments,
        intelligent_text_splitting text target_length = Ok segments ->
        (forall seg, In seg segments -> seg <> [] /\ strip seg = seg)
        /\ content (concat segments) = content (clean_text text))
    /\ (of_int target_length <> None ->
        exists segments,
          intelligent_text_splitting text target_length = Ok segments)
    /\ ((- 2 ^ 51 < target_length < 2 ^ 51)%Z ->
        of_int target_length <> None)
    /\ intelligent_text_splitting [] target_length = Ok [].
Proof.
  intros text target_length. split; [|split; [|split]].
  - intros segments Hrun.
    destruct (splitting_invariant _ _ _ Hrun) as [H Hc].
    split; [|exact Hc].
    intros seg Hin. rewrite Forall_forall in H.
    destruct (H seg Hin) as [Ht _]. split; [exact (proj1 Ht)|].
    now apply tight_strip.
  - intros Hfloat.
    destruct (threshold_cases target_length) as [(x & _ & Hx)|[Hnone _]];
      [|contradiction].
    eexists. apply (splitting_as_fold _ _ _ Hx).
  - apply of_int_small.
  - reflexivity.
Qed.

(** The input on which the normalizer is applied twice below: a comma, a
    space and a double quote, then the text that line 25 replaces, then a
    double quote and [).replace(]. *)
Definition nested_quote_input : str :=
  lit ", " ++ [DQUOTE] ++ quote_pattern ++ [DQUOTE] ++ lit ").replace(".

(** C3.  The normalizer is a total function, but it is not idempotent: on
    [nested_quote_input] the first pass leaves exactly the text that line 25
    replaces, and the second pass turns it into a single quote. *)
Theorem clean_text_twice_differs :
  clean_text nested_quote_input = quote_pattern
  /\ clean_text (clean_text nested_quote_input) = [SQUOTE]
  /\ clean_text (clean_text nested_quote_input)
     <> clean_text nested_quote_input.
Proof. vm_compute. repeat split; discriminate. Qed.

(** ** Dictionaries and runs *)

Arguments lit : simpl never.

Module PyFacts.

Lemma eqb_eq s t : Str.eqb s t = true <-> s = t.
Proof.
  revert t. induction s as [|a s IH]; intros [|b t]; simpl;
    try (split; [discriminate|discriminate]); try tauto.
  rewrite andb_true_iff, N.eqb_eq, IH. split.
  - now intros [-> ->].
  - now intros [= -> ->].
Qed.

Lemma eqb_refl s : Str.eqb s s = true.
Proof. now apply eqb_eq. Qed.

Lemma eqb_neq s t : Str.eqb s t = false <-> s <> t.
Proof.
  split.
  - intros H E. apply eqb_eq in E. congruence.
  - intros H. destruct (Str.eqb s t) eqn:E; [|reflexivity].
    apply eqb_eq in E. contradiction.
Qed.

Lemma dict_get_set_same {V} (d : dict V) k v :
  dict_get (dict_set d k v) k = Some v.
Proof.
  induction d as [|[k' v'] d IH]; simpl.
  - now rewrite eqb_refl.
  - destruct (Str.eqb k' k) eqn:E; simpl; rewrite E; [reflexivity|exact IH].
Qed.

Lemma dict_get_set_other {V} (d : dict V) k k' v :
  k <> k' -> dict_get (dict_set d k v) k' = dict_get d k'.
Proof.
  intros Hne. induction d as [|[k0 v0] d IH]; simpl.
  - apply eqb_neq in Hne. now rewrite Hne.
  - destruct (Str.eqb k0 k) eqn:E; simpl.
    + apply eqb_eq in E. subst k0.
      apply eqb_neq in Hne. now rewrite Hne.
    + destruct (Str.eqb k0 k'); [reflexivity|exact IH].
Qed.

Lemma dict_get_none_keys {V} (d : dict V) k :
  dict_get d k = None <-> ~ In k (keys d).
Proof.
  unfold keys. induction d as [|[k0 v0] d IH]; simpl; [tauto|].
  destruct (Str.eqb k0 k) eqn:E.
  - apply eqb_eq in E. subst. split; [discriminate|]. intros H. tauto.
  - apply eqb_neq in E. rewrite IH. tauto.
Qed.

(** Setting a key never removes a key. *)
Lemma keys_dict_set {V} (d : dict V) k v k' :
  In k' (keys (dict_set d k v)) <-> k' = k \/ In k' (keys d).
Proof.
  unfold keys. induction d as [|[k0 v0] d IH]; simpl; [intuition congruence|].
  destruct (Str.eqb k0 k) eqn:E; simpl.
  - apply eqb_eq in E. subst. intuition congruence.
  - rewrite IH. tauto.
Qed.

(** A fresh key goes to the end. *)
Lemma dict_set_fresh {V} (d : dict V) k v :
  ~ In k (keys d) -> dict_set d k v = d ++ [(k, v)].
Proof.
  unfold keys. induction d as [|[k0 v0] d IH]; simpl; [reflexivity|].
  intros H. destruct (Str.eqb k0 k) eqn:E.
  - apply eqb_eq in E. subst. tauto.
  - f_equal. apply IH. tauto.
Qed.

End PyFacts.

Module RunFacts.

Lemma saved_paths_app t d : saved_paths (t ++ d) = saved_paths t ++ saved_paths d.
Proof. unfold saved_paths. now rewrite flat_map_app. Qed.

Lemma generate_calls_app t d :
  generate_calls (t ++ d) = generate_calls t ++ generate_calls d.
Proof. unfold generate_calls. now rewrite flat_map_app. Qed.

(** A run only appends to the trace. *)
Definition extends (t t' : trace) : Prop := exists d, t' = t ++ d.

Lemma extends_refl t : extends t t.
Proof. exists []. now rewrite app_nil_r. Qed.

Lemma extends_trans t1 t2 t3 : extends t1 t2 -> extends t2 t3 -> extends t1 t3.
Proof. intros [d1 ->] [d2 ->]. exists (d1 ++ d2). now rewrite app_assoc. Qed.

Lemma extends_snoc t e : extends t (t ++ [e]).
Proof. now exists [e]. Qed.

End RunFacts.

Import PyFacts RunFacts.

(** Open the next [bind] of a run that is known to have ended well. *)
Ltac open_bind H :=
  unfold bind in H at 1;
  match type of H with
  | match ?m with _ => _ end = _ =>
      let a := fresh "a" in
      let e := fresh "e" in
      let t1 := fresh "t" in
      let E := fresh "E" in
      destruct m as [[a|e] t1] eqn:E; [|discriminate H]
  end.

(** ** The preset of a voice style *)

Definition neutral_preset : dict value :=
  [(lit "exaggeration", VFloat 0.5); (lit "cfg_weight", VFloat 0.5)].

(** C10.  For a voice style that is a string other than ["neutral"] and
    ["calm"], the preset lookup raises nothing and gives the neutral preset,
    and [generate_segment_audio] runs exactly as it does for ["neutral"]:
    same synthesis request, same outcome.  With no custom parameters and no
    audio prompt, that request carries the neutral preset itself. *)
Theorem unknown_style_uses_neutral_preset :
  forall (env : Env) (self : AudioGenerator.obj env) (text voice_style : str)
         (audio_prompt_path custom_params : value) (t : trace),
    voice_style <> lit "neutral" ->
    voice_style <> lit "calm" ->
    Methods.lookup VOICE_PRESETS (VStr voice_style) neutral_preset t
    = (Ok neutral_preset, t)
    /\ AudioGenerator.generate_segment_audio self text (VStr voice_style)
         audio_prompt_path custom_params t
       = AudioGenerator.generate_segment_audio self text
           (VStr (lit "neutral")) audio_prompt_path custom_params t
    /\ AudioGenerator.generate_segment_audio self text (VStr voice_style)
         VNone VNone t
       = (generate env t (AudioGenerator.model self) text None
            neutral_preset,
          t ++ [Generate text None neutral_preset]).
Proof.
  intros env self text voice_style audio_prompt_path custom_params t Hn Hc.
  assert (L : forall t0,
             Methods.lookup VOICE_PRESETS (VStr voice_style) neutral_preset t0
             = (Ok neutral_preset, t0)).
  { intros t0. unfold Methods.lookup, dict_get_default, VOICE_PRESETS.
    cbn [dict_get].
    assert (E1 : Str.eqb (lit "neutral") voice_style = false)
      by (apply eqb_neq; congruence).
    assert (E2 : Str.eqb (lit "calm") voice_style = false)
      by (apply eqb_neq; congruence).
    now rewrite E1, E2. }
  split; [apply L|].
  assert (G : forall ap cp,
             AudioGenerator.generate_segment_audio self text
               (VStr voice_style) ap cp t
             = AudioGenerator.generate_segment_audio self text
                 (VStr (lit "neutral")) ap cp t).
  { intros ap cp. unfold AudioGenerator.generate_segment_audio.
    unfold bind at 1. unfold bind at 3.
    change (AudioGenerator.getitem VOICE_PRESETS (lit "neutral") t)
      with (@Ok (dict value) neutral_preset, t).
    cbv iota beta. unfold bind at 1. unfold bind at 2.
    rewrite (L t).
    change (Methods.lookup VOICE_PRESETS (VStr (lit "neutral"))
              neutral_preset t)
      with (@Ok (dict value) neutral_preset, t).
    reflexivity. }
  split; [apply G|].
  rewrite G. reflexivity.
Qed.

(** A witness: the style ["angry"] on an environment in which synthesis
    always succeeds. *)
Definition quiet_env : Env :=
  {| wav := unit; model := unit;
     path_str := fun p => p;
     path_name := fun p => p;
     path_stem := fun p => p;
     path_join := fun d f => d ++ lit "/" ++ f;
     str_title := fun s => s;
     path_exists := fun _ _ => true;
     read_text := fun _ _ => Ok [];
     write_text := fun _ _ _ => Ok tt;
     mkdir := fun _ _ => Ok tt;
     glob_json := fun _ _ => Ok [];
     json_dumps_other := fun _ => Raise TypeError;
     json_loads_other := fun _ => Raise (OtherError (lit "JSONDecodeError"));
     from_pretrained := fun _ _ => Ok tt;
     generate := fun _ _ _ _ _ => Ok tt;
     save := fun _ _ _ _ => Ok tt;
     concatenate := fun _ _ _ _ _ => Ok tt |}.

Definition quiet_generator : AudioGenerator.obj quiet_env :=
  AudioGenerator.Build_obj quiet_env (lit "cpu") tt.

Lemma unknown_style_uses_neutral_preset_witness :
  AudioGenerator.generate_segment_audio quiet_generator (lit "Hello.")
    (VStr (lit "angry")) VNone VNone []
  = (Ok tt, [Generate (lit "Hello.") None neutral_preset]).
Proof.
  apply (unknown_style_uses_neutral_preset quiet_env quiet_generator
           (lit "Hello.") (lit "angry") VNone VNone []); discriminate.
Defined.

(** ** The orchestrator: one segment *)

(** The effective voice style and audio prompt of a segment, by the
    precedence the specification gives: the segment's own value, else the
    document's global setting, else the fixed default. *)
Definition effective_voice_style (segment global_settings : dict value)
  : value :=
  match dict_get segment (lit "voice_style") with
  | Some v => v
  | None =>
      match dict_get global_settings (lit "voice_style") with
      | Some v => v
      | None => VStr (lit "neutral")
      end
  end.

Definition effective_audio_prompt (segment global_settings : dict value)
  : value :=
  match dict_get segment (lit "audio_prompt") with
  | Some v => v
  | None =>
      match dict_get global_settings (lit "audio_prompt") with
      | Some v => v
      | None => VNone
      end
  end.

(** What the loop does with a segment that has text: announce it, request
    the audio with the effective settings, save it under the name of its
    position, and record the path. *)
Definition narrate_segment {env} (self : StoryNarrator.obj env)
    (global_settings segment : dict value) (story_name : str)
    (count i : nat) (text : str) (generated_files : list str)
  : M (list str) :=
  print [FText (lit "Processing segment ");
         FValue (VInt (Z.of_nat (i + 1))); FText (lit "/");
         FValue (VInt (Z.of_nat count)); FText (lit ": ");
         FValue (effective_voice_style segment global_settings);
         FText (lit " style")] ;;;
  wav <- StoryNarrator.generate_segment_audio self text
           (effective_voice_style segment global_settings)
           (effective_audio_prompt segment global_settings)
           (dict_get_default segment (lit "tts_params") (VDict [])) ;;
  AudioGenerator.save_audio (StoryNarrator.audio_generator self) wav
    (path_join env (StoryNarrator.output_dir self)
       (StoryNarrator.segment_filename story_name i)) ;;;
  print [FText (lit "Saved: ");
         FText (StoryNarrator.segment_filename story_name i)] ;;;
  ret (generated_files
       ++ [path_join env (StoryNarrator.output_dir self)
             (StoryNarrator.segment_filename story_name i)]).

Lemma process_segment_with_text :
  forall (env : Env) (self : StoryNarrator.obj env)
         (global_settings segment : dict value) (story_name : str)
         (count i : nat) (text : str) (generated_files : list str)
         (t : trace),
    dict_get_default segment (lit "text") (VStr []) = VStr text ->
    truthy (strip text) = true ->
    StoryNarrator.process_segment self (VDict global_settings) story_name
      count i (VDict segment) generated_files t
    = narrate_segment self global_settings segment story_name count i text
        generated_files t.
Proof.
  intros env self g sd name count i text gf t Htext Hns.
  unfold StoryNarrator.process_segment, narrate_segment.
  unfold Methods.get, Methods.strip.
  unfold bind at 1. unfold ret at 1. rewrite Htext.
  unfold bind at 1. unfold ret at 1. rewrite Hns. cbn [negb].
  unfold effective_voice_style, effective_audio_prompt, dict_get_default.
  unfold bind, ret. reflexivity.
Qed.

(** C8.  For a segment that has text, in a document whose settings are a
    dictionary, the orchestrator announces and requests the audio with the
    effective voice style, which is the segment's [voice_style] when
    present, otherwise the global [voice_style] when present, otherwise
    ["neutral"], and with the effective audio prompt, which is the
    segment's [audio_prompt] when present, otherwise the global
    [audio_prompt] when present, otherwise [None]. *)
Theorem effective_settings_precedence :
  forall (env : Env) (self : StoryNarrator.obj env)
         (global_settings segment : dict value) (story_name : str)
         (count i : nat) (text : str) (generated_files : list str)
         (t : trace),
    dict_get_default segment (lit "text") (VStr []) = VStr text ->
    truthy (strip text) = true ->
    StoryNarrator.process_segment self (VDict global_settings) story_name
      count i (VDict segment) generated_files t
    = narrate_segment self global_settings segment story_name count i text
        generated_files t
    /\ (forall v,
          dict_get segment (lit "voice_style") = Some v ->
          effective_voice_style segment global_settings = v)
    /\ (forall v,
          dict_get segment (lit "voice_style") = None ->
          dict_get global_settings (lit "voice_style") = Some v ->
          effective_voice_style segment global_settings = v)
    /\ (dict_get segment (lit "voice_style") = None ->
        dict_get global_settings (lit "voice_style") = None ->
        effective_voice_style segment global_settings
        = VStr (lit "neutral"))
    /\ (forall v,
          dict_get segment (lit "audio_prompt") = Some v ->
          effective_audio_prompt segment global_settings = v)
    /\ (forall v,
          dict_get segment (lit "audio_prompt") = None ->
          dict_get global_settings (lit "audio_prompt") = Some v ->
          effective_audio_prompt segment global_settings = v)
    /\ (dict_get segment (lit "audio_prompt") = None ->
        dict_get global_settings (lit "audio_prompt") = None ->
        effective_audio_prompt segment global_settings = VNone).
Proof.
  intros env self g sd name count i text gf t Htext Hns.
  split; [now apply process_segment_with_text|].
  unfold effective_voice_style, effective_audio_prompt.
  repeat split; intros; repeat match goal with
                               | H : dict_get _ _ = _ |- _ => rewrite H
                               end; reflexivity.
Qed.

(** The audio prompt that reaches the model: the value itself when it is
    true, and no prompt otherwise. *)
Definition prompt_argument (audio_prompt_path : value) : option value :=
  if truthy_value audio_prompt_path then Some audio_prompt_path else None.

(** A call of [generate_segment_audio] either raises before it reaches the
    model, or makes exactly one synthesis request. *)
Lemma generate_segment_audio_trace :
  forall (env : Env) (self : AudioGenerator.obj env) (text : str)
         (voice_style audio_prompt_path custom_params : value)
         (t t' : trace) (o : outcome (wav env)),
    AudioGenerator.generate_segment_audio self text voice_style
      audio_prompt_path custom_params t = (o, t') ->
    (t' = t /\ exists e, o = Raise e)
    \/ (exists params,
          t' = t ++ [Generate text (prompt_argument audio_prompt_path)
                       params]
          /\ o = generate env t (AudioGenerator.model self) text
                   (prompt_argument audio_prompt_path) params).
Proof.
  intros env self text vs ap cp t t' o.
  unfold AudioGenerator.generate_segment_audio, prompt_argument.
  unfold bind at 1.
  change (AudioGenerator.getitem VOICE_PRESETS (lit "neutral") t)
    with (@Ok (dict value) neutral_preset, t).
  cbv iota beta. unfold bind at 1.
  destruct (Methods.lookup VOICE_PRESETS vs neutral_preset t)
    as [[params|e] t1] eqn:E1.
  - assert (t1 = t) as ->.
    { unfold Methods.lookup in E1.
      destruct vs; unfold ret, raise in E1; congruence. }
    unfold bind at 1.
    destruct ((if truthy_value cp
               then lift (AudioGenerator.update params cp)
               else ret params) t) as [[params'|e] t2] eqn:E2.
    + assert (t2 = t) as ->.
      { destruct (truthy_value cp); unfold lift, ret in E2; congruence. }
      destruct (truthy_value ap).
      * destruct (dict_get params' (lit "audio_prompt_path")).
        -- unfold raise. intros [= <- <-]. left. eauto.
        -- unfold act. intros [= <- <-]. right. eauto.
      * unfold act. intros [= <- <-]. right. eauto.
    + assert (t2 = t) as ->.
      { destruct (truthy_value cp); unfold lift, ret in E2; congruence. }
      intros [= <- <-]. left. eauto.
  - assert (t1 = t) as ->.
    { unfold Methods.lookup in E1.
      destruct vs; unfold ret, raise in E1; congruence. }
    intros [= <- <-]. left. eauto.
Qed.

(** The positions, counted from [start], of the segments that have text. *)
Definition has_text (segment : value) : bool :=
  match segment with
  | VDict d =>
      match dict_get_default d (lit "text") (VStr []) with
      | VStr s => truthy (strip s)
      | _ => false
      end
  | _ => false
  end.

Fixpoint text_positions (start : nat) (segments : list value) : list nat :=
  match segments with
  | [] => []
  | segment :: rest =>
      if has_text segment
      then start :: text_positions (S start) rest
      else text_positions (S start) rest
  end.

Definition segment_path {env} (self : StoryNarrator.obj env)
    (story_name : str) (i : nat) : str :=
  path_join env (StoryNarrator.output_dir self)
    (StoryNarrator.segment_filename story_name i).

Lemma process_segment_blank :
  forall (env : Env) (self : StoryNarrator.obj env) (global_settings : value)
         (segment : dict value) (story_name : str) (count i : nat)
         (text : str) (generated_files : list str) (t : trace),
    dict_get_default segment (lit "text") (VStr []) = VStr text ->
    truthy (strip text) = false ->
    StoryNarrator.process_segment self global_settings story_name count i
      (VDict segment) generated_files t
    = (Ok generated_files, t).
Proof.
  intros env self g sd name count i text gf t Htext Hblank.
  unfold StoryNarrator.process_segment, Methods.get, Methods.strip.
  unfold bind at 1. unfold ret at 1. rewrite Htext.
  unfold bind at 1. unfold ret at 1. rewrite Hblank. reflexivity.
Qed.

Lemma narrate_segment_ok :
  forall (env : Env) (self : StoryNarrator.obj env)
         (global_settings segment : dict value) (story_name : str)
         (count i : nat) (text : str) (generated_files files : list str)
         (t t' : trace),
    narrate_segment self global_settings segment story_name count i text
      generated_files t = (Ok files, t') ->
    files = generated_files ++ [segment_path self story_name i]
    /\ saved_paths t' = saved_paths t ++ [segment_path self story_name i].
Proof.
  intros env self g sd name count i text gf files t t' H.
  unfold narrate_segment in H.
  open_bind H. unfold print, emit in E. injection E as _ <-.
  open_bind H. unfold StoryNarrator.generate_segment_audio in E.
  apply generate_segment_audio_trace in E.
  destruct E as [[_ [e He]]|[params [-> _]]]; [discriminate|].
  open_bind H. unfold AudioGenerator.save_audio, act in E.
  injection E as _ <-.
  open_bind H. unfold print, emit in E. injection E as _ <-.
  unfold ret in H. injection H as <- <-.
  split; [reflexivity|].
  rewrite !saved_paths_app. simpl. now rewrite !app_nil_r.
Qed.

Lemma process_segment_ok :
  forall (env : Env) (self : StoryNarrator.obj env)
         (global_settings segment : value) (story_name : str)
         (count i : nat) (generated_files files : list str) (t t' : trace),
    StoryNarrator.process_segment self global_settings story_name count i
      segment generated_files t = (Ok files, t') ->
    (has_text segment = false /\ files = generated_files /\ t' = t)
    \/ (has_text segment = true
        /\ files = generated_files ++ [segment_path self story_name i]
        /\ saved_paths t' = saved_paths t ++ [segment_path self story_name i]).
Proof.
  intros env self g seg name count i gf files t t' H.
  destruct seg as [| | | | |l|sd];
    try (unfold StoryNarrator.process_segment, Methods.get in H;
         unfold bind, raise in H; discriminate H).
  destruct (dict_get_default sd (lit "text") (VStr [])) as [| | | |text| |]
    eqn:Htext;
    try (unfold StoryNarrator.process_segment, Methods.get, Methods.strip
           in H;
         unfold bind at 1 in H; unfold ret at 1 in H; rewrite Htext in H;
         unfold bind, raise in H; discriminate H).
  destruct (truthy (strip text)) eqn:Hns.
  - right.
    destruct g as [| | | | |l|gd];
      try (unfold StoryNarrator.process_segment, Methods.get, Methods.strip
             in H;
           unfold bind at 1 in H; unfold ret at 1 in H; rewrite Htext in H;
           unfold bind at 1 in H; unfold ret at 1 in H; rewrite Hns in H;
           cbn [negb] in H; unfold bind, raise in H; discriminate H).
    rewrite (process_segment_with_text _ _ _ _ _ _ _ _ _ _ Htext Hns) in H.
    apply narrate_segment_ok in H. unfold has_text. rewrite Htext, Hns.
    tauto.
  - left.
    rewrite (process_segment_blank _ _ _ _ _ _ _ _ _ _ Htext Hns) in H.
    injection H as <- <-. unfold has_text. now rewrite Htext, Hns.
Qed.

Lemma process_segments_ok :
  forall (env : Env) (self : StoryNarrator.obj env) (global_settings : value)
         (story_name : str) (count : nat) (segments : list value)
         (start : nat) (generated_files files : list str) (t t' : trace),
    for_enumerate
      (StoryNarrator.process_segment self global_settings story_name count)
      start segments generated_files t = (Ok files, t') ->
    files = generated_files
            ++ map (segment_path self story_name)
                 (text_positions start segments)
    /\ saved_paths t' = saved_paths t
                        ++ map (segment_path self story_name)
                             (text_positions start segments).
Proof.
  intros env self g name count segments.
  induction segments as [|seg rest IH]; intros start gf files t t' H.
  - simpl in H. unfold ret in H. injection H as <- <-.
    simpl. now rewrite !app_nil_r.
  - cbn [for_enumerate] in H. open_bind H.
    apply process_segment_ok in E. apply IH in H. destruct H as [Hf Hs].
    cbn [text_positions].
    destruct E as [(Hb & -> & ->)|(Hb & -> & Hsaved)]; rewrite Hb.
    + now split.
    + rewrite Hf, Hs, Hsaved. cbn [map]. now rewrite <- !app_assoc.
Qed.

(** ** The orchestrator: one document *)

Lemma process_war_story_ok :
  forall (env : Env) (self : StoryNarrator.obj env) (story_data : dict value)
         (story_name : str) (segments : list value) (files : list str)
         (t t' : trace),
    dict_get_default story_data (lit "segments") (VList []) = VList segments ->
    StoryNarrator.process_war_story self (VDict story_data) story_name t
    = (Ok files, t') ->
    files = map (segment_path self story_name) (text_positions 0 segments)
    /\ saved_paths t' = saved_paths t ++ files.
Proof.
  intros env self d name segs files t t' Hsegs H.
  unfold StoryNarrator.process_war_story, Methods.get in H.
  unfold bind at 1 in H. unfold ret at 1 in H. rewrite Hsegs in H.
  unfold bind at 1 in H. unfold ret at 1 in H.
  unfold bind at 1 in H. unfold ret at 1 in H.
  open_bind H. unfold print, emit in E. injection E as _ <-.
  unfold Methods.len in H. unfold bind at 1 in H. unfold ret at 1 in H.
  open_bind H. unfold print, emit in E. injection E as _ <-.
  unfold Methods.iter in H. unfold bind at 1 in H. unfold ret at 1 in H.
  open_bind H. apply process_segments_ok in E. destruct E as [-> Hsaved].
  unfold bind at 1 in H. unfold ret at 1 in H.
  open_bind H. unfold ret in H. injection H as <- <-.
  split; [reflexivity|].
  match goal with
  | E : _ ?ta = (Ok _, ?tb) |- saved_paths ?tb = _ =>
      assert (Hc : saved_paths tb = saved_paths ta);
      [ destruct (truthy_value _ && _);
        [ unfold AudioGenerator.concatenate_segments in E;
          unfold bind, print, emit, act in E;
          destruct (concatenate _ _ _ _ _ _); [|discriminate E];
          injection E as _ <-;
          rewrite !saved_paths_app; simpl; now rewrite !app_nil_r
        | unfold ret in E; now injection E as _ <- ]
      | rewrite Hc ]
  end.
  rewrite Hsaved, !saved_paths_app. simpl. now rewrite !app_nil_r.
Qed.

(** An environment in which synthesis, saving and concatenation never
    fail. *)
Definition audio_never_fails (env : Env) : Prop :=
  (forall t m text prompt params,
      exists w, generate env t m text prompt params = Ok w)
  /\ (forall t m path w, save env t m path w = Ok tt)
  /\ (forall t m files path pause,
        concatenate env t m files path pause = Ok tt).

Definition hashable (v : value) : bool :=
  match v with VList _ | VDict _ => false | _ => true end.

(** The custom parameters are absent, empty, or a dictionary that does not
    itself name the audio prompt when a prompt is passed. *)
Definition overrides_ok (custom_params audio_prompt : value) : bool :=
  match custom_params with
  | VDict other =>
      negb (truthy_value audio_prompt)
      || match dict_get other (lit "audio_prompt_path") with
         | None => true
         | Some _ => false
         end
  | _ => negb (truthy_value custom_params)
  end.

(** A segment the loop can handle: a dictionary whose text is a string
    and, when there is text, whose effective settings are usable. *)
Definition narratable (global_settings : dict value) (segment : value)
  : bool :=
  match segment with
  | VDict sd =>
      match dict_get_default sd (lit "text") (VStr []) with
      | VStr s =>
          negb (truthy (strip s))
          || hashable (effective_voice_style sd global_settings)
             && overrides_ok (dict_get_default sd (lit "tts_params") (VDict []))
                  (effective_audio_prompt sd global_settings)
      | _ => false
      end
  | _ => false
  end.

Lemma dict_get_update_none {V} (other d : dict V) k :
  dict_get d k = None -> dict_get other k = None ->
  dict_get (dict_update d other) k = None.
Proof.
  unfold dict_update. revert d.
  induction other as [|[k0 v0] other IH]; intros d Hd Ho; simpl;
    [exact Hd|].
  simpl in Ho. destruct (Str.eqb k0 k) eqn:E; [discriminate|].
  apply IH; [|exact Ho].
  rewrite dict_get_set_other; [exact Hd|]. now apply eqb_neq.
Qed.

Lemma preset_has_no_prompt voice_style params t t' :
  Methods.lookup VOICE_PRESETS voice_style neutral_preset t
  = (Ok params, t') ->
  dict_get params (lit "audio_prompt_path") = None.
Proof.
  unfold Methods.lookup, dict_get_default, VOICE_PRESETS.
  destruct voice_style; unfold ret, raise; try discriminate;
    try (intros [= <- _]; reflexivity).
  cbn [dict_get].
  destruct (Str.eqb (lit "neutral") s);
    [intros [= <- _]; reflexivity|].
  destruct (Str.eqb (lit "calm") s); intros [= <- _]; reflexivity.
Qed.

Lemma generate_segment_audio_total :
  forall (env : Env) (self : AudioGenerator.obj env) (text : str)
         (voice_style audio_prompt_path custom_params : value) (t : trace),
    audio_never_fails env ->
    hashable voice_style = true ->
    overrides_ok custom_params audio_prompt_path = true ->
    exists w params,
      AudioGenerator.generate_segment_audio self text voice_style
        audio_prompt_path custom_params t
      = (Ok w, t ++ [Generate text (prompt_argument audio_prompt_path)
                       params]).
Proof.
  intros env self text vs ap cp t (Hgen & _ & _) Hh Ho.
  unfold AudioGenerator.generate_segment_audio, prompt_argument.
  unfold bind at 1.
  change (AudioGenerator.getitem VOICE_PRESETS (lit "neutral") t)
    with (@Ok (dict value) neutral_preset, t).
  cbv iota beta. unfold bind at 1.
  destruct (Methods.lookup VOICE_PRESETS vs neutral_preset t)
    as [[params|e] t1] eqn:E1.
  2:{ unfold Methods.lookup in E1.
      destruct vs; unfold ret, raise in E1; discriminate. }
  pose proof (preset_has_no_prompt _ _ _ _ E1) as Hnp.
  assert (t1 = t) as ->.
  { unfold Methods.lookup in E1.
    destruct vs; unfold ret, raise in E1; congruence. }
  unfold bind at 1.
  assert (Hupd : exists params',
             (if truthy_value cp
              then lift (AudioGenerator.update params cp)
              else ret params) t = (Ok params', t)
             /\ (truthy_value ap = true ->
                 dict_get params' (lit "audio_prompt_path") = None)).
  { destruct (truthy_value cp) eqn:Etc.
    - destruct cp as [| b | z | f | s0 | l | other];
        try (unfold overrides_ok in Ho; rewrite Etc in Ho;
             discriminate Ho).
      exists (dict_update params other). split; [reflexivity|].
      intros Hap. unfold overrides_ok in Ho. rewrite Hap in Ho.
      cbn [negb orb] in Ho.
      destruct (dict_get other (lit "audio_prompt_path")) eqn:Ed;
        [discriminate|].
      now apply dict_get_update_none.
    - exists params. split; [reflexivity|]. intros _. exact Hnp. }
  destruct Hupd as (params' & -> & Hkey).
  destruct (truthy_value ap) eqn:Eap.
  - rewrite (Hkey eq_refl). unfold act.
    destruct (Hgen t (AudioGenerator.model self) text (Some ap) params')
      as [w ->].
    now exists w, params'.
  - unfold act.
    destruct (Hgen t (AudioGenerator.model self) text None params')
      as [w ->].
    now exists w, params'.
Qed.

Lemma process_segment_total :
  forall (env : Env) (self : StoryNarrator.obj env)
         (global_settings : dict value) (segment : value) (story_name : str)
         (count i : nat) (generated_files : list str) (t : trace),
    audio_never_fails env ->
    narratable global_settings segment = true ->
    exists files t',
      StoryNarrator.process_segment self (VDict global_settings) story_name
        count i segment generated_files t = (Ok files, t').
Proof.
  intros env self g seg name count i gf t Henv Hn.
  unfold narratable in Hn. destruct seg; try discriminate.
  destruct (dict_get_default d (lit "text") (VStr [])) eqn:Htext;
    try discriminate.
  destruct (truthy (strip s)) eqn:Hns.
  - rewrite (process_segment_with_text _ _ _ _ _ _ _ _ _ _ Htext Hns).
    simpl in Hn. apply andb_true_iff in Hn as [Hh Ho].
    unfold narrate_segment.
    unfold bind at 1. unfold print at 1, emit at 1.
    unfold bind at 1. unfold StoryNarrator.generate_segment_audio.
    destruct (generate_segment_audio_total _
                (StoryNarrator.audio_generator self) s _ _ _
                (t ++ [Print [FText (lit "Processing segment ");
                              FValue (VInt (Z.of_nat (i + 1)));
                              FText (lit "/");
                              FValue (VInt (Z.of_nat count));
                              FText (lit ": ");
                              FValue (effective_voice_style d g);
                              FText (lit " style")]])
                Henv Hh Ho) as (w & params & ->).
    unfold bind at 1. unfold AudioGenerator.save_audio, act.
    destruct Henv as (_ & Hsave & _). rewrite Hsave.
    unfold bind, print, emit, ret. eauto.
  - rewrite (process_segment_blank _ _ _ _ _ _ _ _ _ _ Htext Hns). eauto.
Qed.

Lemma process_segments_total :
  forall (env : Env) (self : StoryNarrator.obj env)
         (global_settings : dict value) (story_name : str) (count : nat)
         (segments : list value) (start : nat) (generated_files : list str)
         (t : trace),
    audio_never_fails env ->
    forallb (narratable global_settings) segments = true ->
    exists files t',
      for_enumerate
        (StoryNarrator.process_segment self (VDict global_settings)
           story_name count)
        start segments generated_files t = (Ok files, t').
Proof.
  intros env self g name count segments.
  induction segments as [|seg rest IH]; intros start gf t Henv Hall.
  - simpl. unfold ret. eauto.
  - simpl in Hall. apply andb_true_iff in Hall as [Hseg Hrest].
    cbn [for_enumerate]. unfold bind.
    destruct (process_segment_total _ self g seg name count start gf t
                Henv Hseg) as (files & t1 & ->).
    apply IH; assumption.
Qed.

Lemma process_war_story_total :
  forall (env : Env) (self : StoryNarrator.obj env) (story_data : dict value)
         (story_name : str) (segments : list value)
         (global_settings : dict value) (t : trace),
    audio_never_fails env ->
    dict_get_default story_data (lit "segments") (VList []) = VList segments ->
    dict_get_default story_data (lit "settings") (VDict [])
    = VDict global_settings ->
    forallb (narratable global_settings) segments = true ->
    exists files t',
      StoryNarrator.process_war_story self (VDict story_data) story_name t
      = (Ok files, t').
Proof.
  intros env self d name segs g t Henv Hsegs Hg Hall.
  unfold StoryNarrator.process_war_story, Methods.get.
  unfold bind at 1. unfold ret at 1. rewrite Hsegs.
  unfold bind at 1. unfold ret at 1. rewrite Hg.
  unfold bind at 1. unfold ret at 1.
  unfold bind at 1. unfold print at 1, emit at 1.
  unfold Methods.len. unfold bind at 1. unfold ret at 1.
  unfold bind at 1. unfold print at 1, emit at 1.
  unfold Methods.iter. unfold bind at 1. unfold ret at 1.
  unfold bind at 1.
  match goal with
  | |- context [for_enumerate ?b ?s ?l ?gf ?t0] =>
      destruct (process_segments_total _ self g name (length segs) segs s gf
                  t0 Henv Hall) as (files & t1 & ->)
  end.
  unfold bind at 1. unfold ret at 1. unfold bind at 1.
  destruct (truthy_value _ && _).
  - unfold AudioGenerator.concatenate_segments.
    unfold bind at 1. unfold print at 1, emit at 1.
    unfold bind at 1. unfold act at 1.
    destruct Henv as (_ & _ & Hcat). rewrite Hcat.
    unfold print, emit, ret. eauto.
  - unfold ret. eauto.
Qed.

Lemma text_positions_spec (segments : list value) :
  forall start i,
    In i (text_positions start segments)
    <-> exists k segment,
          i = start + k /\ nth_error segments k = Some segment
          /\ has_text segment = true.
Proof.
  induction segments as [|seg rest IH]; intros start i; simpl.
  - split; [tauto|]. intros (k & s & _ & H & _). destruct k; discriminate.
  - assert (R : In i (text_positions (S start) rest)
                <-> exists k segment,
                      i = start + S k /\ nth_error rest k = Some segment
                      /\ has_text segment = true).
    { rewrite IH. split; intros (k & s & -> & H1 & H2); exists k, s;
        repeat split; auto; lia. }
    destruct (has_text seg) eqn:E; simpl; rewrite ?R.
    + split.
      * intros [<-|(k & s & -> & H1 & H2)].
        -- exists 0, seg. repeat split; auto; lia.
        -- exists (S k), s. auto.
      * intros ([|k] & s & -> & H1 & H2).
        -- left. lia.
        -- right. exists k, s. auto.
    + split.
      * intros (k & s & -> & H1 & H2). exists (S k), s. auto.
      * intros ([|k] & s & -> & H1 & H2).
        -- simpl in H1. injection H1 as <-. congruence.
        -- exists k, s. auto.
Qed.

Example format_03d_examples :
  format_03d 1 = lit "001" /\ format_03d 12 = lit "012"
  /\ format_03d 123 = lit "123" /\ format_03d 1000 = lit "1000".
Proof. repeat split; reflexivity. Qed.

(** C5.  In a document whose [segments] is a list:
    - a segment whose text is empty or only whitespace is passed over
      with no effect at all: no file, no error, nothing added to the list
      of paths;
    - when the orchestrator returns, the paths it returns are exactly the
      files it saved, one for each segment that has text, in order, and
      the file of the segment at 0-based position [i] is named
      [{name}_segment_{i+1:03d}.wav]: the position is the one in the
      document, so a skipped segment leaves a gap;
    - the orchestrator does return when the audio back end does not fail
      and the segments are usable. *)
Theorem blank_segments_skipped_numbering_kept :
  forall (env : Env) (self : StoryNarrator.obj env) (story_data : dict value)
         (story_name : str) (segments : list value) (t : trace),
    dict_get_default story_data (lit "segments") (VList []) = VList segments ->
    (forall global_settings count i segment text generated_files t0,
        dict_get_default segment (lit "text") (VStr []) = VStr text ->
        truthy (strip text) = false ->
        StoryNarrator.process_segment self global_settings story_name count
          i (VDict segment) generated_files t0
        = (Ok generated_files, t0))
    /\ (forall files t',
          StoryNarrator.process_war_story self (VDict story_data)
            story_name t = (Ok files, t') ->
          files
          = map (fun i =>
                   path_join env (StoryNarrator.output_dir self)
                     (story_name ++ lit "_segment_" ++ format_03d (i + 1)
                      ++ lit ".wav"))
              (text_positions 0 segments)
          /\ saved_paths t' = saved_paths t ++ files)
    /\ (forall i,
          In i (text_positions 0 segments)
          <-> exists segment,
                nth_error segments i = Some segment
                /\ has_text segment = true)
    /\ (forall global_settings,
          audio_never_fails env ->
          dict_get_default story_data (lit "settings") (VDict [])
          = VDict global_settings ->
          forallb (narratable global_settings) segments = true ->
          exists files t',
            StoryNarrator.process_war_story self (VDict story_data)
              story_name t = (Ok files, t')).
Proof.
  intros env self d name segs t Hsegs. repeat split.
  - intros g count i sd text gf t0 Htext Hblank.
    now apply process_segment_blank with (text := text).
  - now destruct (process_war_story_ok _ self d name segs files t t'
                    Hsegs H).
  - now destruct (process_war_story_ok _ self d name segs files t t'
                    Hsegs H).
  - intros Hin. apply text_positions_spec in Hin.
    destruct Hin as (k & s & -> & H1 & H2). now exists s.
  - intros (s & H1 & H2). apply text_positions_spec. now exists i, s.
  - intros g Henv Hg Hall.
    now apply process_war_story_total with (segments := segs)
                                           (global_settings := g).
Qed.

Lemma quiet_env_never_fails : audio_never_fails quiet_env.
Proof. repeat split. intros. now exists tt. Qed.

Definition quiet_narrator : StoryNarrator.obj quiet_env :=
  StoryNarrator.Build_obj quiet_env (lit "cpu") DEFAULT_OUTPUT_DIR
    quiet_generator.

(** Three segments, the second of which is blank. *)
Definition gap_segments : list value :=
  [ VDict [(lit "text", VStr (lit "One."))];
    VDict [(lit "text", VStr (lit "   "))];
    VDict [(lit "text", VStr (lit "Three."));
           (lit "voice_style", VStr (lit "calm"))] ].

Definition gap_document : dict value :=
  [ (lit "title", VStr (lit "Gap"));
    (lit "settings", VDict [(lit "voice_style", VStr (lit "neutral"))]);
    (lit "segments", VList gap_segments) ].

Lemma blank_segments_skipped_numbering_kept_witness :
  exists t',
    StoryNarrator.process_war_story quiet_narrator (VDict gap_document)
      (lit "story") []
    = (Ok [lit "voice_output/story_segment_001.wav";
           lit "voice_output/story_segment_003.wav"], t')
    /\ saved_paths t' = [lit "voice_output/story_segment_001.wav";
                         lit "voice_output/story_segment_003.wav"].
Proof.
  destruct (blank_segments_skipped_numbering_kept quiet_env quiet_narrator
              gap_document (lit "story") gap_segments [] eq_refl)
    as (_ & Hnames & _ & Htotal).
  destruct (Htotal [(lit "voice_style", VStr (lit "neutral"))]
              quiet_env_never_fails eq_refl eq_refl)
    as (files & t' & Hrun).
  exists t'. destruct (Hnames files t' Hrun) as [Hf Hs].
  rewrite Hrun, Hs, Hf. split; reflexivity.
Defined.

Lemma effective_settings_precedence_witness :
  effective_voice_style
    [(lit "text", VStr (lit "Three."));
     (lit "voice_style", VStr (lit "calm"))]
    [(lit "voice_style", VStr (lit "neutral"))]
  = VStr (lit "calm")
  /\ effective_audio_prompt [(lit "text", VStr (lit "One."))]
       [(lit "voice_style", VStr (lit "neutral"))]
     = VNone.
Proof.
  split.
  - destruct (effective_settings_precedence quiet_env quiet_narrator
                [(lit "voice_style", VStr (lit "neutral"))]
                [(lit "text", VStr (lit "Three."));
                 (lit "voice_style", VStr (lit "calm"))]
                (lit "story") 3 2 (lit "Three.") [] [] eq_refl eq_refl)
      as (_ & Hown & _).
    apply Hown. reflexivity.
  - destruct (effective_settings_precedence quiet_env quiet_narrator
                [(lit "voice_style", VStr (lit "neutral"))]
                [(lit "text", VStr (lit "One."))]
                (lit "story") 3 0 (lit "One.") [] [] eq_refl eq_refl)
      as (_ & _ & _ & _ & _ & _ & Hnone).
    apply Hnone; reflexivity.
Defined.

(** ** Auto-ingestion: the story document *)

(** The style of the segment at 0-based position [i]. *)
Definition resolved_style (pattern : list str) (i : nat) : str :=
  nth (i mod length pattern) pattern [].

(** The stored segment: the trimmed text, and the style only when it is
    not ["neutral"]. *)
Definition stored_segment (pattern : list str) (i : nat) (text : str)
  : value :=
  VDict (if Str.eqb (resolved_style pattern i) (lit "neutral")
         then [(lit "text", VStr (strip text))]
         else [(lit "text", VStr (strip text));
               (lit "voice_style", VStr (resolved_style pattern i))]).

Fixpoint stored_segments (pattern : list str) (i : nat)
    (segments : list str) : list value :=
  match segments with
  | [] => []
  | text :: rest =>
      stored_segment pattern i text :: stored_segments pattern (S i) rest
  end.

Definition has_field (v : value) (k : str) : bool :=
  match v with
  | VDict d => match dict_get d k with Some _ => true | None => false end
  | _ => false
  end.

Lemma stored_segments_nth pattern segments :
  forall i k,
    nth_error (stored_segments pattern i segments) k
    = option_map (stored_segment pattern (i + k)) (nth_error segments k).
Proof.
  induction segments as [|x rest IH]; intros i k; simpl.
  - now destruct k.
  - destruct k; simpl.
    + now rewrite Nat.add_0_r.
    + rewrite IH. now rewrite Nat.add_succ_r.
Qed.

Lemma stored_segments_length pattern segments i :
  length (stored_segments pattern i segments) = length segments.
Proof.
  revert i. induction segments as [|x rest IH]; intros i; simpl;
    [reflexivity|]. now rewrite IH.
Qed.

Lemma cycled_run pattern i t :
  pattern <> [] -> cycled pattern i t = (Ok (resolved_style pattern i), t).
Proof.
  intros H. unfold cycled, resolved_style.
  destruct pattern; [congruence|]. reflexivity.
Qed.

Lemma add_segment_run pattern text story_segments i t :
  pattern <> [] ->
  add_segment pattern text (story_segments, i) t
  = (Ok (story_segments ++ [stored_segment pattern i text], S i), t).
Proof.
  intros H. unfold add_segment, bind. rewrite (cycled_run _ _ _ H).
  unfold stored_segment.
  destruct (Str.eqb (resolved_style pattern i) (lit "neutral"));
    reflexivity.
Qed.

Lemma add_segments_run pattern segments :
  pattern <> [] ->
  forall start story_segments i t,
    for_enumerate (fun _ => add_segment pattern) start segments
      (story_segments, i) t
    = (Ok (story_segments ++ stored_segments pattern i segments,
           i + length segments), t).
Proof.
  intros H. induction segments as [|x rest IH];
    intros start acc i t; cbn [for_enumerate stored_segments length].
  - unfold ret. now rewrite app_nil_r, Nat.add_0_r.
  - unfold bind. cbv beta. rewrite (add_segment_run _ _ _ _ _ H).
    rewrite IH. now rewrite <- app_assoc, Nat.add_succ_r.
Qed.

(** With an empty pattern the first segment already fails. *)
Lemma add_segments_empty_pattern segment rest t :
  for_each (add_segment []) (segment :: rest) ([], 0) t
  = (Raise ZeroDivisionError, t).
Proof. reflexivity. Qed.

(** The document that auto-ingestion builds from the text of the file. *)
Definition pattern_of (kw : kwargs) : list str :=
  match voice_style_pattern kw with
  | None => DEFAULT_VOICE_PATTERN
  | Some p => p
  end.

Definition title_of (env : Env) (text_file_path : str) (kw : kwargs) : str :=
  match title kw with
  | None =>
      str_title env
        (replace (lit "_") (lit " ")
           (replace (lit "-") (lit " ") (path_stem env text_file_path)))
  | Some s => s
  end.

Definition description_of (env : Env) (text_file_path : str) (kw : kwargs)
  : str :=
  match description kw with
  | Some d =>
      if truthy d then d
      else lit "Auto-generated from " ++ path_name env text_file_path
  | None => lit "Auto-generated from " ++ path_name env text_file_path
  end.

(** The global audio prompt is recorded once, in the settings, when one is
    given. *)
Definition settings_of (kw : kwargs) : dict value :=
  match global_audio_prompt kw with
  | Some p =>
      if truthy p
      then [(lit "voice_style", VStr (lit "neutral"));
            (lit "audio_prompt", VStr p)]
      else [(lit "voice_style", VStr (lit "neutral"))]
  | None => [(lit "voice_style", VStr (lit "neutral"))]
  end.

(** The document made of the [segments] that the segmenter gave. *)
Definition built_story (env : Env) (text_file_path : str) (kw : kwargs)
    (segments : list str) : dict value :=
  [ (lit "title", VStr (title_of env text_file_path kw));
    (lit "description", VStr (description_of env text_file_path kw));
    (lit "settings", VDict (settings_of kw));
    (lit "create_full_audio", VBool true);
    (lit "segments", VList (stored_segments (pattern_of kw) 0 segments)) ].

Lemma stored_segments_number_free pattern segments i :
  forallb number_free (stored_segments pattern i segments) = true.
Proof.
  revert i. induction segments as [|x rest IH]; intros i; simpl;
    [reflexivity|].
  rewrite IH, andb_true_r. unfold stored_segment.
  now destruct (Str.eqb (resolved_style pattern i) (lit "neutral")).
Qed.

Lemma built_story_number_free env text_file_path kw segments :
  number_free (VDict (built_story env text_file_path kw segments)) = true.
Proof.
  unfold built_story. cbn [number_free forallb snd].
  rewrite stored_segments_number_free.
  unfold settings_of. destruct (global_audio_prompt kw) as [[|c p]|];
    reflexivity.
Qed.

Lemma setitem2_settings (v_title v_description v_created v_segments v : value)
    (t : trace) :
  setitem2
    [ (lit "title", v_title); (lit "description", v_description);
      (lit "settings", VDict [(lit "voice_style", VStr (lit "neutral"))]);
      (lit "create_full_audio", v_created); (lit "segments", v_segments) ]
    (lit "settings") (lit "audio_prompt") v t
  = (Ok [ (lit "title", v_title); (lit "description", v_description);
          (lit "settings",
           VDict [(lit "voice_style", VStr (lit "neutral"));
                  (lit "audio_prompt", v)]);
          (lit "create_full_audio", v_created);
          (lit "segments", v_segments) ], t).
Proof. reflexivity. Qed.

(** The effects of writing the document, when a path is given. *)
Definition writing (env : Env) (kw : kwargs) (story : dict value)
  : list event :=
  match output_json_path kw with
  | Some p =>
      if truthy p
      then [WriteText (path_str env p) (encode 0 (VDict story));
            Print [FText (128190%N :: lit " Saved JSON to: ");
                   FText (path_str env p)]]
      else []
  | None => []
  end.

Definition reading_line (env : Env) (text_file_path : str) : event :=
  Print [FText (128214%N :: lit " Reading text file: ");
         FText (path_name env text_file_path)].

Definition ingest_lines (env : Env) (text_file_path : str) (kw : kwargs)
    (segments : list str) : list event :=
  [ reading_line env text_file_path;
    Print [FText ([9986; 65039]%N
                  ++ lit "  Splitting text into segments (target length: ");
           FValue (VInt (target_segment_length kw));
           FText (lit " chars)")];
    Print [FText (9989%N :: lit " Generated ");
           FValue (VInt (Z.of_nat (length segments)));
           FText (lit " segments from text")] ].

(** When auto-ingestion returns, the segmenter has returned, and the
    result is the document built from the segments of the text that was
    read; the document has been written if a path was given. *)
Lemma auto_ingest_ok :
  forall (env : Env) (text_file_path : str) (kw : kwargs) (t t' : trace)
         (story_data : value),
    auto_ingest_text_file env text_file_path kw t = (Ok story_data, t') ->
    exists text_content segments,
      read_text env (t ++ [reading_line env text_file_path]) text_file_path
      = Ok text_content
      /\ intelligent_text_splitting text_content (target_segment_length kw)
         = Ok segments
      /\ story_data = VDict (built_story env text_file_path kw segments)
      /\ t' = t ++ ingest_lines env text_file_path kw segments
                ++ writing env kw
                     (built_story env text_file_path kw segments).
Proof.
  intros env path kw t t' doc H.
  unfold auto_ingest_text_file in H.
  unfold bind at 1 in H. unfold ask at 1 in H.
  destruct (path_exists env t path); [|discriminate H]. cbn [negb] in H.
  unfold bind at 1 in H. unfold print at 1, emit at 1 in H.
  unfold bind at 1 in H.
  fold (reading_line env path) in H.
  destruct (read_text env (t ++ [reading_line env path]) path)
    as [text|e] eqn:Eread; [|discriminate H].
  exists text.
  unfold bind at 1 in H. unfold print at 1, emit at 1 in H.
  unfold bind at 1 in H. unfold lift at 1 in H.
  destruct (intelligent_text_splitting text (target_segment_length kw))
    as [segments|e] eqn:Esplit; [|discriminate H].
  exists segments. split; [reflexivity|]. split; [reflexivity|].
  unfold bind at 1 in H. unfold for_each in H.
  fold (pattern_of kw) in H.
  fold (title_of env path kw) in H. fold (description_of env path kw) in H.
  match type of H with
  | context [for_enumerate ?b 0 ?l ?s ?t0] =>
      assert (Hloop :
                for_enumerate b 0 l s t0
                = (Ok (stored_segments (pattern_of kw) 0 l, length l), t0)
                \/ exists e, for_enumerate b 0 l s t0 = (Raise e, t0))
  end.
  { destruct (pattern_of kw) as [|p0 pattern] eqn:Epat.
    - destruct segments; [left; reflexivity|right; eexists; reflexivity].
    - left. rewrite (add_segments_run (p0 :: pattern) segments)
        by discriminate.
      reflexivity. }
  destruct Hloop as [Hloop|[e Hloop]]; rewrite Hloop in H;
    [|discriminate H].
  cbn [fst] in H. rewrite stored_segments_length in H.
  unfold bind at 1 in H.
  match type of H with
  | context [match global_audio_prompt kw with
             | Some p => @?f p
             | None => ?g
             end ?t0] =>
      assert (Hset : match global_audio_prompt kw with
                     | Some p => f p
                     | None => g
                     end t0
                     = (Ok (built_story env path kw segments), t0))
  end.
  { unfold built_story, settings_of.
    destruct (global_audio_prompt kw) as [p|]; [|reflexivity].
    destruct (truthy p); [|reflexivity]. apply setitem2_settings. }
  rewrite Hset in H. clear Hset.
  unfold bind at 1 in H. unfold print at 1, emit at 1 in H.
  unfold bind at 1 in H. unfold ingest_lines, writing.
  destruct (output_json_path kw) as [p|].
  - destruct (truthy p).
    + unfold dumps in H. rewrite built_story_number_free in H.
      remember (encode 0 (VDict (built_story env path kw segments))) as txt.
      unfold bind at 1 in H. unfold ret at 1 in H.
      unfold bind at 1 in H. unfold act at 1 in H.
      destruct (write_text env _ (path_str env p) _); [|discriminate H].
      unfold print, emit, ret in H. injection H as <- <-.
      split; [reflexivity|]. now rewrite <- !app_assoc.
    + unfold ret in H. injection H as <- <-.
      split; [reflexivity|]. now rewrite <- !app_assoc.
  - unfold ret in H. injection H as <- <-.
    split; [reflexivity|]. now rewrite <- !app_assoc.
Qed.

(** Auto-ingestion does return: the file exists and can be read, the
    segmenter returns, the pattern is not empty, and writing does not
    fail. *)
Lemma auto_ingest_total :
  forall (env : Env) (text_file_path : str) (kw : kwargs) (t : trace)
         (text_content : str) (segments : list str),
    path_exists env t text_file_path = true ->
    read_text env (t ++ [reading_line env text_file_path]) text_file_path
    = Ok text_content ->
    intelligent_text_splitting text_content (target_segment_length kw)
    = Ok segments ->
    pattern_of kw <> [] ->
    (forall t0 p x, write_text env t0 p x = Ok tt) ->
    auto_ingest_text_file env text_file_path kw t
    = (Ok (VDict (built_story env text_file_path kw segments)),
       t ++ ingest_lines env text_file_path kw segments
         ++ writing env kw (built_story env text_file_path kw segments)).
Proof.
  intros env path kw t text segments Hex Hread Hsplit Hpat Hwrite.
  unfold auto_ingest_text_file.
  unfold bind at 1. unfold ask at 1. rewrite Hex. cbn [negb].
  unfold bind at 1. unfold print at 1, emit at 1.
  unfold bind at 1. fold (reading_line env path). rewrite Hread.
  unfold bind at 1. unfold print at 1, emit at 1.
  unfold bind at 1. unfold lift at 1. rewrite Hsplit.
  unfold bind at 1. unfold for_each.
  fold (pattern_of kw).
  fold (title_of env path kw). fold (description_of env path kw).
  rewrite (add_segments_run (pattern_of kw) segments Hpat).
  cbn [fst app]. rewrite stored_segments_length.
  unfold bind at 1.
  match goal with
  | |- context [match global_audio_prompt kw with
                | Some p => @?f p
                | None => ?g
                end ?t0] =>
      assert (Hset : match global_audio_prompt kw with
                     | Some p => f p
                     | None => g
                     end t0
                     = (Ok (built_story env path kw segments), t0))
  end.
  { unfold built_story, settings_of.
    destruct (global_audio_prompt kw) as [p|]; [|reflexivity].
    destruct (truthy p); [|reflexivity]. apply setitem2_settings. }
  rewrite Hset. clear Hset.
  unfold bind at 1. unfold print at 1, emit at 1.
  unfold bind at 1. unfold ingest_lines, writing.
  destruct (output_json_path kw) as [p|].
  - destruct (truthy p).
    + unfold dumps. rewrite built_story_number_free.
      remember (encode 0 (VDict (built_story env path kw segments))) as txt.
      unfold bind at 1. unfold ret at 1.
      unfold bind at 1. unfold act at 1. rewrite Hwrite.
      unfold print, emit, ret. now rewrite <- !app_assoc.
    + unfold ret. now rewrite <- !app_assoc.
  - unfold ret. now rewrite <- !app_assoc.
Qed.

(** C4.  With a non-empty pattern, the loop of auto-ingestion stores, for
    the segment at 0-based position [i], the trimmed text and the style
    [pattern[i mod len(pattern)]], and it stores the [voice_style] field
    exactly when that style is not ["neutral"]; the document that
    [auto_ingest_text_file] returns has these as its segments
    ([pattern_of] is the pattern given, or the default one).  For the
    pattern [neutral, calm, neutral] and five segments, the styles are
    neutral, calm, neutral, neutral, calm, and only the segments at
    positions 1 and 4 carry the field. *)
Theorem voice_style_cycles_by_index :
  forall (pattern : list str),
    pattern <> [] ->
    (forall (segments : list str) (t : trace),
        for_each (add_segment pattern) segments ([], 0) t
        = (Ok (stored_segments pattern 0 segments, length segments), t))
    /\ (forall (segments : list str) (i : nat) (text : str),
          nth_error segments i = Some text ->
          nth_error (stored_segments pattern 0 segments) i
          = Some (stored_segment pattern i text)
          /\ resolved_style pattern i
             = nth (i mod length pattern) pattern []
          /\ Methods.get (stored_segment pattern i text) (lit "voice_style")
               (VStr (lit "neutral")) []
             = (Ok (VStr (resolved_style pattern i)), [])
          /\ has_field (stored_segment pattern i text) (lit "voice_style")
             = negb (Str.eqb (resolved_style pattern i) (lit "neutral")))
    /\ (forall (env : Env) (text_file_path : str) (kw : kwargs)
               (t t' : trace) (story_data : value),
          pattern_of kw = pattern ->
          auto_ingest_text_file env text_file_path kw t
          = (Ok story_data, t') ->
          exists text_content segments,
            read_text env (t ++ [reading_line env text_file_path])
              text_file_path = Ok text_content
            /\ intelligent_text_splitting text_content
                 (target_segment_length kw) = Ok segments
            /\ Methods.get story_data (lit "segments") VNone []
               = (Ok (VList (stored_segments pattern 0 segments)), []))
    /\ (forall s0 s1 s2 s3 s4 : str,
          map (resolved_style DEFAULT_VOICE_PATTERN) [0; 1; 2; 3; 4]
          = [lit "neutral"; lit "calm"; lit "neutral"; lit "neutral";
             lit "calm"]
          /\ map (fun v => has_field v (lit "voice_style"))
               (stored_segments DEFAULT_VOICE_PATTERN 0 [s0; s1; s2; s3; s4])
             = [false; true; false; false; true]).
Proof.
  intros pattern Hne. repeat split.
  - intros segments t. unfold for_each.
    now rewrite (add_segments_run pattern segments Hne).
  - rewrite stored_segments_nth, H. reflexivity.
  - unfold stored_segment, Methods.get, dict_get_default, ret.
    destruct (Str.eqb (resolved_style pattern i) (lit "neutral")) eqn:E.
    + apply eqb_eq in E. rewrite E. reflexivity.
    + reflexivity.
  - unfold stored_segment, has_field.
    now destruct (Str.eqb (resolved_style pattern i) (lit "neutral")).
  - intros env path kw t t' doc Hkw H.
    apply auto_ingest_ok in H.
    destruct H as (text & segments & Hread & Hsplit & -> & _).
    exists text, segments. split; [exact Hread|]. split; [exact Hsplit|].
    unfold built_story. rewrite Hkw. reflexivity.
Qed.

Lemma voice_style_cycles_by_index_witness :
  for_each (add_segment DEFAULT_VOICE_PATTERN)
    [lit "a"; lit "b"; lit "c"; lit "d"; lit "e"] ([], 0) []
  = (Ok ([ VDict [(lit "text", VStr (lit "a"))];
           VDict [(lit "text", VStr (lit "b"));
                  (lit "voice_style", VStr (lit "calm"))];
           VDict [(lit "text", VStr (lit "c"))];
           VDict [(lit "text", VStr (lit "d"))];
           VDict [(lit "text", VStr (lit "e"));
                  (lit "voice_style", VStr (lit "calm"))] ], 5), []).
Proof.
  assert (Hne : DEFAULT_VOICE_PATTERN <> []) by discriminate.
  destruct (voice_style_cycles_by_index DEFAULT_VOICE_PATTERN Hne)
    as (Hloop & _).
  rewrite Hloop. reflexivity.
Defined.

(** ** Runs only append to the trace *)

Module Appends.

(** [adds P m]: a run of [m] appends events to the trace, and all of them
    satisfy [P]. *)
Definition adds {A} (P : event -> Prop) (m : M A) : Prop :=
  forall t o t', m t = (o, t') -> exists d, t' = t ++ d /\ Forall P d.

Definition appends {A} (m : M A) : Prop := adds (fun _ => True) m.

Lemma appends_extends {A} (m : M A) t o t' :
  appends m -> m t = (o, t') -> extends t t'.
Proof. intros H E. destruct (H t o t' E) as (d & -> & _). now exists d. Qed.

Section Rules.

Variable P : event -> Prop.

Lemma adds_nothing {A} (m : M A) :
  (forall t, snd (m t) = t) -> adds P m.
Proof.
  intros H t o t' E. exists []. rewrite app_nil_r.
  specialize (H t). rewrite E in H. simpl in H. now subst.
Qed.

Lemma adds_ret {A} (a : A) : adds P (ret a).
Proof. now apply adds_nothing. Qed.

Lemma adds_raise {A} (e : exn) : adds P (@raise A e).
Proof. now apply adds_nothing. Qed.

Lemma adds_lift {A} (o : outcome A) : adds P (lift o).
Proof. now apply adds_nothing. Qed.

Lemma adds_query {A} (f : trace -> outcome A) : adds P (fun t => (f t, t)).
Proof. now apply adds_nothing. Qed.

Lemma adds_ask {A} (f : trace -> A) : adds P (ask f).
Proof. now apply adds_nothing. Qed.

Lemma adds_emit e : P e -> adds P (emit e).
Proof. intros H t o t' [= <- <-]. exists [e]. now repeat constructor. Qed.

Lemma adds_print l : P (Print l) -> adds P (print l).
Proof. apply adds_emit. Qed.

Lemma adds_act {A} e (f : trace -> outcome A) : P e -> adds P (act e f).
Proof. intros H t o t' [= <- <-]. exists [e]. now repeat constructor. Qed.

Lemma adds_bind {A B} (m : M A) (k : A -> M B) :
  adds P m -> (forall a, adds P (k a)) -> adds P (bind m k).
Proof.
  intros Hm Hk t o t' H. unfold bind in H.
  destruct (m t) as [[a|e] t1] eqn:E.
  - apply Hm in E. destruct E as (d1 & -> & H1).
    apply Hk in H. destruct H as (d2 & -> & H2).
    exists (d1 ++ d2). split; [now rewrite app_assoc|].
    now apply Forall_app.
  - injection H as <- <-. now apply Hm in E.
Qed.

Lemma adds_try_except {A} (m : M A) (h : exn -> M A) :
  adds P m -> (forall e, adds P (h e)) -> adds P (try_except m h).
Proof.
  intros Hm Hh t o t' H. unfold try_except in H.
  destruct (m t) as [[a|e] t1] eqn:E.
  - injection H as <- <-. now apply Hm in E.
  - apply Hm in E. destruct E as (d1 & -> & H1).
    apply Hh in H. destruct H as (d2 & -> & H2).
    exists (d1 ++ d2). split; [now rewrite app_assoc|].
    now apply Forall_app.
Qed.

Lemma adds_for_enumerate {A St} (Q : A -> Prop)
    (body : nat -> A -> St -> M St) l :
  (forall i x s, Q x -> adds P (body i x s)) ->
  Forall Q l ->
  forall start s, adds P (for_enumerate body start l s).
Proof.
  intros Hb Hl. induction Hl as [|x l Hx _ IH]; intros start s; simpl.
  - apply adds_ret.
  - apply adds_bind; [now apply Hb|]. intros a. apply IH.
Qed.

(** Two runs that agree at every trace add the same events. *)
Lemma adds_pointwise {A} (m m' : M A) :
  (forall t, m t = m' t) -> adds P m' -> adds P m.
Proof. intros E H t o t' Hm. rewrite E in Hm. now apply H in Hm. Qed.

End Rules.

Create HintDb appends.

#[local] Hint Resolve adds_ret adds_raise adds_lift adds_query adds_ask
  : appends.
#[local] Hint Extern 1 (adds _ (emit _)) => apply adds_emit; exact I : appends.
#[local] Hint Extern 1 (adds _ (print _)) => apply adds_print; exact I
  : appends.
#[local] Hint Extern 1 (adds _ (act _ _)) => apply adds_act; exact I : appends.

(** Take a run apart along its binds, branches and loops. *)
Ltac appends_step :=
  first
    [ solve [auto with appends]
    | apply adds_bind; [|intros ?]
    | apply adds_try_except; [|intros ?]
    | apply (adds_for_enumerate _ (fun _ => True));
      [intros ? ? ? _|apply Forall_forall; intros; exact I]
    | match goal with
      | |- adds _ (if ?b then _ else _) => destruct b
      | |- adds _ (match ?x with _ => _ end) => destruct x
      end ].

Ltac appends_auto := unfold appends; repeat appends_step.

(** No synthesis request in the events added carries an audio prompt. *)
Definition unprompted (e : event) : Prop :=
  match e with
  | Generate _ (Some _) _ => False
  | _ => True
  end.

Section Methods.

Variable P : event -> Prop.

Lemma adds_get v k d : adds P (Methods.get v k d).
Proof. unfold Methods.get. appends_auto. Qed.

Lemma adds_strip v : adds P (Methods.strip v).
Proof. unfold Methods.strip. appends_auto. Qed.

Lemma adds_len v : adds P (Methods.len v).
Proof. unfold Methods.len. appends_auto. Qed.

Lemma adds_iter v : adds P (Methods.iter v).
Proof. unfold Methods.iter. appends_auto. Qed.

Lemma adds_lookup {V} (d : dict V) k v : adds P (Methods.lookup d k v).
Proof. unfold Methods.lookup. appends_auto. Qed.

End Methods.

#[local] Hint Resolve adds_get adds_strip adds_len adds_iter adds_lookup
  : appends.

Section WithEnv.

Variable env : Env.

Lemma appends_generate_segment_audio (self : AudioGenerator.obj env) text
    vs ap cp :
  adds (fun _ => True) (AudioGenerator.generate_segment_audio self text vs ap cp).
Proof.
  unfold AudioGenerator.generate_segment_audio, AudioGenerator.getitem.
  appends_auto.
Qed.

Lemma adds_save_audio P (self : AudioGenerator.obj env) w p :
  P (SaveAudio p) -> adds P (AudioGenerator.save_audio self w p).
Proof. intros H. unfold AudioGenerator.save_audio. now apply adds_act. Qed.

Lemma adds_concatenate_segments P (self : AudioGenerator.obj env) fs p d :
  (forall l, P (Print l)) -> P (Concatenate fs p) ->
  adds P (AudioGenerator.concatenate_segments self fs p d).
Proof.
  intros Hp Hc. unfold AudioGenerator.concatenate_segments.
  apply adds_bind; [now apply adds_print|]. intros _.
  apply adds_bind; [now apply adds_act|]. intros _.
  now apply adds_print.
Qed.

Hint Resolve appends_generate_segment_audio : appends.
Hint Extern 1 (adds _ (AudioGenerator.save_audio _ _ _)) =>
  apply adds_save_audio; exact I : appends.
Hint Extern 1 (adds _ (AudioGenerator.concatenate_segments _ _ _ _)) =>
  apply adds_concatenate_segments; [intros; exact I|exact I] : appends.

Lemma appends_process_segment (self : StoryNarrator.obj env) g name count i
    seg gf :
  adds (fun _ => True) (StoryNarrator.process_segment self g name count i seg gf).
Proof.
  unfold StoryNarrator.process_segment,
    StoryNarrator.generate_segment_audio.
  appends_auto.
Qed.

Hint Resolve appends_process_segment : appends.

Lemma appends_process_war_story (self : StoryNarrator.obj env) doc name :
  adds (fun _ => True) (StoryNarrator.process_war_story self doc name).
Proof. unfold StoryNarrator.process_war_story. appends_auto. Qed.

Lemma adds_load_story_from_json P path :
  adds P (TextProcessor.load_story_from_json env path).
Proof. unfold TextProcessor.load_story_from_json. appends_auto. Qed.

Hint Resolve appends_process_war_story adds_load_story_from_json : appends.

Lemma appends_process_story_from_file (self : StoryNarrator.obj env) path :
  adds (fun _ => True) (StoryNarrator.process_story_from_file self path).
Proof.
  unfold StoryNarrator.process_story_from_file,
    StoryNarrator.load_story_from_json.
  appends_auto.
Qed.

End WithEnv.

End Appends.

(** ** Batch processing *)

Module BatchFacts.

Section WithEnv.

Variable env : Env.
Variable self : StoryNarrator.obj env.

Definition banner (json_file : str) : list event :=
  [ Print [FText (NL :: StoryNarrator.rule)];
    Print [FText (lit "Processing: "); FText (path_name env json_file)];
    Print [FText StoryNarrator.rule] ].

Definition success_line (json_file : str) : event :=
  Print [FText (9989%N :: lit " Successfully processed ");
         FText (path_name env json_file)].

Definition error_line (json_file : str) (e : exn) : event :=
  Print [FText (10060%N :: lit " Error processing ");
         FText (path_name env json_file); FText (lit ": "); FExn e].

(** The list recorded for a document: its files, or the empty list when
    its processing raised. *)
Definition recorded (o : outcome (list str)) : list str :=
  match o with Ok files => files | Raise _ => [] end.

Definition closing_line (json_file : str) (o : outcome (list str)) : event :=
  match o with
  | Ok _ => success_line json_file
  | Raise e => error_line json_file e
  end.

Definition stems (json_files : list str) : list str :=
  map (path_stem env) json_files.

(** What the loop has done for one document, between the traces [t] and
    [t']: at some point [t0] it printed the banner of the document and
    processed it, with outcome [o] and trace [t1]; it then printed the
    closing line for [o]; and the name of the document maps to the list
    recorded for [o]. *)
Definition handled (t t' : trace) (results : dict (list str))
    (json_file : str) : Prop :=
  exists t0 o t1,
    extends t t0
    /\ StoryNarrator.process_story_from_file self json_file
         (t0 ++ banner json_file) = (o, t1)
    /\ extends (t1 ++ [closing_line json_file o]) t'
    /\ dict_get results (path_stem env json_file) = Some (recorded o).

(** One turn of the batch loop never raises: whatever the processing of
    the document does, its name gets an entry and a line is printed. *)
Lemma process_json_file_run (json_file : str) (results : dict (list str))
    (t t1 : trace) (o : outcome (list str)) :
  StoryNarrator.process_story_from_file self json_file
    (t ++ banner json_file) = (o, t1) ->
  StoryNarrator.process_json_file self json_file results t
  = (Ok (dict_set results (path_stem env json_file) (recorded o)),
     t1 ++ [closing_line json_file o]).
Proof.
  intros H. unfold StoryNarrator.process_json_file.
  unfold bind at 1. unfold print at 1, emit at 1.
  unfold bind at 1. unfold print at 1, emit at 1.
  unfold bind at 1. unfold print at 1, emit at 1.
  unfold try_except. unfold bind at 1.
  replace (((t ++ [Print [FText (NL :: StoryNarrator.rule)]])
            ++ [Print [FText (lit "Processing: ");
                       FText (path_name env json_file)]])
           ++ [Print [FText StoryNarrator.rule]])
    with (t ++ banner json_file)
    by (unfold banner; now rewrite <- !app_assoc).
  rewrite H. destruct o as [files|e]; reflexivity.
Qed.

Lemma batch_loop (json_files : list str) :
  forall (start : nat) (results : dict (list str)) (t : trace),
  exists results' t',
    for_enumerate (fun _ => StoryNarrator.process_json_file self) start
      json_files results t = (Ok results', t')
    /\ extends t t'
    /\ (forall k, In k (keys results')
                  <-> In k (keys results) \/ In k (stems json_files))
    /\ (forall k, ~ In k (stems json_files) ->
                  dict_get results' k = dict_get results k)
    /\ (NoDup (stems json_files) ->
        forall f, In f json_files -> handled t t' results' f).
Proof.
  induction json_files as [|f rest IH]; intros start results t.
  - exists results, t. simpl. unfold ret.
    repeat split; auto using extends_refl; try tauto.
  - cbn [for_enumerate]. unfold bind. cbv beta.
    destruct (StoryNarrator.process_story_from_file self f (t ++ banner f))
      as [o t1] eqn:Ef.
    rewrite (process_json_file_run f results t t1 o Ef).
    destruct (IH (S start)
                (dict_set results (path_stem env f) (recorded o))
                (t1 ++ [closing_line f o]))
      as (results' & t' & Hrun & Hext & Hkeys & Hkeep & Hdone).
    exists results', t'. split; [exact Hrun|].
    assert (Hext1 : extends t (t1 ++ [closing_line f o])).
    { apply extends_trans with (t ++ banner f); [now exists (banner f)|].
      apply extends_trans with t1; [|apply extends_snoc].
      exact (Appends.appends_extends _ _ _ _
               (Appends.appends_process_story_from_file env self f) Ef). }
    split; [now apply extends_trans with (t1 ++ [closing_line f o])|].
    split; [|split].
    + intros k. rewrite Hkeys, keys_dict_set. simpl. intuition.
    + intros k Hk. simpl in Hk. rewrite Hkeep by tauto.
      apply dict_get_set_other. intros E. apply Hk. now left.
    + intros Hnd g [<-|Hg].
      * simpl in Hnd. apply NoDup_cons_iff in Hnd as [Hnotin _].
        exists t, o, t1. split; [apply extends_refl|].
        split; [exact Ef|]. split; [exact Hext|].
        rewrite Hkeep by exact Hnotin. apply dict_get_set_same.
      * simpl in Hnd. apply NoDup_cons_iff in Hnd as [_ Hnd].
        destruct (Hdone Hnd g Hg) as (t0 & o0 & t2 & He0 & Hp & He1 & Hget).
        exists t0, o0, t2. split; [|split; [|split]]; try assumption.
        now apply extends_trans with (t1 ++ [closing_line f o]).
Qed.

End WithEnv.

End BatchFacts.

Import BatchFacts.

(** C6.  Given the JSON files that the directory holds, batch processing
    never raises.  Each turn of its loop catches whatever the processing
    of the document raises, prints the error line with the name of the
    document and records the empty list under the document's name;
    otherwise it records the files.  The mapping returned has an entry
    for the name of every file found and no other entry.  When the names
    are pairwise different, every document has been processed at some
    point of the run, whatever happened to the others, and its entry is
    the list recorded for its own outcome. *)
Theorem batch_isolates_failures :
  forall (env : Env) (self : StoryNarrator.obj env) (json_directory : str)
         (json_files : list str) (t : trace),
    glob_json env t json_directory = Ok json_files ->
    (forall json_file results t0 t1 e,
        StoryNarrator.process_story_from_file self json_file
          (t0 ++ banner env json_file) = (Raise e, t1) ->
        StoryNarrator.process_json_file self json_file results t0
        = (Ok (dict_set results (path_stem env json_file) []),
           t1 ++ [Print [FText (10060%N :: lit " Error processing ");
                         FText (path_name env json_file); FText (lit ": ");
                         FExn e]]))
    /\ exists results t',
         StoryNarrator.batch_process_stories self json_directory t
         = (Ok results, t')
         /\ (forall f, In f json_files ->
                       exists files,
                         dict_get results (path_stem env f) = Some files)
         /\ (forall k, In k (keys results) -> In k (stems env json_files))
         /\ (NoDup (stems env json_files) ->
             forall f, In f json_files -> handled env self t t' results f).
Proof.
  intros env self dir files t Hglob. split.
  - intros f results t0 t1 e H.
    now rewrite (process_json_file_run env self f results t0 t1 _ H).
  - unfold StoryNarrator.batch_process_stories.
    unfold bind at 1. rewrite Hglob.
    destruct files as [|f0 rest].
    + unfold bind, print, emit, ret. eexists _, _. split; [reflexivity|].
      repeat split; try (intros ? []); now intros.
    + unfold bind at 1. unfold print at 1, emit at 1. unfold for_each.
      match goal with
      | |- context [for_enumerate _ 0 ?l ?r ?t0] =>
          destruct (batch_loop env self l 0 r t0)
            as (results & t' & Hrun & Hext & Hkeys & Hkeep & Hdone)
      end.
      exists results, t'. split; [exact Hrun|]. split; [|split].
      * intros f Hf.
        assert (Hk : In (path_stem env f) (keys results)).
        { apply Hkeys. right. unfold stems. now apply in_map. }
        destruct (dict_get results (path_stem env f)) eqn:E; [eauto|].
        now apply dict_get_none_keys in E.
      * intros k Hk. apply Hkeys in Hk. destruct Hk as [[]|Hk]. exact Hk.
      * intros Hnd f Hf. destruct (Hdone Hnd f Hf)
          as (t0 & o & t1 & He0 & Hp & He1 & Hget).
        exists t0, o, t1. split; [|split; [|split]]; try assumption.
        eapply extends_trans; [|exact He0]. apply extends_snoc.
Qed.

(** A directory of three documents, the second of which is not JSON. *)
Definition one_segment_story : value :=
  VDict [(lit "segments", VList [VDict [(lit "text", VStr (lit "Hi."))]])].

Definition three_documents_env : Env :=
  {| wav := unit; model := unit;
     path_str := fun p => p;
     path_name := fun p => p;
     path_stem := fun p => firstn (length p - 5) p;
     path_join := fun d f => d ++ lit "/" ++ f;
     str_title := fun s => s;
     path_exists := fun _ _ => true;
     read_text := fun _ p =>
                    if Str.eqb p (lit "b.json") then Ok (lit "not json")
                    else Ok (encode 0 one_segment_story);
     write_text := fun _ _ _ => Ok tt;
     mkdir := fun _ _ => Ok tt;
     glob_json := fun _ _ => Ok [lit "a.json"; lit "b.json"; lit "c.json"];
     json_dumps_other := fun _ => Raise TypeError;
     json_loads_other := fun _ => Raise (OtherError (lit "JSONDecodeError"));
     from_pretrained := fun _ _ => Ok tt;
     generate := fun _ _ _ _ _ => Ok tt;
     save := fun _ _ _ _ => Ok tt;
     concatenate := fun _ _ _ _ _ => Ok tt |}.

Definition three_documents_narrator : StoryNarrator.obj three_documents_env :=
  StoryNarrator.Build_obj three_documents_env (lit "cpu") DEFAULT_OUTPUT_DIR
    (AudioGenerator.Build_obj three_documents_env (lit "cpu") tt).

Lemma batch_isolates_failures_witness :
  exists results t',
    StoryNarrator.batch_process_stories three_documents_narrator
      (lit "stories") [] = (Ok results, t')
    /\ results = [ (lit "a", [lit "voice_output/a_segment_001.wav"]);
                   (lit "b", []);
                   (lit "c", [lit "voice_output/c_segment_001.wav"]) ]
    /\ In (error_line three_documents_env (lit "b.json")
             (OtherError (lit "JSONDecodeError"))) t'.
Proof.
  destruct (batch_isolates_failures three_documents_env
              three_documents_narrator (lit "stories")
              [lit "a.json"; lit "b.json"; lit "c.json"] [] eq_refl)
    as (_ & results & t' & Hrun & _).
  exists results, t'. split; [exact Hrun|].
  vm_compute in Hrun. injection Hrun as <- <-.
  split; [reflexivity|]. vm_compute. tauto.
Defined.

(** ** A missing audio prompt *)

Module PromptFacts.

Import Appends.

Lemma adds_bind_ret {A B} P (v : A) (k : A -> M B) :
  adds P (k v) -> adds P (bind (ret v) k).
Proof. intros H t o t' E. exact (H t o t' E). Qed.

Lemma adds_bind_when {A B} P (m : M A) (k : A -> M B) :
  adds P m ->
  (forall t a t', m t = (Ok a, t') -> adds P (k a)) ->
  adds P (bind m k).
Proof.
  intros Hm Hk t o t' H. unfold bind in H.
  destruct (m t) as [[a|e] t1] eqn:E.
  - pose proof (Hk _ _ _ E) as Hka.
    apply Hm in E. destruct E as (d1 & -> & H1).
    apply Hka in H. destruct H as (d2 & -> & H2).
    exists (d1 ++ d2). split; [now rewrite app_assoc|].
    now apply Forall_app.
  - injection H as <- <-. now apply Hm in E.
Qed.

Lemma bind_ext {A B} (m : M A) (k k' : A -> M B) t :
  (forall a t', k a t' = k' a t') -> bind m k t = bind m k' t.
Proof.
  intros H. unfold bind. destruct (m t) as [[a|e] t1]; [apply H|reflexivity].
Qed.

(** A segment whose effective audio prompt is not a true value. *)
Definition no_prompt (global_settings : dict value) (segment : value)
  : Prop :=
  match segment with
  | VDict sd =>
      truthy_value (effective_audio_prompt sd global_settings) = false
  | _ => True
  end.

Section WithEnv.

Variable env : Env.

Lemma generate_segment_audio_unprompted (self : AudioGenerator.obj env)
    text vs ap cp :
  truthy_value ap = false ->
  adds unprompted (AudioGenerator.generate_segment_audio self text vs ap cp).
Proof.
  intros Hap t o t' E. apply generate_segment_audio_trace in E.
  destruct E as [[-> _]|(params & -> & _)].
  - exists []. now rewrite app_nil_r.
  - eexists. split; [reflexivity|].
    unfold prompt_argument. rewrite Hap. now repeat constructor.
Qed.

Lemma narrate_segment_unprompted (self : StoryNarrator.obj env) g sd name
    count i text gf :
  truthy_value (effective_audio_prompt sd g) = false ->
  adds unprompted (narrate_segment self g sd name count i text gf).
Proof.
  intros H. unfold narrate_segment.
  apply adds_bind; [now apply adds_print|]. intros _.
  apply adds_bind;
    [now apply generate_segment_audio_unprompted|]. intros w.
  apply adds_bind; [now apply adds_save_audio|]. intros _.
  apply adds_bind; [now apply adds_print|]. intros _.
  apply adds_ret.
Qed.

Lemma process_segment_unprompted (self : StoryNarrator.obj env) g name count
    i seg gf :
  no_prompt g seg ->
  adds unprompted
    (StoryNarrator.process_segment self (VDict g) name count i seg gf).
Proof.
  intros H.
  destruct seg as [| | | | |l|sd];
    try (apply adds_nothing; intros t; reflexivity).
  destruct (dict_get_default sd (lit "text") (VStr [])) as [| | | |text| |]
    eqn:Htext;
    try (apply adds_nothing; intros t;
         unfold StoryNarrator.process_segment, Methods.get, Methods.strip;
         unfold bind at 1; unfold ret at 1; rewrite Htext; reflexivity).
  destruct (truthy (strip text)) eqn:Hns.
  - apply adds_pointwise
      with (m' := narrate_segment self g sd name count i text gf).
    + intros t. now apply process_segment_with_text.
    + now apply narrate_segment_unprompted.
  - apply adds_nothing. intros t.
    now rewrite (process_segment_blank _ _ _ _ _ _ _ _ _ _ Htext Hns).
Qed.

Lemma process_war_story_unprompted (self : StoryNarrator.obj env)
    (story_data : dict value) (story_name : str) (segments : list value)
    (global_settings : dict value) :
  dict_get_default story_data (lit "segments") (VList []) = VList segments ->
  dict_get_default story_data (lit "settings") (VDict [])
  = VDict global_settings ->
  Forall (no_prompt global_settings) segments ->
  adds unprompted
    (StoryNarrator.process_war_story self (VDict story_data) story_name).
Proof.
  intros Hsegs Hg Hall.
  unfold StoryNarrator.process_war_story, Methods.get.
  apply adds_bind_ret. rewrite Hsegs.
  apply adds_bind_ret. rewrite Hg.
  apply adds_bind_ret.
  apply adds_bind; [now apply adds_print|]. intros _.
  unfold Methods.len. apply adds_bind_ret.
  apply adds_bind; [now apply adds_print|]. intros _.
  unfold Methods.iter. apply adds_bind_ret.
  apply adds_bind.
  - apply (adds_for_enumerate _ (no_prompt global_settings));
      [|exact Hall].
    intros i x s Hx. now apply process_segment_unprompted.
  - intros files. apply adds_bind_ret.
    apply adds_bind; [|intros _; apply adds_ret].
    destruct (truthy_value _ && _); [|apply adds_ret].
    apply adds_concatenate_segments; [intros; exact I|exact I].
Qed.

Lemma adds_auto_ingest_text_file P path kw :
  (forall l, P (Print l)) -> (forall p x, P (WriteText p x)) ->
  adds P (auto_ingest_text_file env path kw).
Proof.
  intros Hp Hw. unfold auto_ingest_text_file.
  apply adds_bind; [apply adds_ask|]. intros found.
  destruct (negb found); [apply adds_raise|].
  apply adds_bind; [now apply adds_print|]. intros _.
  apply adds_bind; [apply adds_query|]. intros text.
  apply adds_bind; [now apply adds_print|]. intros _.
  apply adds_bind; [apply adds_lift|]. intros segments.
  apply adds_bind.
  { unfold for_each. apply (adds_for_enumerate _ (fun _ => True));
      [|apply Forall_forall; intros; exact I].
    intros i x [segs n] _. unfold add_segment, cycled.
    apply adds_bind; [|intros; apply adds_ret].
    destruct (length _); [apply adds_raise|apply adds_ret]. }
  intros st. apply adds_bind.
  { destruct (global_audio_prompt kw) as [p|]; [|apply adds_ret].
    destruct (truthy p); [|apply adds_ret].
    unfold setitem2. destruct (dict_get _ _) as [[]|];
      try apply adds_raise; apply adds_ret. }
  intros story. apply adds_bind; [now apply adds_print|]. intros _.
  apply adds_bind; [|intros; apply adds_ret].
  destruct (output_json_path kw) as [p|]; [|apply adds_ret].
  destruct (truthy p); [|apply adds_ret].
  apply adds_bind.
  { destruct (dumps _); [apply adds_ret|apply adds_lift]. }
  intros json_text. apply adds_bind; [now apply adds_act|]. intros _.
  now apply adds_print.
Qed.

Lemma adds_init P device output_dir :
  (forall l, P (Print l)) -> (forall d, P (Mkdir d)) ->
  (forall d, P (LoadModel d)) ->
  adds P (StoryNarrator.init env device output_dir).
Proof.
  intros Hp Hm Hl. unfold StoryNarrator.init, AudioGenerator.init.
  apply adds_bind; [now apply adds_act|]. intros _.
  apply adds_bind; [|intros; apply adds_ret].
  apply adds_bind; [now apply adds_print|]. intros _.
  apply adds_bind; [now apply adds_act|]. intros m.
  apply adds_bind; [now apply adds_print|]. intros _.
  apply adds_ret.
Qed.

(** The segments that auto-ingestion stores carry no audio prompt. *)
Lemma stored_segments_no_prompt pattern segments g :
  dict_get g (lit "audio_prompt") = None ->
  forall i, Forall (no_prompt g) (stored_segments pattern i segments).
Proof.
  intros Hg. induction segments as [|x rest IH]; intros i; simpl;
    constructor; [|apply IH].
  unfold stored_segment, no_prompt, effective_audio_prompt.
  destruct (Str.eqb (resolved_style pattern i) (lit "neutral"));
    cbn [dict_get]; rewrite Hg; reflexivity.
Qed.

Lemma process_text_file_directly_unprompted (self : StoryNarrator.obj env)
    path name kw :
  global_audio_prompt kw = None ->
  adds unprompted
    (StoryNarrator.process_text_file_directly self path name kw).
Proof.
  intros Hkw. unfold StoryNarrator.process_text_file_directly,
    StoryNarrator.auto_ingest_text_file.
  apply adds_bind_when.
  - apply adds_auto_ingest_text_file; intros; exact I.
  - intros t doc t' H. apply auto_ingest_ok in H.
    destruct H as (text & segments & _ & _ & -> & _).
    apply process_war_story_unprompted
      with (segments := stored_segments (pattern_of kw) 0 segments)
           (global_settings := settings_of kw).
    + reflexivity.
    + reflexivity.
    + apply stored_segments_no_prompt.
      unfold settings_of. now rewrite Hkw.
Qed.

Lemma auto_mode_unprompted input_file device :
  adds unprompted (Main.auto_mode env input_file None device).
Proof.
  unfold Main.auto_mode.
  apply adds_bind; [apply adds_ask|]. intros found.
  destruct (negb found); [now apply adds_print|].
  apply adds_bind; [now apply adds_print|]. intros _.
  apply adds_bind; [apply adds_init; intros; exact I|]. intros narrator.
  apply adds_bind_ret.
  apply adds_bind; [|intros; now apply adds_print].
  now apply process_text_file_directly_unprompted.
Qed.

(** A prompt that does not exist is dropped: the run is the run without
    a prompt. *)
Lemma auto_mode_missing_prompt input_file voice_prompt device t :
  (forall t0, path_exists env t0 voice_prompt = false) ->
  Main.auto_mode env input_file (Some voice_prompt) device t
  = Main.auto_mode env input_file None device t.
Proof.
  intros Hmissing. unfold Main.auto_mode.
  apply bind_ext. intros found t1.
  destruct (negb found); [reflexivity|].
  apply bind_ext. intros _ t2.
  apply bind_ext. intros narrator t3.
  unfold bind at 1. unfold bind at 3.
  destruct (truthy voice_prompt); [|reflexivity].
  unfold bind at 1. unfold ask. rewrite Hmissing. reflexivity.
Qed.

End WithEnv.

End PromptFacts.

Import PromptFacts.

Definition warning_line (audio_path : str) : event :=
  Print [FText ([9888; 65039]%N ++ lit "  Audio prompt file not found: ");
         FText audio_path].

Definition proceeding_line : event :=
  Print [FText (lit "   Proceeding without voice cloning...")].

(** The claim about a missing audio prompt as the specification states it,
    for auto mode: the warning is printed, no synthesis request carries a
    prompt, and the run ends as it does with no prompt supplied. *)
Definition missing_prompt_warns : Prop :=
  forall (env : Env) (input_file voice_prompt device : str) (t : trace),
    truthy voice_prompt = true ->
    (forall t0, path_exists env t0 voice_prompt = false) ->
    In (warning_line voice_prompt)
      (snd (Main.auto_mode env input_file (Some voice_prompt) device t))
    /\ Appends.adds Appends.unprompted
         (Main.auto_mode env input_file (Some voice_prompt) device)
    /\ fst (Main.auto_mode env input_file (Some voice_prompt) device t)
       = fst (Main.auto_mode env input_file None device t).

(** A world with the text file [story.txt] and no other file. *)
Definition lone_story_env : Env :=
  {| wav := unit; model := unit;
     path_str := fun p => p;
     path_name := fun p => p;
     path_stem := fun p => firstn (length p - 4) p;
     path_join := fun d f => d ++ lit "/" ++ f;
     str_title := fun s => s;
     path_exists := fun _ p => Str.eqb p (lit "story.txt");
     read_text := fun _ _ => Ok (lit "Hello there.");
     write_text := fun _ _ _ => Ok tt;
     mkdir := fun _ _ => Ok tt;
     glob_json := fun _ _ => Ok [];
     json_dumps_other := fun _ => Raise TypeError;
     json_loads_other := fun _ => Raise (OtherError (lit "JSONDecodeError"));
     from_pretrained := fun _ _ => Ok tt;
     generate := fun _ _ _ _ _ => Ok tt;
     save := fun _ _ _ _ => Ok tt;
     concatenate := fun _ _ _ _ _ => Ok tt |}.

(** C9, counterexample.  In the world [lone_story_env], auto mode on
    [story.txt] with the prompt [voice.wav], which does not exist, ends
    well and prints neither line of the warning; so the claim as stated
    does not hold. *)
Lemma auto_mode_prints_no_warning :
  path_exists lone_story_env [] (lit "voice.wav") = false
  /\ fst (Main.auto_mode lone_story_env (lit "story.txt")
            (Some (lit "voice.wav")) (lit "cpu") []) = Ok tt
  /\ ~ In (warning_line (lit "voice.wav"))
         (snd (Main.auto_mode lone_story_env (lit "story.txt")
                 (Some (lit "voice.wav")) (lit "cpu") []))
  /\ ~ In proceeding_line
         (snd (Main.auto_mode lone_story_env (lit "story.txt")
                 (Some (lit "voice.wav")) (lit "cpu") []))
  /\ ~ missing_prompt_warns.
Proof.
  assert (Hno : ~ In (warning_line (lit "voice.wav"))
                    (snd (Main.auto_mode lone_story_env (lit "story.txt")
                            (Some (lit "voice.wav")) (lit "cpu") []))).
  { intros Hin. vm_compute in Hin.
    repeat (destruct Hin as [Hin|Hin]; [discriminate Hin|]).
    exact Hin. }
  split; [reflexivity|]. split; [vm_compute; reflexivity|].
  split; [exact Hno|]. split.
  - intros Hin. vm_compute in Hin.
    repeat (destruct Hin as [Hin|Hin]; [discriminate Hin|]).
    exact Hin.
  - intros H. apply Hno.
    now destruct (H lone_story_env (lit "story.txt") (lit "voice.wav")
                    (lit "cpu") [] eq_refl (fun _ => eq_refl)) as [Hin _].
Qed.

(** C9, amended.  In auto mode an audio prompt whose file does not exist
    is dropped: the run is exactly the run with no prompt supplied, so no
    synthesis request carries an audio prompt and the run does not fail
    because of the missing prompt.  The warning is what
    [validate_audio_prompt] prints for such a path, returning [False]. *)
Theorem missing_prompt_dropped_in_auto_mode :
  forall (env : Env) (input_file voice_prompt device : str) (t : trace),
    (forall t0, path_exists env t0 voice_prompt = false) ->
    Main.auto_mode env input_file (Some voice_prompt) device t
    = Main.auto_mode env input_file None device t
    /\ (exists d,
          snd (Main.auto_mode env input_file (Some voice_prompt) device t)
          = t ++ d
          /\ Forall Appends.unprompted d)
    /\ Utils.validate_audio_prompt env (Some voice_prompt) t
       = (Ok false, t ++ [warning_line voice_prompt; proceeding_line]).
Proof.
  intros env input_file voice_prompt device t Hmissing.
  split; [now apply auto_mode_missing_prompt|]. split.
  - rewrite (auto_mode_missing_prompt env input_file voice_prompt device t
               Hmissing).
    destruct (Main.auto_mode env input_file None device t) as [o t'] eqn:E.
    exact (auto_mode_unprompted env input_file device t o t' E).
  - unfold Utils.validate_audio_prompt.
    unfold bind at 1. unfold ask. rewrite Hmissing. cbn [negb].
    unfold bind, print, emit, ret, warning_line, proceeding_line.
    now rewrite <- app_assoc.
Qed.

Lemma missing_prompt_dropped_in_auto_mode_witness :
  Main.auto_mode lone_story_env (lit "story.txt") (Some (lit "voice.wav"))
    (lit "cpu") []
  = Main.auto_mode lone_story_env (lit "story.txt") None (lit "cpu") []
  /\ generate_calls
       (snd (Main.auto_mode lone_story_env (lit "story.txt")
               (Some (lit "voice.wav")) (lit "cpu") []))
     = [(lit "Hello there.", None, neutral_preset)].
Proof.
  destruct (missing_prompt_dropped_in_auto_mode lone_story_env
              (lit "story.txt") (lit "voice.wav") (lit "cpu") []
              (fun _ => eq_refl)) as (Hsame & _ & _).
  split; [exact Hsame|]. rewrite Hsame. vm_compute. reflexivity.
Defined.

(** Manual mode makes no such check: the path goes to the model as it
    is. *)
Fact manual_mode_passes_prompt :
  generate_calls
    (snd (Main.manual_mode lone_story_env (lit "Hello there.")
            (lit "neutral") (Some (lit "voice.wav")) (lit "output.wav")
            (lit "cpu") []))
  = [(lit "Hello there.", Some (VStr (lit "voice.wav")), neutral_preset)].
Proof. vm_compute. reflexivity. Qed.

(** ** The JSON text of a document can be read back *)

Module JsonFacts.

Section ValueInduction.

Variable P : value -> Prop.
Hypothesis HNone : P VNone.
Hypothesis HBool : forall b, P (VBool b).
Hypothesis HInt : forall z, P (VInt z).
Hypothesis HFloat : forall f, P (VFloat f).
Hypothesis HStr : forall s, P (VStr s).
Hypothesis HList : forall l, Forall P l -> P (VList l).
Hypothesis HDict : forall d, Forall (fun kv => P (snd kv)) d -> P (VDict d).

Fixpoint value_induction (v : value) : P v :=
  match v with
  | VNone => HNone
  | VBool b => HBool b
  | VInt z => HInt z
  | VFloat f => HFloat f
  | VStr s => HStr s
  | VList l =>
      HList l
        ((fix go (l : list value) : Forall P l :=
            match l with
            | [] => Forall_nil P
            | x :: l' => Forall_cons x (value_induction x) (go l')
            end) l)
  | VDict d =>
      HDict d
        ((fix go (d : list (str * value))
            : Forall (fun kv => P (snd kv)) d :=
            match d with
            | [] => Forall_nil _
            | kv :: d' =>
                Forall_cons kv (value_induction (snd kv)) (go d')
            end) d)
  end.

End ValueInduction.

(** *** Strings *)

Lemma hex_value_hex_digit n :
  (n < 16)%N -> hex_value (hex_digit n) = Some n.
Proof.
  intros H. unfold hex_digit, hex_value.
  destruct (N.ltb_spec n 10) as [Hdec|Hhex].
  - assert (E : ((48 <=? 48 + n) && (48 + n <=? 57))%N = true).
    { apply andb_true_iff. split; apply N.leb_le; lia. }
    rewrite E. f_equal. lia.
  - assert (E1 : ((48 <=? 87 + n) && (87 + n <=? 57))%N = false).
    { apply andb_false_iff. right. apply N.leb_gt. lia. }
    assert (E2 : ((97 <=? 87 + n) && (87 + n <=? 102))%N = true).
    { apply andb_true_iff. split; apply N.leb_le; lia. }
    rewrite E1, E2. f_equal. lia.
Qed.

Lemma hex4_control c :
  (c < 32)%N ->
  hex4 48%N 48%N (hex_digit (c / 16)) (hex_digit (c mod 16)) = Some c.
Proof.
  intros H. unfold hex4.
  change (hex_value 48%N) with (Some 0%N).
  rewrite !hex_value_hex_digit.
  - f_equal. pose proof (N.div_mod c 16). lia.
  - apply N.mod_lt. lia.
  - apply N.Div0.div_lt_upper_bound. lia.
Qed.

(** Reading one escaped character gives the character back. *)
Lemma scanstring_escape_char c rest acc :
  scanstring (escape_char c ++ rest) acc = scanstring rest (c :: acc).
Proof.
  unfold escape_char.
  destruct (N.eqb_spec c 92) as [->|H92]; [reflexivity|].
  destruct (N.eqb_spec c 34) as [->|H34]; [reflexivity|].
  destruct (N.eqb_spec c 8) as [->|H8]; [reflexivity|].
  destruct (N.eqb_spec c 12) as [->|H12]; [reflexivity|].
  destruct (N.eqb_spec c 10) as [->|H10]; [reflexivity|].
  destruct (N.eqb_spec c 13) as [->|H13]; [reflexivity|].
  destruct (N.eqb_spec c 9) as [->|H9]; [reflexivity|].
  destruct (N.ltb_spec c 32) as [Hlt|Hge].
  - cbn [app]. cbn [scanstring].
    change (92 =? 34)%N with false. change (92 =? 92)%N with true.
    change (117 =? 34)%N with false. change (117 =? 92)%N with false.
    change (117 =? 47)%N with false. change (117 =? 98)%N with false.
    change (117 =? 102)%N with false. change (117 =? 110)%N with false.
    change (117 =? 114)%N with false. change (117 =? 116)%N with false.
    change (117 =? 117)%N with true. cbv iota.
    rewrite (hex4_control c Hlt).
    assert (E : ((55296 <=? c) && (c <=? 56319))%N = false).
    { apply andb_false_iff. left. apply N.leb_gt. lia. }
    now rewrite E.
  - cbn [app scanstring].
    destruct (N.eqb_spec c 34); [contradiction|].
    destruct (N.eqb_spec c 92); [contradiction|].
    destruct (N.ltb_spec c 32); [lia|]. reflexivity.
Qed.

Lemma scanstring_escaped s :
  forall rest acc,
    scanstring (flat_map escape_char s ++ 34%N :: rest) acc
    = Some (rev acc ++ s, rest).
Proof.
  induction s as [|c s IH]; intros rest acc.
  - simpl. now rewrite app_nil_r.
  - cbn [flat_map]. rewrite <- app_assoc, scanstring_escape_char, IH.
    simpl. now rewrite <- app_assoc.
Qed.

Lemma skip_ws_newline_indent level rest :
  skip_ws (newline_indent level ++ rest) = skip_ws rest.
Proof.
  unfold newline_indent. cbn [app skip_ws].
  change (is_ws NL) with true. cbv iota.
  induction (4 * level)%nat as [|n IH]; [reflexivity|].
  cbn [repeat app skip_ws]. change (is_ws SP) with true. exact IH.
Qed.

Lemma skip_ws_head c s : is_ws c = false -> skip_ws (c :: s) = c :: s.
Proof. intros H. simpl. now rewrite H. Qed.

(** *** The text of lists and dictionaries, item by item *)

Definition item_separator (level : nat) : str :=
  lit "," ++ newline_indent (S level).

Fixpoint items_text (level : nat) (l : list value) (rest : str) : str :=
  match l with
  | [] => rest
  | x :: l' =>
      encode (S level) x
      ++ match l' with
         | [] => newline_indent level ++ lit "]" ++ rest
         | _ :: _ => item_separator level ++ items_text level l' rest
         end
  end.

Definition pair_text (level : nat) (kv : str * value) : str :=
  encode_basestring (fst kv) ++ lit ": " ++ encode (S level) (snd kv).

Fixpoint pairs_text (level : nat) (d : list (str * value)) (rest : str)
  : str :=
  match d with
  | [] => rest
  | kv :: d' =>
      pair_text level kv
      ++ match d' with
         | [] => newline_indent level ++ lit "}" ++ rest
         | _ :: _ => item_separator level ++ pairs_text level d' rest
         end
  end.

Lemma join_items level closing (parts : list str) x rest :
  join (item_separator level) (x :: parts) ++ closing ++ rest
  = x ++ match parts with
         | [] => closing ++ rest
         | _ :: _ =>
             item_separator level
             ++ join (item_separator level) parts ++ closing ++ rest
         end.
Proof.
  destruct parts as [|y parts]; cbn [join]; [reflexivity|].
  now rewrite <- !app_assoc.
Qed.

Lemma encode_list level x l rest :
  encode level (VList (x :: l)) ++ rest
  = lit "[" ++ newline_indent (S level) ++ items_text level (x :: l) rest.
Proof.
  change (encode level (VList (x :: l)))
    with (lit "[" ++ newline_indent (S level)
          ++ join (item_separator level) (map (encode (S level)) (x :: l))
          ++ newline_indent level ++ lit "]").
  rewrite <- !app_assoc. do 2 f_equal.
  revert x. induction l as [|y l IH]; intros x.
  - reflexivity.
  - cbn [map]. rewrite join_items. cbn [map items_text]. do 2 f_equal.
    apply IH.
Qed.

Lemma encode_dict level kv d rest :
  encode level (VDict (kv :: d)) ++ rest
  = lit "{" ++ newline_indent (S level) ++ pairs_text level (kv :: d) rest.
Proof.
  change (encode level (VDict (kv :: d)))
    with (lit "{" ++ newline_indent (S level)
          ++ join (item_separator level) (map (pair_text level) (kv :: d))
          ++ newline_indent level ++ lit "}").
  rewrite <- !app_assoc. do 2 f_equal.
  revert kv. induction d as [|kv' d IH]; intros kv.
  - reflexivity.
  - cbn [map]. rewrite join_items. cbn [map pairs_text]. do 2 f_equal.
    apply IH.
Qed.

(** The first character of a text tells the kind of the value. *)
Definition opening (c : char) : Prop :=
  (c = 34 \/ c = 123 \/ c = 91 \/ c = 110 \/ c = 116 \/ c = 102)%N.

Lemma opening_not_ws c : opening c -> is_ws c = false.
Proof. intros H. repeat (destruct H as [->|H]; [reflexivity|]). now subst. Qed.

Lemma opening_not_closing c : opening c -> (c =? 93)%N = false.
Proof. intros H. repeat (destruct H as [->|H]; [reflexivity|]). now subst. Qed.

Lemma encode_head level v :
  number_free v = true -> exists c s, encode level v = c :: s /\ opening c.
Proof.
  unfold opening. destruct v as [|[|]| | |s|[|x l]|[|kv d]];
    try discriminate; intros _.
  - exists 110%N, (lit "ull"). auto 10.
  - exists 116%N, (lit "rue"). auto 10.
  - exists 102%N, (lit "alse"). auto 10.
  - exists 34%N, (flat_map escape_char s ++ [34%N]). auto 10.
  - exists 91%N, (lit "]"). auto 10.
  - eexists 91%N, _. split; [|auto 10].
    rewrite <- (app_nil_r (encode level (VList (x :: l)))), encode_list.
    reflexivity.
  - exists 123%N, (lit "}"). auto 10.
  - eexists 123%N, _. split; [|auto 10].
    rewrite <- (app_nil_r (encode level (VDict (kv :: d)))), encode_dict.
    reflexivity.
Qed.

Lemma skip_ws_encode level v rest :
  number_free v = true ->
  skip_ws (encode level v ++ rest) = encode level v ++ rest.
Proof.
  intros H. destruct (encode_head level v H) as (c & s & -> & Hc).
  cbn [app]. apply skip_ws_head. now apply opening_not_ws.
Qed.

(** *** Reading a text back *)

Fixpoint distinct (l : list str) : bool :=
  match l with
  | [] => true
  | k :: l' => negb (existsb (Str.eqb k) l') && distinct l'
  end.

(** Every dictionary in the value has pairwise different keys, as every
    Python dictionary does. *)
Fixpoint distinct_keys (v : value) : bool :=
  match v with
  | VList l => forallb distinct_keys l
  | VDict d =>
      distinct (map fst d) && forallb (fun kv => distinct_keys (snd kv)) d
  | _ => true
  end.

Lemma distinct_NoDup l : distinct l = true -> NoDup l.
Proof.
  induction l as [|k l IH]; simpl; [constructor|].
  intros H. apply andb_true_iff in H as [Hk Hl].
  constructor; [|now apply IH].
  intros Hin. apply negb_true_iff in Hk.
  assert (E : existsb (Str.eqb k) l = true).
  { apply existsb_exists. exists k. split; [exact Hin|apply eqb_refl]. }
  congruence.
Qed.

Definition reads_back (v : value) : Prop :=
  number_free v = true ->
  distinct_keys v = true ->
  forall level rest fuel,
    length (encode level v ++ rest) < fuel ->
    parse_value fuel (encode level v ++ rest) = Some (v, rest).

Lemma length_newline_indent level : 1 <= length (newline_indent level).
Proof. unfold newline_indent. simpl. lia. Qed.

Lemma parse_items_text l :
  Forall reads_back l ->
  forallb number_free l = true ->
  forallb distinct_keys l = true ->
  l <> [] ->
  forall level rest acc fuel,
    length (items_text level l rest) + 1 < fuel ->
    parse_items fuel (items_text level l rest) acc
    = Some (rev acc ++ l, rest).
Proof.
  induction 1 as [|x l Hx Hl IH]; [congruence|].
  intros Hnf Hdk _ level rest acc fuel Hfuel.
  cbn [forallb] in Hnf, Hdk.
  apply andb_true_iff in Hnf as [Hnfx Hnfl].
  apply andb_true_iff in Hdk as [Hdkx Hdkl].
  destruct fuel as [|fuel]; [lia|]. cbn [parse_items].
  cbn [items_text] in *.
  rewrite (Hx Hnfx Hdkx) by lia.
  destruct l as [|y l].
  - rewrite skip_ws_newline_indent.
    change (lit "]" ++ rest) with (93%N :: rest).
    rewrite skip_ws_head by reflexivity.
    change (93 =? 93)%N with true. cbv iota.
    cbn [rev]. reflexivity.
  - unfold item_separator. rewrite <- app_assoc.
    change (lit "," ++ newline_indent (S level)
            ++ items_text level (y :: l) rest)
      with (44%N :: newline_indent (S level)
            ++ items_text level (y :: l) rest).
    rewrite skip_ws_head by reflexivity.
    change (44 =? 93)%N with false. change (44 =? 44)%N with true.
    cbv iota. rewrite skip_ws_newline_indent.
    assert (Hskip : skip_ws (items_text level (y :: l) rest)
                    = items_text level (y :: l) rest).
    { cbn [items_text]. cbn [forallb] in Hnfl.
      apply andb_true_iff in Hnfl as [Hnfy _].
      now apply skip_ws_encode. }
    rewrite Hskip.
    rewrite IH; try assumption; try discriminate.
    + cbn [rev]. now rewrite <- app_assoc.
    + unfold item_separator in Hfuel. rewrite !length_app in Hfuel.
      pose proof (length_newline_indent (S level)). lia.
Qed.

Lemma parse_pairs_text d :
  Forall (fun kv => reads_back (snd kv)) d ->
  forallb (fun kv => number_free (snd kv)) d = true ->
  forallb (fun kv => distinct_keys (snd kv)) d = true ->
  d <> [] ->
  forall level rest acc fuel tail,
    NoDup (keys acc ++ map fst d) ->
    length (pairs_text level d rest) + 1 < fuel ->
    pairs_text level d rest = 34%N :: tail ->
    parse_pairs fuel tail acc = Some (acc ++ d, rest).
Proof.
  induction 1 as [|[k v] d Hv Hd IH]; [congruence|].
  intros Hnf Hdk _ level rest acc fuel tail Hnd Hfuel Htail.
  cbn [forallb snd] in Hnf, Hdk.
  apply andb_true_iff in Hnf as [Hnfv Hnfd].
  apply andb_true_iff in Hdk as [Hdkv Hdkd].
  cbn [snd] in Hv.
  destruct fuel as [|fuel]; [lia|]. cbn [parse_pairs].
  cbn [pairs_text] in Htail, Hfuel.
  remember (match d with
            | [] => newline_indent level ++ lit "}" ++ rest
            | _ :: _ => item_separator level ++ pairs_text level d rest
            end) as cont eqn:Hcont.
  assert (Htail' : tail = flat_map escape_char k
                          ++ 34%N :: 58%N :: 32%N
                             :: encode (S level) v ++ cont).
  { unfold pair_text, encode_basestring in Htail. cbn [fst snd] in Htail.
    cbn [app] in Htail. injection Htail as <-.
    now rewrite <- !app_assoc. }
  assert (Hlen : length (encode (S level) v ++ cont) < fuel).
  { unfold pair_text, encode_basestring in Hfuel.
    cbn [fst snd] in Hfuel. rewrite !length_app in Hfuel.
    cbn [length] in Hfuel. rewrite length_app. lia. }
  clear Htail Hfuel. subst tail.
  rewrite scanstring_escaped. cbn [rev app].
  rewrite skip_ws_head by reflexivity.
  change (58 =? 58)%N with true. cbv iota.
  assert (Hsp : forall s, skip_ws (32%N :: s) = skip_ws s) by reflexivity.
  rewrite Hsp, skip_ws_encode by exact Hnfv.
  assert (Hk : ~ In k (keys acc)).
  { intros Hin. apply NoDup_remove_2 in Hnd. apply Hnd.
    apply in_or_app. now left. }
  rewrite (Hv Hnfv Hdkv) by exact Hlen.
  subst cont.
  destruct d as [|kv' d].
  - rewrite skip_ws_newline_indent.
    change (lit "}" ++ rest) with (125%N :: rest).
    rewrite skip_ws_head by reflexivity.
    change (125 =? 125)%N with true. cbv iota.
    now rewrite (dict_set_fresh acc k v Hk).
  - unfold item_separator. rewrite <- app_assoc.
    change (lit "," ++ newline_indent (S level)
            ++ pairs_text level (kv' :: d) rest)
      with (44%N :: newline_indent (S level)
            ++ pairs_text level (kv' :: d) rest).
    rewrite skip_ws_head by reflexivity.
    change (44 =? 125)%N with false. change (44 =? 44)%N with true.
    cbv iota. rewrite skip_ws_newline_indent.
    assert (Hopen : exists tail',
               pairs_text level (kv' :: d) rest = 34%N :: tail').
    { cbn [pairs_text]. unfold pair_text, encode_basestring.
      cbn [app]. eauto. }
    destruct Hopen as [tail' Htail'].
    rewrite Htail'. rewrite skip_ws_head by reflexivity.
    change (34 =? 34)%N with true. cbv iota.
    rewrite (dict_set_fresh acc k v Hk).
    rewrite (IH Hnfd Hdkd) with (level := level) (rest := rest);
      try discriminate; try exact Htail'.
    + now rewrite <- app_assoc.
    + unfold keys. rewrite map_app. cbn [map fst].
      rewrite <- app_assoc. exact Hnd.
    + unfold item_separator in Hlen. rewrite !length_app in Hlen.
      pose proof (length_newline_indent (S level)). lia.
Qed.

Lemma encode_reads_back : forall v, reads_back v.
Proof.
  apply value_induction; unfold reads_back.
  - intros _ _ level rest [|fuel] Hfuel; [simpl in Hfuel; lia|]. reflexivity.
  - intros [|] _ _ level rest [|fuel] Hfuel;
      try (simpl in Hfuel; lia); reflexivity.
  - discriminate.
  - discriminate.
  - intros s _ _ level rest [|fuel] Hfuel; [simpl in Hfuel; lia|].
    cbn [encode]. unfold encode_basestring. cbn [app parse_value].
    change (34 =? 34)%N with true. cbv iota.
    rewrite <- app_assoc. cbn [app]. now rewrite scanstring_escaped.
  - intros [|x l] Hall Hnf Hdk level rest [|fuel] Hfuel;
      try (simpl in Hfuel; lia); [reflexivity|].
    rewrite encode_list in *.
    change (lit "[" ++ newline_indent (S level)
            ++ items_text level (x :: l) rest)
      with (91%N :: newline_indent (S level)
            ++ items_text level (x :: l) rest) in *.
    cbn [parse_value].
    change (91 =? 34)%N with false. change (91 =? 123)%N with false.
    change (91 =? 91)%N with true. cbv iota.
    rewrite skip_ws_newline_indent.
    cbn [number_free distinct_keys] in Hnf, Hdk.
    assert (Hhead : exists c s,
               items_text level (x :: l) rest = c :: s /\ opening c).
    { cbn [items_text]. cbn [forallb] in Hnf.
      apply andb_true_iff in Hnf as [Hnfx _].
      destruct (encode_head (S level) x Hnfx) as (c & s & -> & Hc).
      cbn [app]. eauto. }
    destruct Hhead as (c & s & Htext & Hc).
    rewrite Htext, (skip_ws_head c s (opening_not_ws c Hc)).
    rewrite (opening_not_closing c Hc). rewrite <- Htext.
    rewrite (parse_items_text (x :: l) Hall Hnf Hdk) by
      (try discriminate; cbn [length] in Hfuel;
       rewrite length_app in Hfuel;
       pose proof (length_newline_indent (S level)); lia).
    reflexivity.
  - intros [|kv d] Hall Hnf Hdk level rest [|fuel] Hfuel;
      try (simpl in Hfuel; lia); [reflexivity|].
    rewrite encode_dict in *.
    change (lit "{" ++ newline_indent (S level)
            ++ pairs_text level (kv :: d) rest)
      with (123%N :: newline_indent (S level)
            ++ pairs_text level (kv :: d) rest) in *.
    cbn [parse_value].
    change (123 =? 34)%N with false. change (123 =? 123)%N with true.
    cbv iota. rewrite skip_ws_newline_indent.
    cbn [number_free distinct_keys] in Hnf, Hdk.
    apply andb_true_iff in Hdk as [Hkeys Hdk].
    assert (Hopen : exists tail,
               pairs_text level (kv :: d) rest = 34%N :: tail).
    { cbn [pairs_text]. unfold pair_text, encode_basestring.
      cbn [app]. eauto. }
    destruct Hopen as [tail Htail].
    rewrite Htail, skip_ws_head by reflexivity.
    change (34 =? 125)%N with false. change (34 =? 34)%N with true.
    cbv iota.
    rewrite (parse_pairs_text (kv :: d) Hall Hnf Hdk) with
      (level := level) (rest := rest); try discriminate;
      try exact Htail.
    + reflexivity.
    + cbn [keys map app]. now apply distinct_NoDup.
    + cbn [length] in Hfuel. rewrite length_app in Hfuel.
      pose proof (length_newline_indent (S level)). lia.
Qed.

(** What [dumps] writes, [loads] reads back. *)
Lemma loads_dumps v text :
  distinct_keys v = true -> dumps v = Some text -> loads text = Some v.
Proof.
  intros Hdk. unfold dumps.
  destruct (number_free v) eqn:Hnf; [|discriminate]. intros [= <-].
  unfold loads.
  rewrite <- (app_nil_r (encode 0 v)) at 2.
  rewrite skip_ws_encode by exact Hnf.
  rewrite (encode_reads_back v Hnf Hdk).
  - reflexivity.
  - rewrite app_nil_r. lia.
Qed.

Lemma stored_segments_distinct_keys pattern segments i :
  forallb distinct_keys (stored_segments pattern i segments) = true.
Proof.
  revert i. induction segments as [|x rest IH]; intros i; simpl;
    [reflexivity|].
  rewrite IH, andb_true_r. unfold stored_segment.
  now destruct (Str.eqb (resolved_style pattern i) (lit "neutral")).
Qed.

Lemma built_story_distinct_keys env text_file_path kw segments :
  distinct_keys (VDict (built_story env text_file_path kw segments))
  = true.
Proof.
  unfold built_story. cbn [distinct_keys forallb snd map fst].
  rewrite stored_segments_distinct_keys.
  unfold settings_of. destruct (global_audio_prompt kw) as [p|];
    [destruct (truthy p)|]; reflexivity.
Qed.

End JsonFacts.

Import JsonFacts.

(** The document is written exactly when a path is given. *)
Lemma writing_event env kw story out :
  output_json_path kw = Some out -> truthy out = true ->
  In (WriteText (path_str env out) (encode 0 (VDict story)))
    (writing env kw story).
Proof. intros H1 H2. unfold writing. rewrite H1, H2. now left. Qed.

(** C7.  The document that auto-ingestion returns has a JSON text, and
    the loader's parser reads that text back as the same document, field
    for field and in the same order.  When an output path is given, this
    text is what auto-ingestion writes there, and [load_story_from_json]
    on a file that holds it returns the document.  Auto-ingestion does
    return when the text file exists and can be read, the target length
    has a float (line 64 multiplies it by 1.5), the pattern is not empty
    and writing does not fail. *)
Theorem saved_story_loads_back :
  forall (env : Env) (text_file_path : str) (kw : kwargs) (t : trace),
    (forall (t' : trace) (story_data : value),
        auto_ingest_text_file env text_file_path kw t = (Ok story_data, t') ->
        exists json_text,
          dumps story_data = Some json_text
          /\ loads json_text = Some story_data
          /\ (forall out,
                output_json_path kw = Some out -> truthy out = true ->
                In (WriteText (path_str env out) json_text) t')
          /\ (forall t0 json_path,
                read_text env t0 json_path = Ok json_text ->
                load_story_from_json env json_path t0
                = (Ok story_data, t0)))
    /\ (forall text_content,
          path_exists env t text_file_path = true ->
          read_text env (t ++ [reading_line env text_file_path])
            text_file_path = Ok text_content ->
          of_int (target_segment_length kw) <> None ->
          pattern_of kw <> [] ->
          (forall t0 p x, write_text env t0 p x = Ok tt) ->
          exists story_data t',
            auto_ingest_text_file env text_file_path kw t
            = (Ok story_data, t')).
Proof.
  intros env path kw t. split.
  - intros t' doc H. apply auto_ingest_ok in H.
    destruct H as (text & segs & _ & _ & -> & ->).
    exists (encode 0 (VDict (built_story env path kw segs))).
    assert (Hd : dumps (VDict (built_story env path kw segs))
                 = Some (encode 0 (VDict (built_story env path kw segs)))).
    { unfold dumps. now rewrite built_story_number_free. }
    assert (Hl : loads (encode 0 (VDict (built_story env path kw segs)))
                 = Some (VDict (built_story env path kw segs))).
    { apply loads_dumps; [apply built_story_distinct_keys|exact Hd]. }
    split; [exact Hd|]. split; [exact Hl|]. split.
    + intros out H1 H2. apply in_or_app. right. apply in_or_app. right.
      now apply writing_event.
    + intros t0 json_path Hread. unfold load_story_from_json, bind.
      rewrite Hread, Hl. reflexivity.
  - intros text Hex Hread Hfloat Hpat Hwrite.
    destruct (threshold_cases (target_segment_length kw))
      as [(x & _ & Hx)|[Hnone _]]; [|contradiction].
    rewrite (auto_ingest_total env path kw t text _ Hex Hread
               (splitting_as_fold _ _ _ Hx) Hpat Hwrite).
    eauto.
Qed.

Definition saving_kwargs : kwargs :=
  {| title := Some (lit "A story"); description := None;
     target_segment_length := 250;
     voice_style_pattern := Some [lit "calm"; lit "neutral"];
     global_audio_prompt := Some (lit "voice.wav");
     output_json_path := Some (lit "story.json") |}.

(** The text that the trace last wrote at a path. *)
Fixpoint last_written (p : str) (t : trace) : option str :=
  match t with
  | [] => None
  | e :: t' =>
      match last_written p t' with
      | Some x => Some x
      | None =>
          match e with
          | WriteText q x => if Str.eqb q p then Some x else None
          | _ => None
          end
      end
  end.

(** A world with the text file [story.txt], in which a file that has been
    written can be read. *)
Definition remembering_env : Env :=
  {| wav := unit; model := unit;
     path_str := fun p => p;
     path_name := fun p => p;
     path_stem := fun p => firstn (length p - 4) p;
     path_join := fun d f => d ++ lit "/" ++ f;
     str_title := fun s => s;
     path_exists := fun t p =>
                      Str.eqb p (lit "story.txt")
                      || match last_written p t with
                         | Some _ => true
                         | None => false
                         end;
     read_text := fun t p =>
                    match last_written p t with
                    | Some x => Ok x
                    | None =>
                        if Str.eqb p (lit "story.txt")
                        then Ok (lit "Hello  there .") else
                          Raise (FileNotFoundError p)
                    end;
     write_text := fun _ _ _ => Ok tt;
     mkdir := fun _ _ => Ok tt;
     glob_json := fun _ _ => Ok [];
     json_dumps_other := fun _ => Raise TypeError;
     json_loads_other := fun _ => Raise (OtherError (lit "JSONDecodeError"));
     from_pretrained := fun _ _ => Ok tt;
     generate := fun _ _ _ _ _ => Ok tt;
     save := fun _ _ _ _ => Ok tt;
     concatenate := fun _ _ _ _ _ => Ok tt |}.

Lemma saved_story_loads_back_witness :
  exists story_data t',
    auto_ingest_text_file remembering_env (lit "story.txt") saving_kwargs []
    = (Ok story_data, t')
    /\ load_story_from_json remembering_env (lit "story.json") t'
       = (Ok story_data, t')
    /\ story_data
       = VDict [ (lit "title", VStr (lit "A story"));
                 (lit "description",
                  VStr (lit "Auto-generated from story.txt"));
                 (lit "settings",
                  VDict [ (lit "voice_style", VStr (lit "neutral"));
                          (lit "audio_prompt", VStr (lit "voice.wav")) ]);
                 (lit "create_full_audio", VBool true);
                 (lit "segments",
                  VList [ VDict [ (lit "text", VStr (lit "Hello there."));
                                  (lit "voice_style", VStr (lit "calm")) ] ])
               ].
Proof.
  destruct (saved_story_loads_back remembering_env (lit "story.txt")
              saving_kwargs []) as [Hback Hreturns].
  destruct (Hreturns (lit "Hello  there .") eq_refl eq_refl
              ltac:(vm_compute; discriminate) ltac:(discriminate)
              (fun _ _ _ => eq_refl))
    as (story_data & t' & Hrun).
  destruct (Hback t' story_data Hrun) as (json_text & Hd & _ & _ & Hload).
  exists story_data, t'. split; [exact Hrun|].
  vm_compute in Hrun. injection Hrun as <- <-.
  vm_compute in Hd. injection Hd as <-.
  split; [|reflexivity]. apply Hload. vm_compute. reflexivity.
Defined.

(** ** The normalizer apart from its quotation-mark step

    The four other steps of [clean_text], taken together, are idempotent:
    what makes [clean_text] differ on a second pass is the [replace] of
    line 25 alone. *)

Module NormalizerFacts.

(** *** Runs of one character *)

Section Runs.

Variable c : char.
Variable m : nat.

(** [sub_runs c (S m) (repeat c m)] read from left to right: a copy of
    [c] is kept while fewer than [m] copies stand just before it; [n]
    counts those copies. *)
Fixpoint cap_from (n : nat) (s : str) : str :=
  match s with
  | [] => []
  | x :: s' =>
      if (x =? c)%N
      then if (n <? m)%nat then x :: cap_from (S n) s' else cap_from n s'
      else x :: cap_from 0 s'
  end.

(** No run of more than [m] copies of [c], after [n] copies. *)
Fixpoint run_ok (n : nat) (s : str) : bool :=
  match s with
  | [] => true
  | x :: s' =>
      if (x =? c)%N then (n <? m)%nat && run_ok (S n) s'
      else run_ok 0 s'
  end.

Lemma repeat_snoc (n : nat) : repeat c n ++ [c] = c :: repeat c n.
Proof. induction n as [|n IH]; simpl; [reflexivity|]. now rewrite IH. Qed.

Lemma sub_runs_from_cap s :
  forall p,
    sub_runs_from c (S m) (repeat c m) p s
    = repeat c (Nat.min p m) ++ cap_from (Nat.min p m) s.
Proof.
  induction s as [|x s IH]; intros p; cbn [sub_runs_from cap_from].
  - rewrite app_nil_r. unfold flush_run.
    destruct (Nat.leb_spec (S m) p).
    + now rewrite Nat.min_r by lia.
    + now rewrite Nat.min_l by lia.
  - destruct (x =? c)%N eqn:E.
    + apply N.eqb_eq in E. subst x. rewrite IH.
      destruct (Nat.ltb_spec (Nat.min p m) m) as [Hlt|Hge].
      * assert (Hp : p < m) by lia.
        rewrite (Nat.min_l (S p) m), (Nat.min_l p m) by lia.
        cbn [repeat]. rewrite <- repeat_snoc, <- app_assoc. reflexivity.
      * now rewrite (Nat.min_r (S p) m), (Nat.min_r p m) by lia.
    + rewrite IH. cbn [Nat.min repeat app]. unfold flush_run.
      destruct (Nat.leb_spec (S m) p).
      * now rewrite Nat.min_r by lia.
      * now rewrite Nat.min_l by lia.
Qed.

Lemma sub_runs_cap s : sub_runs c (S m) (repeat c m) s = cap_from 0 s.
Proof. unfold sub_runs. now rewrite sub_runs_from_cap. Qed.

Lemma cap_from_fixed s : forall n, run_ok n s = true -> cap_from n s = s.
Proof.
  induction s as [|x s IH]; intros n; cbn [run_ok cap_from];
    [reflexivity|].
  destruct (x =? c)%N.
  - intros H. apply andb_true_iff in H as [-> H]. now rewrite IH.
  - intros H. now rewrite IH.
Qed.

Lemma run_ok_cap_from s : forall n, run_ok n (cap_from n s) = true.
Proof.
  induction s as [|x s IH]; intros n; cbn [cap_from]; [reflexivity|].
  destruct (x =? c)%N eqn:E.
  - destruct (n <? m)%nat eqn:En; [|apply IH].
    cbn [run_ok]. now rewrite E, En, IH.
  - cbn [run_ok]. now rewrite E, IH.
Qed.

Lemma run_ok_le s : forall n n', n' <= n -> run_ok n s = true ->
                                 run_ok n' s = true.
Proof.
  induction s as [|x s IH]; intros n n' Hle; cbn [run_ok];
    [reflexivity|].
  destruct (x =? c)%N; [|auto].
  intros H. apply andb_true_iff in H as [Hn H].
  apply Nat.ltb_lt in Hn. apply andb_true_iff. split.
  - apply Nat.ltb_lt. lia.
  - apply (IH (S n)); [lia|exact H].
Qed.

Lemma run_ok_tail x s n : run_ok n (x :: s) = true -> run_ok 0 s = true.
Proof.
  cbn [run_ok]. destruct (x =? c)%N; [|auto].
  intros H. apply andb_true_iff in H as [_ H].
  apply (run_ok_le s (S n)); [lia|exact H].
Qed.

Lemma run_ok_other x s n :
  (x =? c)%N = false -> run_ok n (x :: s) = true <-> run_ok 0 s = true.
Proof. intros E. cbn [run_ok]. now rewrite E. Qed.

Lemma run_ok_prefix a : forall b n, run_ok n (a ++ b) = true ->
                                    run_ok n a = true.
Proof.
  induction a as [|x a IH]; intros b n; cbn [app run_ok]; [reflexivity|].
  destruct (x =? c)%N.
  - intros H. apply andb_true_iff in H as [-> H]. simpl. now apply IH in H.
  - apply IH.
Qed.

Lemma run_ok_drop_space s n : run_ok n s = true ->
                              run_ok 0 (drop_space s) = true.
Proof.
  revert n. induction s as [|x s IH]; intros n H; cbn [drop_space];
    [reflexivity|].
  destruct (isspace x).
  - apply (IH 0). now apply run_ok_tail in H.
  - apply (run_ok_le _ n); [lia|exact H].
Qed.

End Runs.

(** Capping the runs of another character keeps the runs of [c] short. *)
Lemma run_ok_cap_other c m c' m' s :
  c <> c' -> 1 <= m' ->
  forall n k,
    (1 <= k -> n = 0) ->
    run_ok c m n s = true ->
    run_ok c m n (cap_from c' m' k s) = true.
Proof.
  intros Hne Hm'. induction s as [|x s IH]; intros n k Hk H;
    cbn [cap_from]; [reflexivity|].
  destruct (x =? c')%N eqn:E'.
  - assert (E : (x =? c)%N = false).
    { apply N.eqb_eq in E'. apply N.eqb_neq. congruence. }
    apply (run_ok_other c m x s n E) in H.
    destruct (Nat.ltb_spec k m') as [Hlt|Hge].
    + apply (run_ok_other c m x _ n E). apply IH; [lia|exact H].
    + rewrite (Hk ltac:(lia)). apply IH; [lia|exact H].
  - cbn [run_ok] in *. destruct (x =? c)%N.
    + apply andb_true_iff in H as [-> H]. simpl. apply IH; [lia|exact H].
    + apply IH; [lia|exact H].
Qed.

(** *** Whitespace before punctuation *)

(** The next character that is not whitespace is [.], [!] or [?]. *)
Fixpoint before_punct (s : str) : bool :=
  match s with
  | [] => false
  | x :: s' => if isspace x then before_punct s' else is_punct x
  end.

(** [sub_space_before_punct] without its accumulator: a whitespace
    character goes when the run it stands in ends before punctuation. *)
Fixpoint unspace (s : str) : str :=
  match s with
  | [] => []
  | x :: s' =>
      if isspace x
      then if before_punct s' then unspace s' else x :: unspace s'
      else x :: unspace s'
  end.

(** No whitespace character stands in a run that ends before
    punctuation. *)
Fixpoint punct_ok (s : str) : bool :=
  match s with
  | [] => true
  | x :: s' =>
      (if isspace x then negb (before_punct s') else true) && punct_ok s'
  end.

Lemma sub_space_before_punct_from_unspace s :
  forall pending,
    sub_space_before_punct_from pending s
    = (if before_punct s then [] else rev pending) ++ unspace s.
Proof.
  induction s as [|x s IH]; intros pending;
    cbn [sub_space_before_punct_from before_punct unspace].
  - now rewrite app_nil_r.
  - destruct (isspace x) eqn:Ex.
    + rewrite IH. destruct (before_punct s); [reflexivity|].
      cbn [rev]. now rewrite <- app_assoc.
    + destruct (is_punct x); rewrite IH; cbn [rev app];
        now destruct (before_punct s).
Qed.

Lemma sub_space_before_punct_unspace s :
  sub_space_before_punct s = unspace s.
Proof.
  unfold sub_space_before_punct.
  rewrite sub_space_before_punct_from_unspace.
  now destruct (before_punct s).
Qed.

Lemma unspace_fixed s : punct_ok s = true -> unspace s = s.
Proof.
  induction s as [|x s IH]; cbn [punct_ok unspace]; [reflexivity|].
  intros H. apply andb_true_iff in H as [Hx H]. rewrite (IH H).
  destruct (isspace x); [|reflexivity].
  apply negb_true_iff in Hx. now rewrite Hx.
Qed.

Lemma before_punct_unspace s : before_punct (unspace s) = before_punct s.
Proof.
  induction s as [|x s IH]; cbn [unspace before_punct]; [reflexivity|].
  destruct (isspace x) eqn:Ex.
  - destruct (before_punct s) eqn:Eb; [exact IH|].
    cbn [before_punct]. now rewrite Ex, IH.
  - cbn [before_punct]. now rewrite Ex.
Qed.

Lemma punct_ok_unspace s : punct_ok (unspace s) = true.
Proof.
  induction s as [|x s IH]; cbn [unspace]; [reflexivity|].
  destruct (isspace x) eqn:Ex.
  - destruct (before_punct s) eqn:Eb; [exact IH|].
    cbn [punct_ok]. now rewrite Ex, before_punct_unspace, Eb, IH.
  - cbn [punct_ok]. now rewrite Ex, IH.
Qed.

(** When punctuation comes next, the result starts with it. *)
Lemma unspace_head s :
  before_punct s = true ->
  exists p r, unspace s = p :: r /\ is_punct p = true.
Proof.
  induction s as [|x s IH]; cbn [before_punct unspace]; [discriminate|].
  destruct (isspace x) eqn:Ex.
  - intros H. rewrite H. now apply IH.
  - intros H. now exists x, (unspace s).
Qed.

(** Removing whitespace before punctuation keeps the runs of a
    whitespace character short. *)
Lemma run_ok_unspace c m s :
  is_punct c = false ->
  forall n, run_ok c m n s = true -> run_ok c m n (unspace s) = true.
Proof.
  intros Hc. induction s as [|x s IH]; intros n H; cbn [unspace];
    [reflexivity|].
  assert (Hkeep : run_ok c m n (x :: unspace s) = true).
  { cbn [run_ok] in *. destruct (x =? c)%N.
    - apply andb_true_iff in H as [-> H]. simpl. now apply IH.
    - now apply IH. }
  destruct (isspace x); [|exact Hkeep].
  destruct (before_punct s) eqn:Eb; [|exact Hkeep].
  destruct (unspace_head s Eb) as (p & r & Hp & Hpunct).
  assert (Hpc : (p =? c)%N = false).
  { apply N.eqb_neq. intros ->. congruence. }
  apply run_ok_tail in H. apply (IH 0) in H.
  rewrite Hp in *. apply (run_ok_other c m p r n Hpc).
  now apply (run_ok_other c m p r 0 Hpc) in H.
Qed.

(** *** Trimming *)

Lemma drop_space_suffix s :
  exists w, s = w ++ drop_space s /\ all_space w.
Proof.
  induction s as [|x s (w & Hs & Hw)]; cbn [drop_space].
  - now exists [].
  - destruct (isspace x) eqn:Ex.
    + exists (x :: w). split; [cbn [app]; now rewrite <- Hs|].
      apply all_space_cons. now split.
    + now exists [].
Qed.

Lemma rstrip_prefix s : exists w, s = rstrip s ++ w /\ all_space w.
Proof.
  unfold rstrip. destruct (drop_space_suffix (rev s)) as (w & Hs & Hw).
  exists (rev w). split; [|now apply all_space_rev].
  rewrite <- rev_app_distr, <- Hs. now rewrite rev_involutive.
Qed.

Lemma run_ok_strip c m s n :
  run_ok c m n s = true -> run_ok c m 0 (strip s) = true.
Proof.
  intros H. unfold strip, lstrip.
  apply run_ok_drop_space in H.
  destruct (rstrip_prefix (drop_space s)) as (w & Hs & _).
  rewrite Hs in H. now apply run_ok_prefix in H.
Qed.

Lemma before_punct_all_space r w :
  all_space w -> before_punct (r ++ w) = before_punct r.
Proof.
  intros Hw. induction r as [|x r IH]; cbn [app before_punct].
  - induction w as [|y w IHw]; [reflexivity|].
    apply all_space_cons in Hw as [Hy Hw]. cbn [before_punct].
    rewrite Hy. now apply IHw.
  - now rewrite IH.
Qed.

Lemma punct_ok_prefix a w :
  all_space w -> punct_ok (a ++ w) = true -> punct_ok a = true.
Proof.
  intros Hw. induction a as [|x a IH]; cbn [app punct_ok]; [reflexivity|].
  rewrite (before_punct_all_space a w Hw).
  intros H. apply andb_true_iff in H as [-> H]. simpl. now apply IH.
Qed.

Lemma punct_ok_drop_space s :
  punct_ok s = true -> punct_ok (drop_space s) = true.
Proof.
  induction s as [|x s IH]; cbn [drop_space]; [reflexivity|].
  intros H. destruct (isspace x); [|exact H].
  apply IH. cbn [punct_ok] in H. now apply andb_true_iff in H as [_ H].
Qed.

Lemma punct_ok_strip s : punct_ok s = true -> punct_ok (strip s) = true.
Proof.
  intros H. unfold strip, lstrip. apply punct_ok_drop_space in H.
  destruct (rstrip_prefix (drop_space s)) as (w & Hs & Hw).
  rewrite Hs in H. now apply (punct_ok_prefix _ w Hw).
Qed.

(** *** The four steps together *)

Definition clean_text_without_quotes (text : str) : str :=
  strip (sub_space_before_punct
           (sub_runs SP 2 [SP] (sub_runs NL 3 [NL; NL] text))).

Lemma newlines_capped s : sub_runs NL 3 [NL; NL] s = cap_from NL 2 0 s.
Proof. apply (sub_runs_cap NL 2). Qed.

Lemma spaces_capped s : sub_runs SP 2 [SP] s = cap_from SP 1 0 s.
Proof. apply (sub_runs_cap SP 1). Qed.

(** What the four steps return has no run of three newlines, no run of two
    spaces, no whitespace before punctuation and no whitespace at either
    end. *)
Lemma clean_text_without_quotes_shape text :
  run_ok NL 2 0 (clean_text_without_quotes text) = true
  /\ run_ok SP 1 0 (clean_text_without_quotes text) = true
  /\ punct_ok (clean_text_without_quotes text) = true.
Proof.
  unfold clean_text_without_quotes.
  rewrite newlines_capped, spaces_capped, sub_space_before_punct_unspace.
  split; [|split].
  - apply (run_ok_strip NL 2 _ 0).
    apply run_ok_unspace; [reflexivity|].
    apply run_ok_cap_other; [discriminate|lia|lia|].
    apply run_ok_cap_from.
  - apply (run_ok_strip SP 1 _ 0).
    apply run_ok_unspace; [reflexivity|].
    apply run_ok_cap_from.
  - apply punct_ok_strip. apply punct_ok_unspace.
Qed.

(** Without the step of line 25 the normalizer is idempotent. *)
Theorem clean_text_without_quotes_idempotent text :
  clean_text_without_quotes (clean_text_without_quotes text)
  = clean_text_without_quotes text.
Proof.
  destruct (clean_text_without_quotes_shape text) as (Hn & Hs & Hp).
  unfold clean_text_without_quotes at 1.
  rewrite newlines_capped, (cap_from_fixed NL 2 _ 0 Hn).
  rewrite spaces_capped, (cap_from_fixed SP 1 _ 0 Hs).
  rewrite sub_space_before_punct_unspace, (unspace_fixed _ Hp).
  unfold clean_text_without_quotes. apply strip_idem.
Qed.

Lemma replace_same_char c s : replace [c] [c] s = s.
Proof.
  unfold replace. induction s as [|x s IH]; cbn [replace_from];
    [reflexivity|].
  cbn [starts_with length Nat.sub]. rewrite andb_true_r.
  destruct (N.eqb_spec c x) as [->|Hne]; cbn [app]; now rewrite IH.
Qed.

(** On a text in which line 25 finds nothing to replace, [clean_text] is
    the four other steps. *)
Lemma clean_text_without_pattern text :
  replace quote_pattern [SQUOTE]
    (sub_runs SP 2 [SP] (sub_runs NL 3 [NL; NL] text))
  = sub_runs SP 2 [SP] (sub_runs NL 3 [NL; NL] text) ->
  clean_text text = clean_text_without_quotes text.
Proof.
  intros H. unfold clean_text, clean_text_without_quotes.
  now rewrite !replace_same_char, H.
Qed.

End NormalizerFacts.

(* ===================================================================== *)
(** * Part III.  Further properties of the code                            *)
(* ===================================================================== *)

(** ** The normalizer: what its result looks like *)

Module CleanTextFacts.

Import NormalizerFacts.

Lemma is_punct_not_space p : is_punct p = true -> isspace p = false.
Proof.
  unfold is_punct. intros H.
  apply orb_true_iff in H as [H|H];
    [apply orb_true_iff in H as [H|H]|];
    apply N.eqb_eq in H; subst; reflexivity.
Qed.

(** A text that passes [run_ok] holds no run of [m + 1] copies. *)
Lemma run_ok_repeat c m b :
  forall k n, m < n + S k -> run_ok c m n (repeat c (S k) ++ b) = false.
Proof.
  induction k as [|k IH]; intros n Hn.
  - cbn [repeat app run_ok]. rewrite N.eqb_refl.
    assert (E : (n <? m)%nat = false) by (apply Nat.ltb_ge; lia).
    now rewrite E.
  - change (repeat c (S (S k)) ++ b) with (c :: (repeat c (S k) ++ b)).
    cbn [run_ok]. rewrite N.eqb_refl, (IH (S n)) by lia.
    apply andb_false_r.
Qed.

Lemma run_ok_no_run c m a b :
  forall n, run_ok c m n (a ++ repeat c (S m) ++ b) = false.
Proof.
  induction a as [|x a IH]; intros n.
  - apply run_ok_repeat. lia.
  - cbn [app run_ok]. destruct (x =? c)%N; [|apply IH].
    rewrite IH. apply andb_false_r.
Qed.

Lemma punct_ok_no_space_before a w p b :
  isspace w = true -> is_punct p = true ->
  punct_ok (a ++ [w; p] ++ b) = false.
Proof.
  intros Hw Hp. induction a as [|x a IH].
  - cbn [app punct_ok before_punct].
    now rewrite Hw, (is_punct_not_space p Hp), Hp.
  - change ((x :: a) ++ [w; p] ++ b) with (x :: (a ++ [w; p] ++ b)).
    cbn [punct_ok]. rewrite IH. apply andb_false_r.
Qed.

(** Replacing a text by one character that is not [c] joins no two runs
    of [c]. *)
Lemma run_ok_replace_from c m old q s :
  (q =? c)%N = false ->
  forall skip n,
    run_ok c m n s = true ->
    run_ok c m (match skip with O => n | S _ => 0 end)
      (replace_from old [q] skip s) = true.
Proof.
  intros Hq. induction s as [|x s IH]; intros skip n H;
    cbn [replace_from]; [reflexivity|].
  destruct skip as [|k].
  - destruct (starts_with old (x :: s)).
    + cbn [app]. apply (run_ok_other c m q _ n Hq).
      apply run_ok_tail in H.
      specialize (IH (length old - 1) 0 H).
      now destruct (length old - 1).
    + cbn [run_ok] in *. destruct (x =? c)%N.
      * apply andb_true_iff in H as [-> H]. simpl. exact (IH 0 (S n) H).
      * exact (IH 0 0 H).
  - apply run_ok_tail in H. specialize (IH k 0 H). now destruct k.
Qed.

Lemma run_ok_replace c m old q s :
  (q =? c)%N = false -> old <> [] ->
  run_ok c m 0 s = true -> run_ok c m 0 (replace old [q] s) = true.
Proof.
  intros Hq Hold H. unfold replace. destruct old as [|o old]; [congruence|].
  exact (run_ok_replace_from c m (o :: old) q s Hq 0 0 H).
Qed.

(** The text just before the whitespace before punctuation is removed. *)
Definition respaced (text : str) : str :=
  replace quote_pattern [SQUOTE]
    (sub_runs SP 2 [SP] (sub_runs NL 3 [NL; NL] text)).

Lemma clean_text_respaced text :
  clean_text text = strip (sub_space_before_punct (respaced text)).
Proof. unfold clean_text, respaced. now rewrite !replace_same_char. Qed.

Lemma respaced_runs text :
  run_ok NL 2 0 (respaced text) = true
  /\ run_ok SP 1 0 (respaced text) = true.
Proof.
  unfold respaced. rewrite newlines_capped, spaces_capped. split.
  - apply run_ok_replace; [reflexivity|discriminate|].
    apply run_ok_cap_other; [discriminate|lia|lia|].
    apply run_ok_cap_from.
  - apply run_ok_replace; [reflexivity|discriminate|].
    apply run_ok_cap_from.
Qed.

Lemma clean_text_shape text :
  run_ok NL 2 0 (clean_text text) = true
  /\ run_ok SP 1 0 (clean_text text) = true
  /\ punct_ok (clean_text text) = true.
Proof.
  rewrite clean_text_respaced, sub_space_before_punct_unspace.
  destruct (respaced_runs text) as [Hn Hs]. split; [|split].
  - apply (run_ok_strip NL 2 _ 0). now apply run_ok_unspace.
  - apply (run_ok_strip SP 1 _ 0). now apply run_ok_unspace.
  - apply punct_ok_strip. apply punct_ok_unspace.
Qed.

(** *** No step adds a character *)

Lemma In_cap_from c m x s : forall n, In x (cap_from c m n s) -> In x s.
Proof.
  induction s as [|y s IH]; intros n; cbn [cap_from]; [tauto|].
  destruct (y =? c)%N.
  - destruct (n <? m)%nat.
    + intros [H|H]; [now left|right; exact (IH _ H)].
    + intros H. right. exact (IH _ H).
  - intros [H|H]; [now left|right; exact (IH _ H)].
Qed.

Lemma In_unspace x s : In x (unspace s) -> In x s.
Proof.
  induction s as [|y s IH]; cbn [unspace]; [tauto|].
  destruct (isspace y).
  - destruct (before_punct s).
    + intros H. right. now apply IH.
    + intros [H|H]; [now left|right; now apply IH].
  - intros [H|H]; [now left|right; now apply IH].
Qed.

Lemma In_drop_space x s : In x (drop_space s) -> In x s.
Proof.
  induction s as [|y s IH]; cbn [drop_space]; [tauto|].
  destruct (isspace y); [|tauto]. intros H. right. now apply IH.
Qed.

Lemma In_strip x s : In x (strip s) -> In x s.
Proof.
  unfold strip, rstrip, lstrip. intros H.
  apply In_drop_space. apply in_rev. apply In_drop_space.
  now apply in_rev in H.
Qed.

Lemma In_clean_text_without_quotes x text :
  In x (clean_text_without_quotes text) -> In x text.
Proof.
  unfold clean_text_without_quotes.
  rewrite newlines_capped, spaces_capped, sub_space_before_punct_unspace.
  intros H. apply In_strip, In_unspace, In_cap_from, In_cap_from in H.
  exact H.
Qed.

Lemma In_prefix (x : char) n : forall l, In x (firstn n l) -> In x l.
Proof.
  induction n as [|n IH]; intros [|y l]; cbn [firstn In]; try tauto.
  intros [H|H]; [now left|right; now apply IH].
Qed.

(** A text that lacks a character of [old] holds no occurrence of
    [old]. *)
Lemma replace_from_absent c old new s :
  In c old -> ~ In c s -> replace_from old new 0 s = s.
Proof.
  intros Hold. induction s as [|x s IH]; intros Hs; cbn [replace_from];
    [reflexivity|].
  destruct (starts_with old (x :: s)) eqn:E.
  - exfalso. apply Hs. apply SegmenterFacts.starts_with_firstn in E.
    apply (In_prefix c (length old)). now rewrite E.
  - f_equal. apply IH. intros H. apply Hs. now right.
Qed.

Lemma replace_absent c old new s :
  In c old -> ~ In c s -> replace old new s = s.
Proof.
  intros Hold Hs. unfold replace. destruct old as [|o old]; [destruct Hold|].
  now apply (replace_from_absent c).
Qed.

Lemma clean_text_absent c text :
  In c quote_pattern -> ~ In c text ->
  clean_text text = clean_text_without_quotes text.
Proof.
  intros Hc Ht. apply clean_text_without_pattern.
  apply (replace_absent c); [exact Hc|].
  rewrite newlines_capped, spaces_capped. intros H.
  apply In_cap_from, In_cap_from in H. contradiction.
Qed.

End CleanTextFacts.

Import NormalizerFacts CleanTextFacts.

(** X1.  Whatever the text, the result of [clean_text] holds no three
    newlines in a row, no two spaces in a row and no whitespace character
    just before [.], [!] or [?], and it neither starts nor ends with
    whitespace: trimming it again changes nothing. *)
Theorem clean_text_result_is_normalized :
  forall text : str,
    (forall a b, clean_text text <> a ++ [NL; NL; NL] ++ b)
    /\ (forall a b, clean_text text <> a ++ [SP; SP] ++ b)
    /\ (forall a w p b,
          isspace w = true -> is_punct p = true ->
          clean_text text <> a ++ [w; p] ++ b)
    /\ strip (clean_text text) = clean_text text.
Proof.
  intros text. destruct (clean_text_shape text) as (Hn & Hs & Hp).
  split; [|split; [|split]].
  - intros a b E. rewrite E in Hn.
    change [NL; NL; NL] with (repeat NL 3) in Hn.
    now rewrite run_ok_no_run in Hn.
  - intros a b E. rewrite E in Hs.
    change [SP; SP] with (repeat SP 2) in Hs.
    now rewrite run_ok_no_run in Hs.
  - intros a w p b Hw Hpunct E. rewrite E in Hp.
    now rewrite punct_ok_no_space_before in Hp.
  - rewrite clean_text_respaced. apply strip_idem.
Qed.

(** X2.  The second pass of [clean_text] changes nothing on a text that
    lacks any one character of the fifteen that line 25 looks for (a text
    without a double quote, say, or without an opening parenthesis). *)
Theorem clean_text_idempotent_without_pattern_character :
  forall (text : str) (c : char),
    In c quote_pattern -> ~ In c text ->
    clean_text (clean_text text) = clean_text text.
Proof.
  intros text c Hc Ht.
  rewrite (clean_text_absent c text Hc Ht).
  rewrite (clean_text_absent c (clean_text_without_quotes text) Hc).
  - apply clean_text_without_quotes_idempotent.
  - intros H. apply Ht. now apply In_clean_text_without_quotes.
Qed.

Lemma clean_text_idempotent_without_pattern_character_witness :
  clean_text (clean_text (lit "One  thing .   And another !"))
  = clean_text (lit "One  thing .   And another !").
Proof.
  apply (clean_text_idempotent_without_pattern_character _ DQUOTE).
  - vm_compute. tauto.
  - vm_compute. intuition discriminate.
Defined.

(** ** Sentences *)

Module SentenceFacts.

(** The last character of [s] is [.], [!] or [?]; [prev] answers for the
    empty text. *)
Fixpoint ends_punct_from (prev : bool) (s : str) : bool :=
  match s with
  | [] => prev
  | c :: s' => ends_punct_from (is_punct c) s'
  end.

(** No whitespace character of [s] stands just after [.], [!] or [?];
    [prev] says whether such a character stands just before [s]. *)
Fixpoint no_break_from (prev : bool) (s : str) : bool :=
  match s with
  | [] => true
  | c :: s' => negb (prev && isspace c) && no_break_from (is_punct c) s'
  end.

Lemma ends_punct_from_snoc a c :
  forall prev, ends_punct_from prev (a ++ [c]) = is_punct c.
Proof. induction a as [|x a IH]; intros prev; simpl; [reflexivity|apply IH]. Qed.

Lemma ends_punct_from_last s :
  forall prev,
    ends_punct_from prev s = true ->
    (s = [] /\ prev = true)
    \/ exists r p, s = r ++ [p] /\ is_punct p = true.
Proof.
  induction s as [|x s IH]; intros prev H; [now left|].
  right. simpl in H. destruct (IH _ H) as [[-> Hx]|(r & p & -> & Hp)].
  - now exists [], x.
  - now exists (x :: r), p.
Qed.

Lemma no_break_from_app a b :
  forall prev,
    no_break_from prev (a ++ b)
    = no_break_from prev a && no_break_from (ends_punct_from prev a) b.
Proof.
  induction a as [|x a IH]; intros prev; simpl; [reflexivity|].
  now rewrite IH, andb_assoc.
Qed.

Lemma no_break_from_weaken s :
  forall prev, no_break_from prev s = true -> no_break_from false s = true.
Proof.
  destruct s as [|c s]; intros prev; simpl; [reflexivity|].
  intros H. now apply andb_true_iff in H as [_ ->].
Qed.

Lemma no_break_from_tail x s prev :
  no_break_from prev (x :: s) = true -> no_break_from false s = true.
Proof.
  simpl. intros H. apply andb_true_iff in H as [_ H].
  now apply no_break_from_weaken in H.
Qed.

Lemma no_break_drop_space s :
  no_break_from false s = true -> no_break_from false (drop_space s) = true.
Proof.
  induction s as [|x s IH]; cbn [drop_space]; [reflexivity|].
  intros H. destruct (isspace x); [|exact H].
  apply IH. now apply no_break_from_tail in H.
Qed.

Lemma no_break_strip s :
  no_break_from false s = true -> no_break_from false (strip s) = true.
Proof.
  intros H. unfold strip, lstrip. apply no_break_drop_space in H.
  destruct (NormalizerFacts.rstrip_prefix (drop_space s)) as (w & Hs & _).
  rewrite Hs, no_break_from_app in H.
  now apply andb_true_iff in H as [H _].
Qed.

Lemma split_after_punct_from_nonempty s :
  forall in_sep after_punct cur,
    split_after_punct_from in_sep after_punct cur s <> [].
Proof.
  induction s as [|c s IH]; intros in_sep after_punct cur;
    cbn [split_after_punct_from]; [discriminate|].
  destruct (isspace c); [|apply IH].
  destruct in_sep; [apply IH|].
  destruct after_punct; [discriminate|apply IH].
Qed.

(** Every piece but the last ends where a separator starts: just after
    [.], [!] or [?]. *)
Lemma pieces_end_with_punct s :
  forall in_sep after_punct cur,
    (after_punct = true -> ends_punct_from false (rev cur) = true) ->
    Forall (fun x => ends_punct_from false x = true)
      (removelast (split_after_punct_from in_sep after_punct cur s)).
Proof.
  induction s as [|c s IH]; intros in_sep after_punct cur Hap;
    cbn [split_after_punct_from]; [constructor|].
  destruct (isspace c) eqn:Hc.
  - destruct in_sep; [apply IH; discriminate|].
    destruct after_punct; [|apply IH; discriminate].
    pose proof (split_after_punct_from_nonempty s true false []) as Hne.
    cbn [removelast].
    destruct (split_after_punct_from true false [] s) as [|y l] eqn:E;
      [congruence|].
    constructor; [now apply Hap|].
    rewrite <- E. apply IH. discriminate.
  - apply IH. intros Hp. cbn [rev]. now rewrite ends_punct_from_snoc.
Qed.

(** No piece holds a place where a separator could start. *)
Lemma pieces_no_break s :
  forall in_sep after_punct cur,
    no_break_from false (rev cur) = true ->
    (in_sep = false -> after_punct = ends_punct_from false (rev cur)) ->
    Forall (fun x => no_break_from false x = true)
      (split_after_punct_from in_sep after_punct cur s).
Proof.
  induction s as [|c s IH]; intros in_sep after_punct cur Hcur Hap;
    cbn [split_after_punct_from]; [now constructor|].
  destruct (isspace c) eqn:Hc.
  - destruct in_sep; [apply IH; [exact Hcur|discriminate]|].
    specialize (Hap eq_refl).
    destruct after_punct.
    + constructor; [exact Hcur|]. apply IH; [reflexivity|discriminate].
    + apply IH.
      * cbn [rev]. rewrite no_break_from_app, Hcur, <- Hap. reflexivity.
      * intros _. cbn [rev]. rewrite ends_punct_from_snoc.
        destruct (is_punct c) eqn:Hp; [|reflexivity].
        apply CleanTextFacts.is_punct_not_space in Hp. congruence.
  - apply IH.
    + cbn [rev]. rewrite no_break_from_app, Hcur. cbn [no_break_from].
      now rewrite Hc, andb_false_r.
    + intros _. cbn [rev]. now rewrite ends_punct_from_snoc.
Qed.

(** A text with no such place is one piece. *)
Lemma split_after_punct_from_whole s :
  forall after_punct cur,
    after_punct = ends_punct_from false (rev cur) ->
    no_break_from false (rev cur ++ s) = true ->
    split_after_punct_from false after_punct cur s = [rev cur ++ s].
Proof.
  induction s as [|c s IH]; intros after_punct cur Hap H;
    cbn [split_after_punct_from]; [now rewrite app_nil_r|].
  assert (Hstep : rev cur ++ c :: s = rev (c :: cur) ++ s).
  { cbn [rev]. now rewrite <- app_assoc. }
  rewrite Hstep. rewrite Hstep in H.
  destruct (isspace c) eqn:Hc.
  - destruct after_punct.
    + exfalso. rewrite <- Hstep in H. rewrite no_break_from_app in H.
      apply andb_true_iff in H as [_ H]. rewrite <- Hap in H.
      cbn [no_break_from] in H. now rewrite Hc in H.
    + apply IH; [|exact H]. cbn [rev]. rewrite ends_punct_from_snoc.
      destruct (is_punct c) eqn:Hp; [|reflexivity].
      apply CleanTextFacts.is_punct_not_space in Hp. congruence.
  - apply IH; [|exact H]. cbn [rev]. now rewrite ends_punct_from_snoc.
Qed.

(** Trimming a piece that ends with punctuation keeps its end. *)
Lemma strip_ends_punct x :
  ends_punct_from false x = true ->
  truthy (strip x) = true /\ ends_punct_from false (strip x) = true.
Proof.
  intros H. apply ends_punct_from_last in H.
  destruct H as [[_ H]|(r & p & -> & Hp)]; [discriminate|].
  pose proof (CleanTextFacts.is_punct_not_space p Hp) as Hs.
  destruct (drop_space_keeps_last p r Hs) as [r' Hr'].
  assert (E : strip (r ++ [p]) = r' ++ [p]).
  { unfold strip, rstrip, lstrip. rewrite Hr', rev_app_distr.
    cbn [rev app drop_space]. rewrite Hs. cbn [rev].
    now rewrite rev_involutive. }
  rewrite E. split.
  - now destruct r'.
  - now rewrite ends_punct_from_snoc.
Qed.

Lemma trimmed_pieces_end_with_punct (l : list str) :
  Forall (fun x => ends_punct_from false x = true) (removelast l) ->
  Forall (fun x => ends_punct_from false x = true)
    (removelast (map strip (filter (fun x => truthy (strip x)) l))).
Proof.
  induction l as [|x l IH]; [constructor|].
  destruct l as [|y l].
  - intros _. cbn [filter]. destruct (truthy (strip x)); constructor.
  - intros H. change (removelast (x :: y :: l))
      with (x :: removelast (y :: l)) in H.
    apply Forall_cons_iff in H as [Hx H].
    destruct (strip_ends_punct x Hx) as [Ht He].
    specialize (IH H). cbn [filter] in *. rewrite Ht. cbn [map].
    destruct (map strip _) as [|z m]; [constructor|].
    change (removelast (strip x :: z :: m))
      with (strip x :: removelast (z :: m)).
    now constructor.
Qed.

End SentenceFacts.

Import SentenceFacts.

(** X3.  Every sentence that [split_into_sentences] returns is non-empty
    and trimmed; the sentences together hold the characters of the text
    that are not whitespace, in order; and a text without such a
    character has no sentence. *)
Theorem sentences_trimmed_and_lossless :
  forall text : str,
    (forall s, In s (split_into_sentences text) -> s <> [] /\ strip s = s)
    /\ content (concat (split_into_sentences text)) = content text
    /\ (content text = [] -> split_into_sentences text = []).
Proof.
  intros text.
  assert (Ht : Forall tight (split_into_sentences text))
    by apply trimmed_pieces_tight.
  split; [|split].
  - intros s Hin. rewrite Forall_forall in Ht. specialize (Ht s Hin).
    split; [exact (proj1 Ht)|now apply tight_strip].
  - apply split_into_sentences_content.
  - intros Hc. pose proof (split_into_sentences_content text) as H.
    rewrite Hc in H.
    destruct (split_into_sentences text) as [|s l]; [reflexivity|].
    exfalso. apply Forall_cons_iff in Ht as [(Hne & Hl & _) _].
    apply (drop_space_fixed_iff s Hne) in Hl.
    destruct Hl as (c & r & -> & Hcs).
    cbn [concat app] in H. rewrite (content_cons_other _ Hcs) in H.
    discriminate H.
Qed.

(** X4.  Every sentence but the last ends with [.], [!] or [?], and no
    sentence can be split again: splitting a sentence gives back that
    sentence alone. *)
Theorem sentences_end_with_punctuation_and_are_whole :
  forall text : str,
    (forall a s b,
        split_into_sentences text = a ++ s :: b -> b <> [] ->
        exists r p, s = r ++ [p] /\ is_punct p = true)
    /\ (forall s,
          In s (split_into_sentences text) -> split_into_sentences s = [s]).
Proof.
  intros text. split.
  - intros a s b E Hb.
    pose proof (trimmed_pieces_end_with_punct (split_after_punct text)
                  (pieces_end_with_punct text false false []
                     ltac:(discriminate))) as H.
    fold (split_into_sentences text) in H. rewrite E in H.
    rewrite removelast_app in H by discriminate.
    apply Forall_app in H as [_ H].
    destruct b as [|y b]; [congruence|].
    change (removelast (s :: y :: b)) with (s :: removelast (y :: b)) in H.
    apply Forall_cons_iff in H as [H _].
    apply ends_punct_from_last in H.
    destruct H as [[_ H]|H]; [discriminate|exact H].
  - intros s Hin.
    assert (Hnb : no_break_from false s = true).
    { unfold split_into_sentences in Hin. apply in_map_iff in Hin.
      destruct Hin as (x & <- & Hx). apply filter_In in Hx as [Hx _].
      apply no_break_strip.
      pose proof (pieces_no_break text false false [] eq_refl
                    ltac:(reflexivity)) as H.
      rewrite Forall_forall in H. now apply H. }
    assert (Ht : tight s).
    { pose proof (trimmed_pieces_tight (split_after_punct text)) as H.
      rewrite Forall_forall in H. now apply H. }
    unfold split_into_sentences, split_after_punct.
    rewrite (split_after_punct_from_whole s false [] eq_refl Hnb).
    cbn [rev app filter]. rewrite (tight_strip s Ht).
    destruct Ht as (Hne & _). apply truthy_true in Hne. rewrite Hne.
    cbn [map]. rewrite tight_strip; [reflexivity|].
    pose proof (trimmed_pieces_tight (split_after_punct text)) as H.
    rewrite Forall_forall in H. now apply H.
Qed.

(** ** The segmenter at the ends of its range *)

Module SegmenterEdgeFacts.

Lemma len_nonneg s : (0 <= len s)%Z.
Proof. unfold len. lia. Qed.

Lemma len_tight s : tight s -> (1 <= len s)%Z.
Proof. intros (Hne & _). destruct s; [congruence|]. unfold len. simpl. lia. Qed.

Lemma len_snoc_sep a sep : len (a ++ sep) = (len a + len sep)%Z.
Proof. apply len_app. Qed.

(** *** A target of zero or less *)

Section Nonpositive.

Variable target_length : Z.
Hypothesis Htarget : (- 2 ^ 51 < target_length <= 0)%Z.

Lemma very_long_tight p : tight p -> very_long target_length p = Ok true.
Proof.
  intros Hp. pose proof (len_tight p Hp).
  rewrite very_long_exact by lia. f_equal. apply Z.gtb_lt. lia.
Qed.

(** Every unit after the first flushes the one before it. *)
Lemma sentences_flush (l : list str) :
  Forall tight l ->
  forall segs b,
    tight b ->
    fold_left (accumulate target_length [SP]) l (segs, b ++ [SP])
    = (segs ++ removelast (b :: l), last (b :: l) [] ++ [SP]).
Proof.
  induction 1 as [|x l Hx _ IH]; intros segs b Hb.
  - cbn [fold_left removelast last]. now rewrite app_nil_r.
  - cbn [fold_left]. unfold accumulate at 2.
    assert (E : (len (b ++ [SP]) + len x >? target_length)%Z = true).
    { apply Z.gtb_lt. rewrite len_app. pose proof (len_tight b Hb).
      pose proof (len_nonneg x). unfold len at 2. simpl. lia. }
    assert (T : truthy (b ++ [SP]) = true) by now destruct b.
    rewrite E, T. cbn [andb].
    rewrite (strip_tight_app b [SP] Hb eq_refl).
    rewrite (IH _ x Hx).
    change (removelast (b :: x :: l)) with (b :: removelast (x :: l)).
    change (last (b :: x :: l) []) with (last (x :: l) []).
    now rewrite <- app_assoc.
Qed.

Lemma sentences_fold (l : list str) :
  Forall tight l ->
  finish (fold_left (accumulate target_length [SP]) l ([], [])) = l.
Proof.
  intros H. destruct H as [|x l Hx Hl]; [reflexivity|].
  cbn [fold_left]. unfold accumulate at 2. rewrite andb_false_r.
  cbn [app]. rewrite (sentences_flush l Hl [] x Hx). cbn [app].
  unfold finish.
  assert (Hlast : tight (last (x :: l) [])).
  { assert (Hall : Forall tight (x :: l)) by now constructor.
    rewrite Forall_forall in Hall. apply Hall.
    destruct (@exists_last _ (x :: l) ltac:(discriminate)) as (r & z & E).
    rewrite E, last_last. apply in_or_app. right. now left. }
  rewrite (strip_tight_app _ [SP] Hlast eq_refl).
  destruct Hlast as (Hne & _). apply truthy_true in Hne. rewrite Hne.
  symmetry. apply app_removelast_last. discriminate.
Qed.

Lemma fold_sentences_of_paragraphs (paragraphs : list str) :
  Forall tight paragraphs ->
  forall st,
    for_in (add_paragraph target_length) paragraphs st
    = Ok (fold_left (accumulate target_length [SP])
            (flat_map split_into_sentences paragraphs) st).
Proof.
  induction 1 as [|p l Hp _ IH]; intros st; [reflexivity|].
  cbn [for_in flat_map]. rewrite fold_left_app.
  unfold add_paragraph at 1. rewrite (very_long_tight p Hp). apply IH.
Qed.

End Nonpositive.

(** *** A text that fits the target *)

(** The lengths of the paragraphs, two more for each. *)
Fixpoint weight (l : list str) : Z :=
  match l with
  | [] => 0
  | p :: l' => len p + 2 + weight l'
  end.

Lemma weight_nonneg l : (0 <= weight l)%Z.
Proof.
  induction l as [|p l IH]; simpl; [lia|]. pose proof (len_nonneg p). lia.
Qed.

Lemma starts_with_length p s :
  starts_with p s = true -> (length p <= length s)%nat.
Proof.
  revert s. induction p as [|a p IH]; intros [|b s]; simpl;
    try discriminate; try lia.
  intros H. apply andb_true_iff in H as [_ H]. apply IH in H. lia.
Qed.

Lemma weight_split_from s :
  forall skip cur,
    (skip <= length s)%nat ->
    weight (split_from [NL; NL] skip cur s)
    = (len cur + len s - Z.of_nat skip + 2)%Z.
Proof.
  induction s as [|c s IH]; intros skip cur Hskip; cbn [split_from].
  - cbn [length] in Hskip. assert (skip = 0)%nat as -> by lia.
    cbn [weight]. unfold len. rewrite length_rev. simpl. lia.
  - destruct skip as [|k].
    + destruct (starts_with [NL; NL] (c :: s)) eqn:E.
      * apply starts_with_length in E. cbn [length] in E.
        cbn [weight]. rewrite IH by (cbn [length]; lia).
        unfold len. rewrite length_rev. cbn [length]. lia.
      * rewrite IH by lia. unfold len. cbn [length]. lia.
    + cbn [length] in Hskip. rewrite IH by lia.
      unfold len. cbn [length]. lia.
Qed.

Lemma length_drop_space s : (length (drop_space s) <= length s)%nat.
Proof.
  induction s as [|x s IH]; simpl; [lia|].
  destruct (isspace x); simpl; lia.
Qed.

Lemma len_strip s : (len (strip s) <= len s)%Z.
Proof.
  unfold strip, rstrip, lstrip, len. rewrite length_rev.
  pose proof (length_drop_space (rev (drop_space s))) as H1.
  rewrite length_rev in H1.
  pose proof (length_drop_space s). lia.
Qed.

Lemma weight_trimmed_pieces (l : list str) :
  (weight (map strip (filter (fun x => truthy (strip x)) l)) <= weight l)%Z.
Proof.
  induction l as [|x l IH]; simpl; [lia|].
  pose proof (len_nonneg x). pose proof (len_strip x).
  destruct (truthy (strip x)); simpl; lia.
Qed.

Lemma weight_paragraphs text :
  (weight (paragraphs_of text) <= len text + 2)%Z.
Proof.
  unfold paragraphs_of.
  pose proof (weight_trimmed_pieces (split [NL; NL] text)) as H.
  unfold split in *. rewrite (weight_split_from text 0 []) in H by lia.
  eapply Z.le_trans; [exact H|]. change (len []) with 0%Z. simpl. lia.
Qed.

(** Paragraphs that fit together are never flushed. *)
Lemma paragraphs_accumulate target_length (paragraphs : list str) :
  (target_length < 2 ^ 51)%Z ->
  Forall tight paragraphs ->
  forall cur,
    (len cur + weight paragraphs <= target_length + 2)%Z ->
    for_in (add_paragraph target_length) paragraphs ([], cur)
    = Ok ([], cur ++ concat (map (fun p => p ++ [NL; NL]) paragraphs)).
Proof.
  intros Hfloat. induction 1 as [|p l Hp _ IH]; intros cur Hfit.
  - cbn [for_in map concat]. now rewrite app_nil_r.
  - cbn [weight] in Hfit. pose proof (weight_nonneg l).
    pose proof (len_tight p Hp). pose proof (len_nonneg cur).
    cbn [for_in]. unfold add_paragraph at 1.
    assert (V : very_long target_length p = Ok false).
    { rewrite very_long_exact by lia. f_equal.
      destruct (Z.gtb_spec (2 * len p) (3 * target_length));
        [lia|reflexivity]. }
    rewrite V. unfold accumulate.
    assert (E : (len cur + len p >? target_length)%Z = false).
    { destruct (Z.gtb_spec (len cur + len p) target_length);
        [lia|reflexivity]. }
    rewrite E. cbn [andb]. rewrite IH.
    + cbn [map concat]. now rewrite <- !app_assoc.
    + rewrite !len_app. unfold len at 3. simpl. lia.
Qed.

Lemma joined_paragraphs p (l : list str) :
  tight p -> Forall tight l ->
  concat (map (fun x => x ++ [NL; NL]) (p :: l))
  = join [NL; NL] (p :: l) ++ [NL; NL]
  /\ tight (join [NL; NL] (p :: l)).
Proof.
  intros Hp Hl. revert p Hp. induction Hl as [|y l Hy _ IH]; intros p Hp.
  - cbn [map concat join]. now rewrite app_nil_r.
  - destruct (IH y Hy) as [E T].
    change (join [NL; NL] (p :: y :: l))
      with (p ++ [NL; NL] ++ join [NL; NL] (y :: l)).
    split.
    + change (concat (map (fun x => x ++ [NL; NL]) (p :: y :: l)))
        with ((p ++ [NL; NL])
              ++ concat (map (fun x => x ++ [NL; NL]) (y :: l))).
      rewrite E. now rewrite <- !app_assoc.
    + now apply tight_app.
Qed.

End SegmenterEdgeFacts.

Import SegmenterEdgeFacts.

(** X5.  With a target length of zero or less, down to [- 2 ^ 51], the
    segmenter returns, every paragraph counts as very long and every
    sentence flushes the one before it: the segments are exactly the
    sentences of the paragraphs of the normalized text, one sentence per
    segment, in order. *)
Theorem nonpositive_target_gives_one_sentence_per_segment :
  forall (text : str) (target_length : Z),
    (- 2 ^ 51 < target_length <= 0)%Z ->
    intelligent_text_splitting text target_length
    = Ok (flat_map split_into_sentences (paragraphs_of (clean_text text))).
Proof.
  intros text target_length Htarget. unfold intelligent_text_splitting.
  assert (Hp : Forall tight (paragraphs_of (clean_text text)))
    by apply trimmed_pieces_tight.
  cbv zeta.
  rewrite (fold_sentences_of_paragraphs target_length Htarget _ Hp).
  f_equal. apply sentences_fold; [lia|].
  apply Forall_flat_map. apply Forall_forall. intros p _.
  apply trimmed_pieces_tight.
Qed.

Lemma nonpositive_target_gives_one_sentence_per_segment_witness :
  intelligent_text_splitting
    (lit "One. Two  two !" ++ [NL; NL] ++ lit "Three?") 0
  = Ok [lit "One."; lit "Two two!"; lit "Three?"].
Proof.
  rewrite nonpositive_target_gives_one_sentence_per_segment by lia.
  vm_compute. reflexivity.
Defined.

(** X6.  A text whose normalized form is no longer than the target, for a
    target below [2 ^ 51], is never split: the segmenter returns the empty
    list when the text has no paragraph, and otherwise the one segment
    made of its paragraphs with a blank line between them. *)
Theorem text_within_target_is_one_segment :
  forall (text : str) (target_length : Z),
    (len (clean_text text) <= target_length < 2 ^ 51)%Z ->
    intelligent_text_splitting text target_length
    = Ok match paragraphs_of (clean_text text) with
         | [] => []
         | p :: rest => [join [NL; NL] (p :: rest)]
         end.
Proof.
  intros text target_length [Hfit Hfloat].
  unfold intelligent_text_splitting.
  assert (Hp : Forall tight (paragraphs_of (clean_text text)))
    by apply trimmed_pieces_tight.
  pose proof (weight_paragraphs (clean_text text)) as Hw.
  pose proof (paragraphs_accumulate target_length _ Hfloat Hp []) as R.
  cbn [app] in R. cbv zeta.
  etransitivity;
    [apply (f_equal (fun o : outcome acc =>
                       match o with
                       | Ok st => Ok (finish st)
                       | Raise e => Raise e
                       end)), R; change (len []) with 0%Z; lia|].
  f_equal.
  destruct (paragraphs_of (clean_text text)) as [|p rest];
    [reflexivity|].
  apply Forall_cons_iff in Hp as [Hp Hrest].
  destruct (joined_paragraphs p rest Hp Hrest) as [E T].
  rewrite E. unfold finish.
  rewrite (strip_tight_app _ [NL; NL] T eq_refl).
  destruct T as (Hne & _). apply truthy_true in Hne. now rewrite Hne.
Qed.

Lemma text_within_target_is_one_segment_witness :
  intelligent_text_splitting
    (lit "Hello  there ." ++ [NL; NL; NL] ++ lit "Bye") 250
  = Ok [lit "Hello there." ++ [NL; NL] ++ lit "Bye"].
Proof.
  rewrite text_within_target_is_one_segment
    by (split; [vm_compute; discriminate|reflexivity]).
  vm_compute. reflexivity.
Defined.

(** ** One synthesis request *)

Module AudioFacts.

(** The preset of a style: its own, or the neutral one. *)
Definition preset_of (voice_style : str) : dict value :=
  dict_get_default VOICE_PRESETS voice_style neutral_preset.

Lemma dict_get_update {V} (other d : dict V) k :
  NoDup (keys other) ->
  dict_get (dict_update d other) k
  = match dict_get other k with
    | Some v => Some v
    | None => dict_get d k
    end.
Proof.
  unfold dict_update. revert d.
  induction other as [|[k0 v0] other IH]; intros d Hnd; [reflexivity|].
  cbn [fold_left fst snd dict_get]. cbn [keys map fst] in Hnd.
  apply NoDup_cons_iff in Hnd as [Hfresh Hnd].
  rewrite (IH _ Hnd). destruct (Str.eqb k0 k) eqn:E.
  - apply eqb_eq in E. subst k0.
    apply dict_get_none_keys in Hfresh. rewrite Hfresh.
    apply dict_get_set_same.
  - apply eqb_neq in E. now rewrite dict_get_set_other.
Qed.

Lemma keys_dict_update {V} (other d : dict V) k :
  In k (keys (dict_update d other)) <-> In k (keys d) \/ In k (keys other).
Proof.
  unfold dict_update. revert d.
  induction other as [|[k0 v0] other IH]; intros d.
  - cbn [fold_left keys map]. simpl. tauto.
  - cbn [fold_left fst snd]. rewrite IH, keys_dict_set.
    cbn [keys map fst In]. intuition.
Qed.

Lemma preset_of_has_no_prompt voice_style :
  dict_get (preset_of voice_style) (lit "audio_prompt_path") = None.
Proof.
  unfold preset_of, dict_get_default, VOICE_PRESETS. cbn [dict_get].
  destruct (Str.eqb (lit "neutral") voice_style); [reflexivity|].
  destruct (Str.eqb (lit "calm") voice_style); reflexivity.
Qed.

Section WithEnv.

Variable env : Env.
Variable self : AudioGenerator.obj env.

(** Up to the call of the model: the preset, then the custom
    parameters of a dictionary. *)
Lemma generate_segment_audio_params text voice_style audio_prompt_path
    (other : dict value) t :
  AudioGenerator.generate_segment_audio self text (VStr voice_style)
    audio_prompt_path (VDict other) t
  = (if truthy_value audio_prompt_path then
       match dict_get (dict_update (preset_of voice_style) other)
               (lit "audio_prompt_path") with
       | Some _ => raise TypeError
       | None =>
           act (Generate text (Some audio_prompt_path)
                  (dict_update (preset_of voice_style) other))
             (fun t0 => generate env t0 (AudioGenerator.model self) text
                          (Some audio_prompt_path)
                          (dict_update (preset_of voice_style) other))
       end
     else
       act (Generate text None (dict_update (preset_of voice_style) other))
         (fun t0 => generate env t0 (AudioGenerator.model self) text None
                      (dict_update (preset_of voice_style) other))) t.
Proof.
  unfold AudioGenerator.generate_segment_audio.
  unfold bind at 1.
  change (AudioGenerator.getitem VOICE_PRESETS (lit "neutral") t)
    with (@Ok (dict value) neutral_preset, t).
  cbv iota beta. unfold bind at 1.
  change (Methods.lookup VOICE_PRESETS (VStr voice_style) neutral_preset t)
    with (@Ok (dict value) (preset_of voice_style), t).
  cbv iota beta. unfold bind at 1.
  destruct other as [|kv other]; reflexivity.
Qed.

Lemma generate_segment_audio_request text voice_style audio_prompt_path
    (other : dict value) t :
  (truthy_value audio_prompt_path = true ->
   dict_get other (lit "audio_prompt_path") = None) ->
  AudioGenerator.generate_segment_audio self text (VStr voice_style)
    audio_prompt_path (VDict other) t
  = (generate env t (AudioGenerator.model self) text
       (prompt_argument audio_prompt_path)
       (dict_update (preset_of voice_style) other),
     t ++ [Generate text (prompt_argument audio_prompt_path)
             (dict_update (preset_of voice_style) other)]).
Proof.
  intros Hkey. rewrite generate_segment_audio_params.
  unfold prompt_argument. destruct (truthy_value audio_prompt_path).
  - rewrite dict_get_update_none; [reflexivity| |now apply Hkey].
    apply preset_of_has_no_prompt.
  - reflexivity.
Qed.

End WithEnv.

End AudioFacts.

Import AudioFacts.

(** X7.  Custom parameters given as a dictionary override the preset key
    by key: the request that reaches the model carries, for every key of
    the custom parameters, the custom value, and for every other key the
    value of the preset of the style.  Exactly one request is made, and the
    outcome of the call is the outcome of that request. *)
Theorem custom_parameters_override_the_preset :
  forall (env : Env) (self : AudioGenerator.obj env) (text voice_style : str)
         (audio_prompt_path : value) (other : dict value) (t : trace),
    NoDup (keys other) ->
    (truthy_value audio_prompt_path = true ->
     dict_get other (lit "audio_prompt_path") = None) ->
    exists params,
      AudioGenerator.generate_segment_audio self text (VStr voice_style)
        audio_prompt_path (VDict other) t
      = (generate env t (AudioGenerator.model self) text
           (prompt_argument audio_prompt_path) params,
         t ++ [Generate text (prompt_argument audio_prompt_path) params])
      /\ (forall k v, dict_get other k = Some v -> dict_get params k = Some v)
      /\ (forall k,
            dict_get other k = None ->
            dict_get params k = dict_get (preset_of voice_style) k).
Proof.
  intros env self text voice_style ap other t Hnd Hkey.
  exists (dict_update (preset_of voice_style) other).
  split; [now apply generate_segment_audio_request|].
  split; intros k; [intros v|]; intros H;
    now rewrite (dict_get_update other _ k Hnd), H.
Qed.

Lemma custom_parameters_override_the_preset_witness :
  generate_calls
    (snd (AudioGenerator.generate_segment_audio quiet_generator
            (lit "Hello.") (VStr (lit "calm")) VNone
            (VDict [(lit "cfg_weight", VFloat 0.2);
                    (lit "temperature", VFloat 0.8)]) []))
  = [(lit "Hello.", None,
      [(lit "exaggeration", VFloat 0.3); (lit "cfg_weight", VFloat 0.2);
       (lit "temperature", VFloat 0.8)])].
Proof.
  destruct (custom_parameters_override_the_preset quiet_env quiet_generator
              (lit "Hello.") (lit "calm") VNone
              [(lit "cfg_weight", VFloat 0.2);
               (lit "temperature", VFloat 0.8)] [])
    as (params & Hrun & _).
  - repeat constructor; simpl; intuition discriminate.
  - discriminate.
  - rewrite Hrun. vm_compute in Hrun. injection Hrun as <-.
    vm_compute. reflexivity.
Defined.

(** X8.  When an audio prompt is passed and the custom parameters
    themselves have the key [audio_prompt_path], the call of the model
    would receive that keyword twice: [generate_segment_audio] raises
    [TypeError] and no request reaches the model. *)
Theorem prompt_given_twice_raises_type_error :
  forall (env : Env) (self : AudioGenerator.obj env) (text voice_style : str)
         (audio_prompt_path v : value) (other : dict value) (t : trace),
    truthy_value audio_prompt_path = true ->
    dict_get other (lit "audio_prompt_path") = Some v ->
    AudioGenerator.generate_segment_audio self text (VStr voice_style)
      audio_prompt_path (VDict other) t
    = (Raise TypeError, t).
Proof.
  intros env self text voice_style ap v other t Hap Hkey.
  rewrite generate_segment_audio_params, Hap.
  destruct (dict_get (dict_update (preset_of voice_style) other)
              (lit "audio_prompt_path")) eqn:E; [reflexivity|].
  exfalso. apply dict_get_none_keys in E. apply E.
  apply keys_dict_update. right.
  destruct (dict_get other (lit "audio_prompt_path")) eqn:Eo;
    [|discriminate].
  intros. assert (Hn : dict_get other (lit "audio_prompt_path") <> None)
    by congruence.
  destruct (in_dec (list_eq_dec N.eq_dec) (lit "audio_prompt_path")
              (keys other)) as [Hin|Hout]; [exact Hin|].
  apply dict_get_none_keys in Hout. congruence.
Qed.

Lemma prompt_given_twice_raises_type_error_witness :
  AudioGenerator.generate_segment_audio quiet_generator (lit "Hello.")
    (VStr (lit "neutral")) (VStr (lit "voice.wav"))
    (VDict [(lit "audio_prompt_path", VStr (lit "other.wav"))]) []
  = (Raise TypeError, []).
Proof.
  apply (prompt_given_twice_raises_type_error quiet_env quiet_generator
           (lit "Hello.") (lit "neutral") (VStr (lit "voice.wav"))
           (VStr (lit "other.wav"))); reflexivity.
Defined.

(** ** From a text file to audio files *)

Module PipelineFacts.

(** The audio prompt that auto-ingestion records in the settings. *)
Definition ingested_prompt (kw : kwargs) : option value :=
  match global_audio_prompt kw with
  | Some p => if truthy p then Some (VStr p) else None
  | None => None
  end.

(** The synthesis requests for the segments, the first of which stands at
    position [i]: the text, the prompt and the preset of the style that
    the pattern gives the position. *)
Fixpoint requests (pattern : list str) (prompt : option value) (i : nat)
    (segments : list str) : list (str * option value * dict value) :=
  match segments with
  | [] => []
  | text :: rest =>
      (text, prompt, preset_of (resolved_style pattern i))
      :: requests pattern prompt (S i) rest
  end.

Definition stored_fields (pattern : list str) (i : nat) (text : str)
  : dict value :=
  if Str.eqb (resolved_style pattern i) (lit "neutral")
  then [(lit "text", VStr (strip text))]
  else [(lit "text", VStr (strip text));
        (lit "voice_style", VStr (resolved_style pattern i))].

Lemma stored_segment_fields pattern i text :
  stored_segment pattern i text = VDict (stored_fields pattern i text).
Proof. reflexivity. Qed.

Lemma stored_text pattern i text :
  dict_get_default (stored_fields pattern i text) (lit "text") (VStr [])
  = VStr (strip text).
Proof.
  unfold stored_fields.
  now destruct (Str.eqb (resolved_style pattern i) (lit "neutral")).
Qed.

Lemma stored_style pattern i text kw :
  effective_voice_style (stored_fields pattern i text) (settings_of kw)
  = VStr (resolved_style pattern i).
Proof.
  unfold stored_fields, effective_voice_style.
  destruct (Str.eqb (resolved_style pattern i) (lit "neutral")) eqn:E.
  - apply eqb_eq in E. rewrite E. unfold settings_of.
    destruct (global_audio_prompt kw) as [p|]; [destruct (truthy p)|];
      reflexivity.
  - reflexivity.
Qed.

Lemma stored_prompt pattern i text kw :
  prompt_argument
    (effective_audio_prompt (stored_fields pattern i text) (settings_of kw))
  = ingested_prompt kw.
Proof.
  unfold stored_fields, effective_audio_prompt, settings_of, ingested_prompt,
    prompt_argument.
  destruct (Str.eqb (resolved_style pattern i) (lit "neutral"));
    (destruct (global_audio_prompt kw) as [p|];
     [destruct (truthy p) eqn:Ep|]); cbn [dict_get]; try reflexivity;
    change (Str.eqb (lit "text") (lit "audio_prompt")) with false;
    change (Str.eqb (lit "voice_style") (lit "audio_prompt")) with false;
    change (Str.eqb (lit "audio_prompt") (lit "audio_prompt")) with true;
    cbv iota; cbn [truthy_value]; now rewrite ?Ep.
Qed.

Lemma stored_overrides pattern i text :
  dict_get_default (stored_fields pattern i text) (lit "tts_params")
    (VDict [])
  = VDict [].
Proof.
  unfold stored_fields.
  now destruct (Str.eqb (resolved_style pattern i) (lit "neutral")).
Qed.

Section WithEnv.

Variable env : Env.
Variable self : StoryNarrator.obj env.

(** One stored segment: one request, one file. *)
Lemma stored_segment_run kw name count i text gf t files t' :
  tight text ->
  StoryNarrator.process_segment self (VDict (settings_of kw)) name count i
    (stored_segment (pattern_of kw) i text) gf t = (Ok files, t') ->
  files = gf ++ [segment_path self name i]
  /\ saved_paths t' = saved_paths t ++ [segment_path self name i]
  /\ generate_calls t'
     = generate_calls t
       ++ [(text, ingested_prompt kw,
            preset_of (resolved_style (pattern_of kw) i))].
Proof.
  intros Htight H. rewrite stored_segment_fields in H.
  pose proof (tight_strip text Htight) as Hs.
  assert (Hns : truthy (strip (strip text)) = true).
  { rewrite !Hs. apply truthy_true. exact (proj1 Htight). }
  rewrite (process_segment_with_text env self (settings_of kw)
             (stored_fields (pattern_of kw) i text) name count i
             (strip text) gf t (stored_text _ _ _) Hns) in H.
  unfold narrate_segment in H.
  rewrite stored_style, stored_overrides in H.
  open_bind H. unfold print, emit in E. injection E as _ <-.
  open_bind H. unfold StoryNarrator.generate_segment_audio in E.
  rewrite generate_segment_audio_request in E by reflexivity.
  rewrite stored_prompt in E. injection E as _ <-.
  open_bind H. unfold AudioGenerator.save_audio, act in E.
  injection E as _ <-.
  open_bind H. unfold print, emit in E. injection E as _ <-.
  unfold ret in H. injection H as <- <-.
  split; [reflexivity|]. rewrite Hs.
  rewrite !saved_paths_app, !generate_calls_app. cbn.
  rewrite !app_nil_r. split; reflexivity.
Qed.

Lemma stored_segments_run kw name count segments :
  Forall tight segments ->
  forall i gf t files t',
    for_enumerate
      (StoryNarrator.process_segment self (VDict (settings_of kw)) name
         count)
      i (stored_segments (pattern_of kw) i segments) gf t
    = (Ok files, t') ->
    files = gf ++ map (segment_path self name) (seq i (length segments))
    /\ saved_paths t'
       = saved_paths t
         ++ map (segment_path self name) (seq i (length segments))
    /\ generate_calls t'
       = generate_calls t
         ++ requests (pattern_of kw) (ingested_prompt kw) i segments.
Proof.
  induction 1 as [|x rest Hx _ IH]; intros i gf t files t' H.
  - cbn in H. unfold ret in H. injection H as <- <-.
    cbn. now rewrite !app_nil_r.
  - cbn [stored_segments for_enumerate] in H. open_bind H.
    apply (stored_segment_run kw name count i x gf t _ _ Hx) in E.
    destruct E as (-> & Hs1 & Hg1).
    apply IH in H. destruct H as (-> & Hs2 & Hg2).
    cbn [length seq map requests].
    rewrite Hs2, Hs1, Hg2, Hg1, <- !app_assoc. repeat split.
Qed.

(** The document that auto-ingestion builds, narrated. *)
Lemma built_story_run path kw segments name t files t' :
  Forall tight segments ->
  StoryNarrator.process_war_story self
    (VDict (built_story env path kw segments)) name t = (Ok files, t') ->
  files = map (segment_path self name) (seq 0 (length segments))
  /\ saved_paths t' = saved_paths t ++ files
  /\ generate_calls t'
     = generate_calls t
       ++ requests (pattern_of kw) (ingested_prompt kw) 0 segments.
Proof.
  intros Htight H.
  unfold StoryNarrator.process_war_story, Methods.get in H.
  unfold bind at 1 in H. unfold ret at 1 in H.
  change (dict_get_default (built_story env path kw segments)
            (lit "segments") (VList []))
    with (VList (stored_segments (pattern_of kw) 0 segments)) in H.
  unfold bind at 1 in H. unfold ret at 1 in H.
  change (dict_get_default (built_story env path kw segments)
            (lit "settings") (VDict []))
    with (VDict (settings_of kw)) in H.
  unfold bind at 1 in H. unfold ret at 1 in H.
  open_bind H. unfold print, emit in E. injection E as _ <-.
  unfold Methods.len in H. unfold bind at 1 in H. unfold ret at 1 in H.
  open_bind H. unfold print, emit in E. injection E as _ <-.
  unfold Methods.iter in H. unfold bind at 1 in H. unfold ret at 1 in H.
  open_bind H.
  apply (stored_segments_run kw name _ _ Htight) in E.
  destruct E as (-> & Hsaved & Hcalls).
  unfold bind at 1 in H. unfold ret at 1 in H.
  open_bind H. unfold ret in H. injection H as <- <-.
  match goal with
  | E : _ ?ta = (Ok _, ?tb) |- _ =>
      assert (Hc : saved_paths tb = saved_paths ta
                   /\ generate_calls tb = generate_calls ta);
      [ destruct (truthy_value _ && _);
        [ unfold AudioGenerator.concatenate_segments in E;
          unfold bind, print, emit, act in E;
          destruct (concatenate _ _ _ _ _ _); [|discriminate E];
          injection E as _ <-;
          rewrite !saved_paths_app, !generate_calls_app; simpl;
          now rewrite !app_nil_r
        | unfold ret in E; now injection E as _ <- ]
      | destruct Hc as [Hc1 Hc2]; rewrite Hc1, Hc2 ]
  end.
  rewrite Hsaved, Hcalls, !saved_paths_app, !generate_calls_app. simpl.
  rewrite !app_nil_r. repeat split.
Qed.

End WithEnv.

End PipelineFacts.

Import PipelineFacts.

(** X9.  When [process_text_file_directly] returns, it has made exactly
    one synthesis request and saved exactly one file for every segment
    that the segmenter cut from the text it read, in order and with no
    gap: the file of the segment at 0-based position [i] is number
    [i + 1], and its request carries the text of the segment, the global
    audio prompt when one was given, and the preset of the style that the
    pattern gives position [i]. *)
Theorem text_file_gives_one_file_per_segment :
  forall (env : Env) (self : StoryNarrator.obj env) (text_file_path : str)
         (story_name : option str) (kw : kwargs) (t t' : trace)
         (files : list str),
    StoryNarrator.process_text_file_directly self text_file_path story_name
      kw t = (Ok files, t') ->
    exists text_content segments,
      read_text env (t ++ [reading_line env text_file_path]) text_file_path
      = Ok text_content
      /\ intelligent_text_splitting text_content (target_segment_length kw)
         = Ok segments
      /\ files
         = map (fun i =>
                  path_join env (StoryNarrator.output_dir self)
                    (match story_name with
                     | None => path_stem env text_file_path
                     | Some n => n
                     end ++ lit "_segment_" ++ format_03d (i + 1)
                     ++ lit ".wav"))
             (seq 0 (length segments))
      /\ saved_paths t' = saved_paths t ++ files
      /\ generate_calls t'
         = generate_calls t
           ++ requests (pattern_of kw) (ingested_prompt kw) 0 segments.
Proof.
  intros env self path story_name kw t t' files H.
  unfold StoryNarrator.process_text_file_directly,
    StoryNarrator.auto_ingest_text_file in H.
  open_bind H. apply auto_ingest_ok in E.
  destruct E as (text_content & text & Hread & Hsplit & -> & ->).
  exists text_content, text. split; [exact Hread|].
  split; [exact Hsplit|].
  assert (Htight : Forall tight text).
  { destruct (splitting_invariant _ _ _ Hsplit) as [Hall _].
    eapply Forall_impl; [|exact Hall]. intros s Hs. exact (proj1 Hs). }
  apply (built_story_run _ _ _ _ _ _ _ _ _ Htight) in H.
  destruct H as (Hf & Hs & Hg).
  split; [exact Hf|].
  assert (Hquiet : forall d,
             (forall e, In e d -> match e with
                                  | Print _ | WriteText _ _ => True
                                  | _ => False
                                  end) ->
             saved_paths (t ++ d) = saved_paths t
             /\ generate_calls (t ++ d) = generate_calls t).
  { intros d Hd. rewrite saved_paths_app, generate_calls_app.
    assert (saved_paths d = [] /\ generate_calls d = []) as [-> ->].
    { induction d as [|e d IH]; [now split|].
      destruct IH as [IH1 IH2].
      { intros e0 He0. apply Hd. now right. }
      specialize (Hd e (or_introl eq_refl)).
      destruct e; try contradiction; cbn; now rewrite ?IH1, ?IH2. }
    now rewrite !app_nil_r. }
  destruct (Hquiet (ingest_lines env path kw text
                    ++ writing env kw (built_story env path kw text)))
    as [Hq1 Hq2].
  { intros e He. apply in_app_or in He as [He|He].
    - unfold ingest_lines in He. cbn [In] in He.
      unfold reading_line in He.
      destruct He as [<-|[<-|[<-|[]]]]; exact I.
    - unfold writing in He. destruct (output_json_path kw) as [p|];
        [destruct (truthy p)|]; cbn [In] in He;
        try contradiction.
      destruct He as [<-|[<-|[]]]; exact I. }
  rewrite Hq1 in Hs. rewrite Hq2 in Hg. now split.
Qed.

Definition lone_story_narrator : StoryNarrator.obj lone_story_env :=
  StoryNarrator.Build_obj lone_story_env (lit "cpu") DEFAULT_OUTPUT_DIR
    (AudioGenerator.Build_obj lone_story_env (lit "cpu") tt).

Lemma text_file_gives_one_file_per_segment_witness :
  exists t',
    StoryNarrator.process_text_file_directly lone_story_narrator
      (lit "story.txt") None defaults []
    = (Ok [lit "voice_output/story_segment_001.wav"], t')
    /\ saved_paths t' = [lit "voice_output/story_segment_001.wav"]
    /\ generate_calls t' = [(lit "Hello there.", None, neutral_preset)].
Proof.
  destruct (StoryNarrator.process_text_file_directly lone_story_narrator
              (lit "story.txt") None defaults [])
    as [[files|e] t'] eqn:Hrun; [|vm_compute in Hrun; discriminate Hrun].
  destruct (text_file_gives_one_file_per_segment lone_story_env
              lone_story_narrator (lit "story.txt") None defaults [] t'
              files Hrun) as (text & segments & Hread & Hsplit & Hf & Hs & Hg).
  vm_compute in Hread. injection Hread as <-.
  vm_compute in Hsplit. injection Hsplit as <-.
  exists t'. rewrite Hs, Hg, Hf. vm_compute. auto.
Defined.

(** ** Auto-ingestion at its edges *)

Module IngestFacts.

Import Appends.

Definition splitting_line (kw : kwargs) : event :=
  Print [FText ([9986; 65039]%N
                ++ lit "  Splitting text into segments (target length: ");
         FValue (VInt (target_segment_length kw));
         FText (lit " chars)")].

(** What auto-ingestion may do to the world: print, and write at the
    output path it was given. *)
Definition ingest_effect (env : Env) (kw : kwargs) (e : event) : Prop :=
  match e with
  | Print _ => True
  | WriteText p _ =>
      exists out,
        output_json_path kw = Some out /\ truthy out = true
        /\ p = path_str env out
  | _ => False
  end.

Lemma adds_auto_ingest_effects env path kw :
  adds (ingest_effect env kw) (auto_ingest_text_file env path kw).
Proof.
  unfold auto_ingest_text_file.
  apply adds_bind; [apply adds_ask|]. intros found.
  destruct (negb found); [apply adds_raise|].
  apply adds_bind; [now apply adds_print|]. intros _.
  apply adds_bind; [apply adds_query|]. intros text.
  apply adds_bind; [now apply adds_print|]. intros _.
  apply adds_bind; [apply adds_lift|]. intros segments.
  apply adds_bind.
  { unfold for_each. apply (adds_for_enumerate _ (fun _ => True));
      [|apply Forall_forall; intros; exact I].
    intros i x [segs n] _. unfold add_segment, cycled.
    apply adds_bind; [|intros; apply adds_ret].
    destruct (length _); [apply adds_raise|apply adds_ret]. }
  intros st. apply adds_bind.
  { destruct (global_audio_prompt kw) as [p|]; [|apply adds_ret].
    destruct (truthy p); [|apply adds_ret].
    unfold setitem2. destruct (dict_get _ _) as [[]|];
      try apply adds_raise; apply adds_ret. }
  intros story. apply adds_bind; [now apply adds_print|]. intros _.
  apply adds_bind; [|intros; apply adds_ret].
  destruct (output_json_path kw) as [p|] eqn:Eout; [|apply adds_ret].
  destruct (truthy p) eqn:Ep; [|apply adds_ret].
  apply adds_bind.
  { destruct (dumps _); [apply adds_ret|apply adds_lift]. }
  intros json_text. apply adds_bind; [|intros _; now apply adds_print].
  apply adds_act. cbn. now exists p.
Qed.

(** Auto-ingestion on a text that gives no segment. *)
Lemma auto_ingest_no_segment :
  forall (env : Env) (text_file_path : str) (kw : kwargs) (t : trace)
         (text_content : str),
    path_exists env t text_file_path = true ->
    read_text env (t ++ [reading_line env text_file_path]) text_file_path
    = Ok text_content ->
    intelligent_text_splitting text_content (target_segment_length kw)
    = Ok [] ->
    (forall t0 p x, write_text env t0 p x = Ok tt) ->
    auto_ingest_text_file env text_file_path kw t
    = (Ok (VDict (built_story env text_file_path kw [])),
       t ++ ingest_lines env text_file_path kw []
         ++ writing env kw (built_story env text_file_path kw [])).
Proof.
  intros env path kw t text Hex Hread Hnone Hwrite.
  unfold auto_ingest_text_file.
  unfold bind at 1. unfold ask at 1. rewrite Hex. cbn [negb].
  unfold bind at 1. unfold print at 1, emit at 1.
  unfold bind at 1. fold (reading_line env path). rewrite Hread.
  unfold bind at 1. unfold print at 1, emit at 1.
  unfold bind at 1. unfold lift at 1. rewrite Hnone.
  unfold bind at 1. unfold for_each.
  fold (pattern_of kw).
  fold (title_of env path kw). fold (description_of env path kw).
  unfold built_story, ingest_lines.
  cbn [for_enumerate]. unfold ret at 1. cbn [fst length stored_segments].
  unfold bind at 1.
  match goal with
  | |- context [match global_audio_prompt kw with
                | Some p => @?f p
                | None => ?g
                end ?t0] =>
      assert (Hset : match global_audio_prompt kw with
                     | Some p => f p
                     | None => g
                     end t0
                     = (Ok [ (lit "title", VStr (title_of env path kw));
                             (lit "description",
                              VStr (description_of env path kw));
                             (lit "settings", VDict (settings_of kw));
                             (lit "create_full_audio", VBool true);
                             (lit "segments", VList []) ], t0))
  end.
  { unfold settings_of.
    destruct (global_audio_prompt kw) as [p|]; [|reflexivity].
    destruct (truthy p); [|reflexivity]. apply setitem2_settings. }
  rewrite Hset. clear Hset.
  unfold bind at 1. unfold print at 1, emit at 1.
  unfold bind at 1. unfold writing.
  destruct (output_json_path kw) as [p|].
  - destruct (truthy p).
    + unfold dumps.
      assert (Hnf : number_free
                      (VDict [ (lit "title", VStr (title_of env path kw));
                               (lit "description",
                                VStr (description_of env path kw));
                               (lit "settings", VDict (settings_of kw));
                               (lit "create_full_audio", VBool true);
                               (lit "segments", VList []) ]) = true).
      { cbn [number_free forallb snd]. unfold settings_of.
        destruct (global_audio_prompt kw) as [[|c q]|]; reflexivity. }
      rewrite Hnf.
      match goal with
      | |- context [encode 0 ?v] => remember (encode 0 v) as txt
      end.
      unfold bind at 1. unfold ret at 1.
      unfold bind at 1. unfold act at 1. rewrite Hwrite.
      unfold print, emit, ret. now rewrite <- !app_assoc.
    + unfold ret. now rewrite <- !app_assoc.
  - unfold ret. now rewrite <- !app_assoc.
Qed.

End IngestFacts.

Import IngestFacts.

(** X10.  A text file that does not exist: [auto_ingest_text_file] raises
    [FileNotFoundError] with the message [Text file not found: ] and the
    path, before it prints or reads anything;
    [process_text_file_directly] lets the exception through, with no
    effect either; and [auto_mode] checks first, so that it prints
    [File not found: ] with the path and returns normally, without making
    the output directory or loading the model. *)
Theorem missing_text_file_is_reported :
  forall (env : Env) (self : StoryNarrator.obj env) (text_file_path : str)
         (story_name voice_prompt : option str) (kw : kwargs) (device : str)
         (t : trace),
    path_exists env t text_file_path = false ->
    auto_ingest_text_file env text_file_path kw t
    = (Raise (FileNotFoundError
                (lit "Text file not found: " ++ text_file_path)), t)
    /\ StoryNarrator.process_text_file_directly self text_file_path
         story_name kw t
       = (Raise (FileNotFoundError
                   (lit "Text file not found: " ++ text_file_path)), t)
    /\ Main.auto_mode env text_file_path voice_prompt device t
       = (Ok tt, t ++ [Print [FText (10060%N :: lit " File not found: ");
                              FText text_file_path]]).
Proof.
  intros env self path story_name voice_prompt kw device t Hmissing.
  assert (H : auto_ingest_text_file env path kw t
              = (Raise (FileNotFoundError
                          (lit "Text file not found: " ++ path)), t)).
  { unfold auto_ingest_text_file, bind, ask. now rewrite Hmissing. }
  split; [exact H|]. split.
  - unfold StoryNarrator.process_text_file_directly,
      StoryNarrator.auto_ingest_text_file.
    unfold bind at 1. now rewrite H.
  - unfold Main.auto_mode. unfold bind at 1. unfold ask.
    now rewrite Hmissing.
Qed.

Lemma missing_text_file_is_reported_witness :
  Main.auto_mode lone_story_env (lit "other.txt") None (lit "cpu") []
  = (Ok tt, [Print [FText (10060%N :: lit " File not found: ");
                    FText (lit "other.txt")]])
  /\ StoryNarrator.process_text_file_directly lone_story_narrator
       (lit "other.txt") None defaults []
     = (Raise (FileNotFoundError (lit "Text file not found: other.txt")),
        []).
Proof.
  destruct (missing_text_file_is_reported lone_story_env lone_story_narrator
              (lit "other.txt") None None defaults (lit "cpu") [] eq_refl)
    as (_ & Hdirect & Hmode).
  split; [exact Hmode|exact Hdirect].
Defined.

(** X11.  An empty voice pattern.  When the text gives at least one
    segment, the choice of a style for the first one divides by zero:
    auto-ingestion raises [ZeroDivisionError] after its first two lines,
    and writes nothing.  When the text gives no segment, the pattern is
    never used and auto-ingestion returns the document, with no segment. *)
Theorem empty_pattern_fails_on_the_first_segment :
  forall (env : Env) (text_file_path : str) (kw : kwargs) (t : trace)
         (text_content : str) (segments : list str),
    voice_style_pattern kw = Some [] ->
    path_exists env t text_file_path = true ->
    read_text env (t ++ [reading_line env text_file_path]) text_file_path
    = Ok text_content ->
    intelligent_text_splitting text_content (target_segment_length kw)
    = Ok segments ->
    (segments <> [] ->
     auto_ingest_text_file env text_file_path kw t
     = (Raise ZeroDivisionError,
        t ++ [reading_line env text_file_path; splitting_line kw]))
    /\ (segments = [] ->
        (forall t0 p x, write_text env t0 p x = Ok tt) ->
        exists story_data t',
          auto_ingest_text_file env text_file_path kw t
          = (Ok (VDict story_data), t')
          /\ dict_get story_data (lit "segments") = Some (VList [])).
Proof.
  intros env path kw t text segments Hpat Hex Hread Hsplit. split.
  - intros Hsome. unfold auto_ingest_text_file.
    unfold bind at 1. unfold ask at 1. rewrite Hex. cbn [negb].
    unfold bind at 1. unfold print at 1, emit at 1.
    unfold bind at 1. fold (reading_line env path). rewrite Hread.
    unfold bind at 1. unfold print at 1, emit at 1.
    unfold bind at 1. unfold lift at 1. rewrite Hsplit.
    unfold bind at 1. rewrite Hpat.
    destruct segments as [|x rest]; [congruence|].
    rewrite add_segments_empty_pattern. unfold splitting_line.
    now rewrite <- app_assoc.
  - intros -> Hwrite.
    rewrite (auto_ingest_no_segment env path kw t text Hex Hread Hsplit
               Hwrite).
    eexists _, _. split; [reflexivity|]. reflexivity.
Qed.

Definition patternless_kwargs : kwargs :=
  {| title := None; description := None;
     target_segment_length := 250;
     voice_style_pattern := Some [];
     global_audio_prompt := None;
     output_json_path := Some (lit "story.json") |}.

Lemma empty_pattern_fails_on_the_first_segment_witness :
  fst (auto_ingest_text_file lone_story_env (lit "story.txt")
         patternless_kwargs [])
  = Raise ZeroDivisionError
  /\ forall p x,
       ~ In (WriteText p x)
           (snd (auto_ingest_text_file lone_story_env (lit "story.txt")
                   patternless_kwargs [])).
Proof.
  destruct (empty_pattern_fails_on_the_first_segment lone_story_env
              (lit "story.txt") patternless_kwargs [] (lit "Hello there.")
              [lit "Hello there."] eq_refl eq_refl eq_refl eq_refl)
    as [Hfail _].
  rewrite Hfail by discriminate.
  split; [reflexivity|]. intros p x [H|[H|[]]]; discriminate H.
Defined.

(** X12.  Whatever its outcome, auto-ingestion only prints and, at most,
    writes at the output path it was given: it never writes elsewhere,
    writes nothing when no output path is given (or an empty one), and
    never makes a directory, loads the model, or requests or saves
    audio. *)
Theorem auto_ingest_only_prints_and_writes_its_output :
  forall (env : Env) (text_file_path : str) (kw : kwargs) (t : trace),
    exists d,
      snd (auto_ingest_text_file env text_file_path kw t) = t ++ d
      /\ Forall (fun e =>
                   match e with
                   | Print _ => True
                   | WriteText p _ =>
                       exists out,
                         output_json_path kw = Some out
                         /\ truthy out = true
                         /\ p = path_str env out
                   | _ => False
                   end) d.
Proof.
  intros env path kw t.
  destruct (auto_ingest_text_file env path kw t) as [o t'] eqn:E.
  exact (adds_auto_ingest_effects env path kw t o t' E).
Qed.

(** ** One document: the complete audio, and a segment that fails *)

Module StoryFacts.

Import Appends.

(** The requests for a concatenated file in a trace, in order. *)
Definition concatenations (t : trace) : list (list str * str) :=
  flat_map (fun e => match e with
                     | Concatenate files p => [(files, p)]
                     | _ => []
                     end) t.

Lemma concatenations_app t d :
  concatenations (t ++ d) = concatenations t ++ concatenations d.
Proof. unfold concatenations. now rewrite flat_map_app. Qed.

Definition not_concatenate (e : event) : Prop :=
  match e with Concatenate _ _ => False | _ => True end.

Lemma concatenations_none d :
  Forall not_concatenate d -> concatenations d = [].
Proof.
  induction 1 as [|e d He _ IH]; [reflexivity|].
  destruct e; try contradiction; exact IH.
Qed.

(** A run that adds no event at all leaves the trace as it is. *)
Lemma adds_none_same {A} (m : M A) t o t' :
  adds (fun _ => False) m -> m t = (o, t') -> t' = t.
Proof.
  intros H E. destruct (H t o t' E) as (d & -> & Hd).
  destruct Hd as [|e d He _]; [now rewrite app_nil_r|contradiction].
Qed.

Lemma for_enumerate_app {A St} (body : nat -> A -> St -> M St) l1 l2 :
  forall start s t,
    for_enumerate body start (l1 ++ l2) s t
    = bind (for_enumerate body start l1 s)
        (fun s' => for_enumerate body (start + length l1) l2 s') t.
Proof.
  induction l1 as [|x l1 IH]; intros start s t.
  - cbn [app for_enumerate length]. unfold bind, ret.
    now rewrite Nat.add_0_r.
  - cbn [app for_enumerate length]. unfold bind.
    destruct (body start x s t) as [[s1|e] t1]; [|reflexivity].
    rewrite IH. unfold bind. now rewrite Nat.add_succ_r.
Qed.

Section WithEnv.

Variable env : Env.
Variable self : StoryNarrator.obj env.

Lemma adds_generate_segment_audio P text vs ap cp :
  (forall x p ps, P (Generate x p ps)) ->
  adds P
    (AudioGenerator.generate_segment_audio
       (StoryNarrator.audio_generator self) text vs ap cp).
Proof.
  intros HP t o t' E. apply generate_segment_audio_trace in E.
  destruct E as [[-> _]|(params & -> & _)].
  - exists []. now rewrite app_nil_r.
  - eexists. split; [reflexivity|]. repeat constructor. apply HP.
Qed.

Lemma adds_process_segment P g name count i seg gf :
  (forall l, P (Print l)) -> (forall x p ps, P (Generate x p ps)) ->
  (forall p, P (SaveAudio p)) ->
  adds P (StoryNarrator.process_segment self g name count i seg gf).
Proof.
  intros Hp Hg Hs. unfold StoryNarrator.process_segment.
  apply adds_bind; [apply adds_get|]. intros segment_text.
  apply adds_bind; [apply adds_strip|]. intros stripped.
  destruct (negb (truthy stripped)); [apply adds_ret|].
  apply adds_bind; [apply adds_get|]. intros global_style.
  apply adds_bind; [apply adds_get|]. intros voice_style.
  apply adds_bind; [apply adds_get|]. intros global_prompt.
  apply adds_bind; [apply adds_get|]. intros audio_prompt.
  apply adds_bind; [apply adds_get|]. intros custom_params.
  apply adds_bind; [now apply adds_print|]. intros _.
  apply adds_bind.
  { destruct segment_text; try apply adds_raise. apply adds_ret. }
  intros text. apply adds_bind.
  { unfold StoryNarrator.generate_segment_audio.
    now apply adds_generate_segment_audio. }
  intros w. apply adds_bind; [now apply adds_save_audio|]. intros _.
  apply adds_bind; [now apply adds_print|]. intros _. apply adds_ret.
Qed.

End WithEnv.

End StoryFacts.

Import StoryFacts.

(** X13.  When [process_war_story] returns, it has asked for the
    concatenated file exactly when [create_full_audio] is true (it is
    [True] when the document does not give it) and at least one segment
    gave a file; the request then names all the files returned, in order,
    and the path [{story_name}_complete.wav] in the output directory. *)
Theorem complete_audio_is_made_when_asked_and_possible :
  forall (env : Env) (self : StoryNarrator.obj env) (story_data : dict value)
         (story_name : str) (t t' : trace) (files : list str),
    StoryNarrator.process_war_story self (VDict story_data) story_name t
    = (Ok files, t') ->
    concatenations t'
    = concatenations t
      ++ (if truthy_value
               (dict_get_default story_data (lit "create_full_audio")
                  (VBool true))
             && match files with [] => false | _ :: _ => true end
          then [(files,
                 path_join env (StoryNarrator.output_dir self)
                   (story_name ++ lit "_complete.wav"))]
          else []).
Proof.
  intros env self d name t t' files H.
  unfold StoryNarrator.process_war_story, Methods.get in H.
  unfold bind at 1 in H. unfold ret at 1 in H.
  unfold bind at 1 in H. unfold ret at 1 in H.
  unfold bind at 1 in H. unfold ret at 1 in H.
  open_bind H. unfold print, emit in E. injection E as _ <-.
  open_bind H.
  apply (adds_none_same _ _ _ _ (Appends.adds_len _ _)) in E. subst.
  open_bind H. unfold print, emit in E. injection E as _ <-.
  open_bind H.
  apply (adds_none_same _ _ _ _ (Appends.adds_iter _ _)) in E. subst.
  open_bind H.
  match type of E with
  | for_enumerate ?body _ ?items _ _ = (Ok _, ?tb) =>
      assert (Hloop : concatenations tb = concatenations t);
      [ destruct (Appends.adds_for_enumerate not_concatenate
                    (fun _ => True) body items
                    ltac:(intros; apply adds_process_segment; intros;
                          exact I)
                    ltac:(apply Forall_forall; intros; exact I)
                    _ _ _ _ _ E) as (dl & -> & Hdl);
        rewrite !concatenations_app, (concatenations_none dl Hdl);
        cbn; now rewrite !app_nil_r
      | ]
  end.
  unfold bind at 1 in H. unfold ret at 1 in H.
  open_bind H. unfold ret in H. injection H as <- <-.
  rewrite <- Hloop.
  match goal with
  | Hc : _ ?ta = (Ok _, ?tb) |- concatenations ?tb = _ =>
      destruct (truthy_value _ && _);
      [ unfold AudioGenerator.concatenate_segments in Hc;
        unfold bind, print, emit, act in Hc;
        destruct (concatenate _ _ _ _ _ _); [|discriminate Hc];
        injection Hc as _ <-; rewrite !concatenations_app; cbn;
        now rewrite !app_nil_r
      | unfold ret in Hc; injection Hc as _ <-; now rewrite app_nil_r ]
  end.
Qed.

Lemma complete_audio_is_made_when_asked_and_possible_witness :
  concatenations
    (snd (StoryNarrator.process_war_story quiet_narrator
            (VDict gap_document) (lit "story") []))
  = [([lit "voice_output/story_segment_001.wav";
       lit "voice_output/story_segment_003.wav"],
      lit "voice_output/story_complete.wav")]
  /\ concatenations
       (snd (StoryNarrator.process_war_story quiet_narrator
               (VDict ((lit "create_full_audio", VBool false)
                       :: gap_document)) (lit "story") []))
     = [].
Proof.
  split.
  - destruct (StoryNarrator.process_war_story quiet_narrator
                (VDict gap_document) (lit "story") [])
      as [[files|e] t'] eqn:Hrun; [|vm_compute in Hrun; discriminate Hrun].
    cbn [snd].
    rewrite (complete_audio_is_made_when_asked_and_possible quiet_env
               quiet_narrator gap_document (lit "story") [] t' files Hrun).
    vm_compute in Hrun. injection Hrun as <- _. reflexivity.
  - destruct (StoryNarrator.process_war_story quiet_narrator
                (VDict ((lit "create_full_audio", VBool false)
                        :: gap_document)) (lit "story") [])
      as [[files|e] t'] eqn:Hrun; [|vm_compute in Hrun; discriminate Hrun].
    cbn [snd].
    now rewrite (complete_audio_is_made_when_asked_and_possible quiet_env
                   quiet_narrator _ (lit "story") [] t' files Hrun).
Defined.

(** X14.  [process_war_story] has no handler of its own.  When the
    segments before some segment have been narrated and the narration of
    that segment raises, [process_war_story] raises the same exception
    at that very point: the files saved so far stay, the segments after
    it are not looked at, and no concatenated file is asked for. *)
Theorem failing_segment_stops_the_story :
  forall (env : Env) (self : StoryNarrator.obj env) (story_data : dict value)
         (story_name : str) (before after : list value) (segment : value)
         (generated_files : list str) (e : exn) (t t1 t2 : trace),
    dict_get_default story_data (lit "segments") (VList [])
    = VList (before ++ segment :: after) ->
    for_enumerate
      (StoryNarrator.process_segment self
         (dict_get_default story_data (lit "settings") (VDict []))
         story_name (length (before ++ segment :: after)))
      0 before []
      (t ++ [Print [FText (lit "Processing war story: ");
                    FValue (dict_get_default story_data (lit "title")
                              (VStr (lit "Untitled")))];
             Print [FText (lit "Generating audio for ");
                    FValue (VInt (Z.of_nat
                                    (length (before ++ segment :: after))));
                    FText (lit " segments...")]])
    = (Ok generated_files, t1) ->
    StoryNarrator.process_segment self
      (dict_get_default story_data (lit "settings") (VDict []))
      story_name (length (before ++ segment :: after)) (length before)
      segment generated_files t1
    = (Raise e, t2) ->
    StoryNarrator.process_war_story self (VDict story_data) story_name t
    = (Raise e, t2).
Proof.
  intros env self d name before after seg gf e t t1 t2 Hsegs Hbefore Hseg.
  unfold StoryNarrator.process_war_story, Methods.get.
  unfold bind at 1. unfold ret at 1. rewrite Hsegs.
  unfold bind at 1. unfold ret at 1.
  unfold bind at 1. unfold ret at 1.
  unfold bind at 1. unfold print at 1, emit at 1.
  unfold Methods.len. unfold bind at 1. unfold ret at 1.
  unfold bind at 1. unfold print at 1, emit at 1.
  unfold Methods.iter. unfold bind at 1. unfold ret at 1.
  unfold bind at 1. rewrite for_enumerate_app. unfold bind at 1.
  rewrite <- app_assoc. cbn [app]. rewrite Hbefore.
  cbn [for_enumerate]. unfold bind at 1. cbn [Nat.add].
  now rewrite Hseg.
Qed.

(** A world in which the synthesis of the text [Two.] fails. *)
Definition failing_env : Env :=
  {| wav := unit; model := unit;
     path_str := fun p => p;
     path_name := fun p => p;
     path_stem := fun p => p;
     path_join := fun d f => d ++ lit "/" ++ f;
     str_title := fun s => s;
     path_exists := fun _ _ => true;
     read_text := fun _ _ => Ok [];
     write_text := fun _ _ _ => Ok tt;
     mkdir := fun _ _ => Ok tt;
     glob_json := fun _ _ => Ok [];
     json_dumps_other := fun _ => Raise TypeError;
     json_loads_other := fun _ => Raise (OtherError (lit "JSONDecodeError"));
     from_pretrained := fun _ _ => Ok tt;
     generate := fun _ _ text _ _ =>
                   if Str.eqb text (lit "Two.")
                   then Raise (OtherError (lit "RuntimeError"))
                   else Ok tt;
     save := fun _ _ _ _ => Ok tt;
     concatenate := fun _ _ _ _ _ => Ok tt |}.

Definition failing_narrator : StoryNarrator.obj failing_env :=
  StoryNarrator.Build_obj failing_env (lit "cpu") DEFAULT_OUTPUT_DIR
    (AudioGenerator.Build_obj failing_env (lit "cpu") tt).

Definition three_segments : dict value :=
  [ (lit "segments",
     VList [ VDict [(lit "text", VStr (lit "One."))];
             VDict [(lit "text", VStr (lit "Two."))];
             VDict [(lit "text", VStr (lit "Three."))] ]) ].

Lemma failing_segment_stops_the_story_witness :
  exists t',
    StoryNarrator.process_war_story failing_narrator (VDict three_segments)
      (lit "story") []
    = (Raise (OtherError (lit "RuntimeError")), t')
    /\ saved_paths t' = [lit "voice_output/story_segment_001.wav"]
    /\ map fst (map fst (generate_calls t')) = [lit "One."; lit "Two."]
    /\ concatenations t' = [].
Proof.
  eexists. split.
  - eapply (failing_segment_stops_the_story failing_env failing_narrator
              three_segments (lit "story")
              [VDict [(lit "text", VStr (lit "One."))]]
              [VDict [(lit "text", VStr (lit "Three."))]]
              (VDict [(lit "text", VStr (lit "Two."))])
              [lit "voice_output/story_segment_001.wav"]);
      [reflexivity|lazy; reflexivity|lazy; reflexivity].
  - vm_compute. auto.
Defined.

(** ** The pauses of the concatenated audio *)

Module PauseFacts.

Import AudioGenerator.

(** A pause between every two files, and none at the end. *)
Fixpoint with_pauses (audio_files : list str) : list tensor :=
  match audio_files with
  | [] => []
  | [file_path] => [Loaded file_path]
  | file_path :: rest => Loaded file_path :: Pause :: with_pauses rest
  end.

Definition is_pause (x : tensor) : bool :=
  match x with Pause => true | Loaded _ => false end.

(** The loop, for any path [stop] in the place of the last one. *)
Definition tensors_until (stop : str) (audio_files : list str)
  : list tensor :=
  flat_map (fun file_path =>
              Loaded file_path
              :: (if negb (Str.eqb file_path stop) then [Pause] else []))
    audio_files.

Lemma tensors_until_with_pauses stop (l : list str) :
  l <> [] -> last l [] = stop -> ~ In stop (removelast l) ->
  tensors_until stop l = with_pauses l.
Proof.
  induction l as [|x l IH]; [congruence|]. intros _ Hlast Hfresh.
  destruct l as [|y l].
  - cbn in Hlast. subst. cbn. now rewrite eqb_refl.
  - change (removelast (x :: y :: l)) with (x :: removelast (y :: l))
      in Hfresh.
    change (last (x :: y :: l) []) with (last (y :: l) []) in Hlast.
    change (tensors_until stop (x :: y :: l))
      with ((Loaded x :: (if negb (Str.eqb x stop) then [Pause] else []))
            ++ tensors_until stop (y :: l)).
    assert (E : Str.eqb x stop = false).
    { apply eqb_neq. intros ->. apply Hfresh. now left. }
    rewrite E. cbn [negb app].
    rewrite IH; [reflexivity|discriminate|exact Hlast|].
    intros H. apply Hfresh. now right.
Qed.

Lemma count_pauses stop (l : list str) :
  length (filter is_pause (tensors_until stop l))
  = length (filter (fun p => negb (Str.eqb p stop)) l).
Proof.
  induction l as [|x l IH]; [reflexivity|].
  change (tensors_until stop (x :: l))
    with ((Loaded x :: (if negb (Str.eqb x stop) then [Pause] else []))
          ++ tensors_until stop l).
  cbn [app filter is_pause].
  destruct (negb (Str.eqb x stop)); cbn [app filter is_pause length];
    now rewrite IH.
Qed.

End PauseFacts.

Import PauseFacts.

(** X15.  In [concatenate_segments] a pause follows a file exactly when
    its path differs from the last path of the list.  So when the last
    path occurs nowhere else (as when all paths differ), the pauses stand
    exactly between consecutive files, with none after the last; and in
    general there are as many pauses as there are files whose path
    differs from the last one, so a file that has the path of the last
    file gets no pause after it, wherever it stands.  No file gives no
    tensor at all. *)
Theorem pauses_follow_the_paths_that_differ_from_the_last :
  forall audio_files : list str,
    (~ In (last audio_files []) (removelast audio_files) ->
     AudioGenerator.audio_tensors audio_files = with_pauses audio_files)
    /\ length (filter is_pause (AudioGenerator.audio_tensors audio_files))
       = length (filter (fun file_path =>
                           negb (Str.eqb file_path (last audio_files [])))
                   audio_files)
    /\ AudioGenerator.audio_tensors [] = [].
Proof.
  intros l. split; [|split; [|reflexivity]].
  - intros H. destruct l as [|x l]; [reflexivity|].
    apply (tensors_until_with_pauses _ (x :: l));
      [discriminate|reflexivity|exact H].
  - apply count_pauses.
Qed.

(** ** The names of the files *)

Module NameFacts.

Definition is_digit (c : char) : bool := ((48 <=? c) && (c <=? 57))%N.

(** The digits read back. *)
Fixpoint uint_of_str (s : str) : Decimal.uint :=
  match s with
  | [] => Decimal.Nil
  | c :: s' =>
      let u := uint_of_str s' in
      (if c =? 48 then Decimal.D0 u
       else if c =? 49 then Decimal.D1 u
       else if c =? 50 then Decimal.D2 u
       else if c =? 51 then Decimal.D3 u
       else if c =? 52 then Decimal.D4 u
       else if c =? 53 then Decimal.D5 u
       else if c =? 54 then Decimal.D6 u
       else if c =? 55 then Decimal.D7 u
       else if c =? 56 then Decimal.D8 u
       else Decimal.D9 u)%N
  end.

Lemma uint_of_str_of_uint u : uint_of_str (str_of_uint u) = u.
Proof. induction u; cbn; now rewrite ?IHu. Qed.

Lemma uint_of_str_zeros k s :
  Nat.of_uint (uint_of_str (repeat 48%N k ++ s)) = Nat.of_uint (uint_of_str s).
Proof. induction k as [|k IH]; [reflexivity|]. cbn. exact IH. Qed.

(** The number read back from [{n:03d}]. *)
Lemma format_03d_read_back n :
  Nat.of_uint (uint_of_str (format_03d n)) = n.
Proof.
  unfold format_03d, decimal. cbv zeta.
  rewrite uint_of_str_zeros, uint_of_str_of_uint.
  apply DecimalNat.Unsigned.of_to.
Qed.

Lemma format_03d_inj n m : format_03d n = format_03d m -> n = m.
Proof.
  intros H. rewrite <- (format_03d_read_back n), <- (format_03d_read_back m).
  now rewrite H.
Qed.

Lemma str_of_uint_digits u : forallb is_digit (str_of_uint u) = true.
Proof. induction u; cbn; now rewrite ?IHu. Qed.

Lemma format_03d_digits n :
  format_03d n <> [] /\ forallb is_digit (format_03d n) = true.
Proof.
  unfold format_03d, decimal. cbv zeta. split.
  - destruct (str_of_uint (Nat.to_uint n)) as [|c d]; [|now destruct (3 - _)].
    discriminate.
  - rewrite forallb_app, str_of_uint_digits, andb_true_r.
    induction (3 - _) as [|k IH]; [reflexivity|exact IH].
Qed.

Lemma text_positions_bounds segments :
  forall start i, In i (text_positions start segments) -> start <= i.
Proof.
  induction segments as [|x l IH]; intros start i; cbn [text_positions];
    [intros []|].
  destruct (has_text x).
  - intros [<-|H]; [lia|]. apply IH in H. lia.
  - intros H. apply IH in H. lia.
Qed.

Lemma text_positions_NoDup segments :
  forall start, NoDup (text_positions start segments).
Proof.
  induction segments as [|x l IH]; intros start; cbn [text_positions];
    [constructor|].
  destruct (has_text x); [|apply IH].
  constructor; [|apply IH].
  intros H. apply text_positions_bounds in H. lia.
Qed.

Lemma NoDup_map_injective {A B} (f : A -> B) (l : list A) :
  (forall x y, f x = f y -> x = y) -> NoDup l -> NoDup (map f l).
Proof.
  intros Hf. induction 1 as [|x l Hx _ IH]; cbn [map]; constructor;
    [|exact IH].
  intros H. apply in_map_iff in H as (y & Hy & Hin).
  apply Hf in Hy. now subst.
Qed.

End NameFacts.

Import NameFacts.

(** X16.  The names of the audio files of a story never collide.  The
    name of a segment file determines the position of the segment, so two
    different segments never share a file; the files named for the
    segments of a document are therefore pairwise different; and no
    segment file has the name of a concatenated file, since a digit
    stands where [_complete.wav] has its last letter. *)
Theorem segment_file_names_never_collide :
  forall story_name : str,
    (forall i j,
        StoryNarrator.segment_filename story_name i
        = StoryNarrator.segment_filename story_name j -> i = j)
    /\ (forall segments,
          NoDup (map (StoryNarrator.segment_filename story_name)
                   (text_positions 0 segments)))
    /\ (forall other_name i,
          StoryNarrator.segment_filename story_name i
          <> other_name ++ lit "_complete.wav").
Proof.
  intros name.
  assert (Hinj : forall i j,
             StoryNarrator.segment_filename name i
             = StoryNarrator.segment_filename name j -> i = j).
  { intros i j H. unfold StoryNarrator.segment_filename in H.
    apply app_inv_head, app_inv_head, app_inv_tail, format_03d_inj in H.
    lia. }
  split; [exact Hinj|]. split.
  - intros segments. apply NoDup_map_injective; [exact Hinj|].
    apply text_positions_NoDup.
  - intros other i H. unfold StoryNarrator.segment_filename in H.
    destruct (format_03d_digits (i + 1)) as [Hne Hdigits].
    destruct (exists_last Hne) as (w & c & E). rewrite E in H, Hdigits.
    change (lit "_complete.wav") with (lit "_complet" ++ [101%N] ++ lit ".wav")
      in H.
    rewrite !app_assoc in H. apply app_inv_tail in H.
    rewrite <- !app_assoc in H. rewrite !app_assoc in H.
    apply app_inj_tail in H as [_ ->].
    rewrite forallb_app in Hdigits.
    apply andb_true_iff in Hdigits as [_ Hc]. discriminate Hc.
Qed.

(** ** The segmenter packs whole units, as many as fit *)

Module PackingFacts.

(** [u] stands somewhere in [s]. *)
Definition infix (u s : str) : Prop := exists a b, s = a ++ u ++ b.

Lemma infix_refl u : infix u u.
Proof. exists [], []. now rewrite app_nil_r. Qed.

Lemma infix_app_r u s x : infix u s -> infix u (s ++ x).
Proof.
  intros (a & b & ->). exists a, (b ++ x). now rewrite <- !app_assoc.
Qed.

Lemma infix_app_l u s x : infix u s -> infix u (x ++ s).
Proof.
  intros (a & b & ->). exists (x ++ a), b. now rewrite <- !app_assoc.
Qed.

Section Packing.

Variable target_length : Z.

(** The second of two consecutive segments starts with a unit that the
    first could not take. *)
Definition refused (U : list str) (a b : str) : Prop :=
  exists u r,
    b = u ++ r /\ In u U /\ (target_length < len a + len u + 2)%Z.

Definition chain (U : list str) (l : list str) : Prop :=
  forall pre a b post, l = pre ++ a :: b :: post -> refused U a b.

Definition packed (U : list str) (st : acc) : Prop :=
  (snd st = [] /\ fst st = [] /\ U = []
   \/ exists body sep,
        snd st = body ++ sep /\ tight body /\ all_space sep
        /\ (len sep <= 2)%Z
        /\ (forall pre a, fst st = pre ++ [a] -> refused U a body)
        /\ (forall u, In u U ->
                      (exists seg, In seg (fst st) /\ infix u seg)
                      \/ infix u body))
  /\ chain U (fst st).

Lemma refused_mono U v a b : refused U a b -> refused (U ++ [v]) a b.
Proof.
  intros (u & r & E & Hin & Hlen). exists u, r.
  split; [exact E|]. split; [|exact Hlen]. apply in_or_app. now left.
Qed.

Lemma chain_mono U v l : chain U l -> chain (U ++ [v]) l.
Proof. intros H pre a b post E. apply refused_mono. now apply (H pre a b post). Qed.

Lemma chain_snoc U l x :
  chain U l -> (forall pre a, l = pre ++ [a] -> refused U a x) ->
  chain U (l ++ [x]).
Proof.
  intros Hl Hx pre a b post E.
  destruct (@exists_last _ (a :: b :: post) ltac:(discriminate))
    as (m & z & Em).
  assert (E' : l ++ [x] = (pre ++ m) ++ [z])
    by (rewrite E, <- app_assoc; now f_equal).
  apply app_inj_tail in E' as [El ->].
  destruct post as [|y post].
  - assert (m = [a] /\ z = b) as [-> ->].
    { change [a; b] with ([a] ++ [b]) in Em.
      now apply app_inj_tail in Em as [<- <-]. }
    now apply (Hx pre a).
  - destruct (@exists_last _ (y :: post) ltac:(discriminate))
      as (m' & z' & Em').
    rewrite Em' in Em.
    change (a :: b :: m' ++ [z']) with ((a :: b :: m') ++ [z']) in Em.
    apply app_inj_tail in Em as [<- _].
    apply (Hl pre a b m'). exact El.
Qed.

Lemma packed_step U st u sep :
  packed U st -> tight u -> all_space sep -> (len sep <= 2)%Z ->
  packed (U ++ [u]) (accumulate target_length sep st u).
Proof.
  intros [Hcur Hchain] Hu Hsep Hlen. destruct st as [segs cur].
  cbn [fst snd] in *. unfold accumulate.
  destruct Hcur as [(-> & -> & ->)
                   |(body & sep0 & -> & Hbody & Hsep0 & Hlen0 & Hlink
                     & Hall)].
  - (* the first unit *)
    rewrite andb_false_r. cbn [app fst snd]. split.
    + right. exists u, sep. split; [reflexivity|].
      split; [exact Hu|]. split; [exact Hsep|]. split; [exact Hlen|].
      split.
      * intros pre a E. destruct pre; discriminate E.
      * intros v [<-|[]]. right. apply infix_refl.
    + intros pre a b post E. destruct pre; discriminate E.
  - destruct ((len (body ++ sep0) + len u >? target_length)%Z
              && truthy (body ++ sep0)) eqn:E.
    + (* flush *)
      apply andb_true_iff in E as [E _]. apply Z.gtb_lt in E.
      rewrite len_app in E.
      rewrite (strip_tight_app body sep0 Hbody Hsep0). cbn [fst snd].
      assert (Hnew : forall pre a,
                 segs ++ [body] = pre ++ [a] -> refused (U ++ [u]) a u).
      { intros pre a Ea. apply app_inj_tail in Ea as [_ <-].
        exists u, []. rewrite app_nil_r. split; [reflexivity|].
        split; [apply in_or_app; right; now left|lia]. }
      split.
      * right. exists u, sep. split; [reflexivity|].
        split; [exact Hu|]. split; [exact Hsep|]. split; [exact Hlen|].
        split; [exact Hnew|].
        intros v Hv. apply in_app_or in Hv as [Hv|[<-|[]]].
        -- left. destruct (Hall v Hv) as [(seg & Hin & Hinf)|Hinf].
           ++ exists seg. split; [apply in_or_app; now left|exact Hinf].
           ++ exists body. split; [apply in_or_app; right; now left|].
              exact Hinf.
        -- right. apply infix_refl.
      * apply chain_snoc; [now apply chain_mono|].
        intros pre a Ea. apply refused_mono. now apply (Hlink pre a).
    + (* append *)
      cbn [fst snd]. split; [|now apply chain_mono].
      right. exists (body ++ sep0 ++ u), sep.
      split; [now rewrite <- !app_assoc|].
      split; [now apply tight_app|]. split; [exact Hsep|].
      split; [exact Hlen|]. split.
      * intros pre a Ea. destruct (Hlink pre a Ea) as (v & r & -> & Hv & Hl).
        exists v, (r ++ sep0 ++ u). split; [now rewrite <- !app_assoc|].
        split; [apply in_or_app; now left|exact Hl].
      * intros v Hv. apply in_app_or in Hv as [Hv|[<-|[]]].
        -- destruct (Hall v Hv) as [Hseg|Hinf]; [now left|right].
           now apply infix_app_r.
        -- right. exists (body ++ sep0), []. now rewrite app_nil_r,
             <- !app_assoc.
Qed.

Lemma packed_fold l :
  Forall (fun u => tight (fst u) /\ all_space (snd u)
                   /\ (len (snd u) <= 2)%Z) l ->
  forall U st,
    packed U st ->
    packed (U ++ map fst l) (fold_left (step target_length) l st).
Proof.
  induction 1 as [|u l (Hu & Hs & Hl) _ IH]; intros U st Hst; simpl.
  - now rewrite app_nil_r.
  - replace (U ++ fst u :: map fst l) with ((U ++ [fst u]) ++ map fst l)
      by now rewrite <- app_assoc.
    apply IH. unfold step. now apply packed_step.
Qed.

Lemma packed_finish U st :
  packed U st ->
  chain U (finish st)
  /\ (forall u, In u U -> exists seg, In seg (finish st) /\ infix u seg).
Proof.
  destruct st as [segs cur]. intros [Hcur Hchain]. cbn [fst snd] in *.
  unfold finish.
  destruct Hcur as [(-> & -> & ->)
                   |(body & sep & -> & Hbody & Hsep & _ & Hlink & Hall)].
  - cbn. split; [exact Hchain|intros u []].
  - rewrite (strip_tight_app body sep Hbody Hsep).
    assert (Ht : truthy body = true)
      by (apply truthy_true; exact (proj1 Hbody)).
    rewrite Ht. split.
    + now apply chain_snoc.
    + intros u Hu. destruct (Hall u Hu) as [(seg & Hin & Hinf)|Hinf].
      * exists seg. split; [apply in_or_app; now left|exact Hinf].
      * exists body. split; [apply in_or_app; right; now left|exact Hinf].
Qed.

End Packing.

Lemma units_separators text limit :
  Forall (fun u => tight (fst u) /\ all_space (snd u)
                   /\ (len (snd u) <= 2)%Z)
    (units text limit).
Proof.
  unfold units. apply Forall_flat_map.
  pose proof (trimmed_pieces_tight (split [NL; NL] (clean_text text))) as H.
  fold (paragraphs_of (clean_text text)) in H.
  eapply Forall_impl; [|exact H]. intros p Hp. cbv beta.
  unfold units_of_paragraph. destruct (int_gt (len p) limit).
  - apply Forall_map. unfold split_into_sentences.
    eapply Forall_impl; [|apply trimmed_pieces_tight].
    intros s Hs. cbn [fst snd]. split; [exact Hs|].
    split; [reflexivity|]. unfold len. simpl. lia.
  - constructor; [|constructor]. cbn [fst snd]. split; [exact Hp|].
    split; [reflexivity|]. unfold len. simpl. lia.
Qed.

Lemma loop_packed text target_length limit :
  chain target_length (map fst (units text limit))
    (finish (fold_left (step target_length) (units text limit) ([], [])))
  /\ (forall u,
        In u (map fst (units text limit)) ->
        exists seg,
          In seg (finish (fold_left (step target_length)
                            (units text limit) ([], [])))
          /\ infix u seg).
Proof.
  apply packed_finish.
  apply (packed_fold target_length _ (units_separators text limit)
           [] ([], [])).
  split; [now left|]. intros pre a b post E. destruct pre; discriminate E.
Qed.

Lemma In_units text limit u :
  In u (map fst (units text limit))
  <-> exists p,
        In p (paragraphs_of (clean_text text))
        /\ (if int_gt (len p) limit
            then In u (split_into_sentences p)
            else u = p).
Proof.
  unfold units. rewrite in_map_iff. split.
  - intros ([u' s] & <- & Hin). apply in_flat_map in Hin as (p & Hp & Hu).
    exists p. split; [exact Hp|]. unfold units_of_paragraph in Hu.
    destruct (int_gt (len p) limit).
    + apply in_map_iff in Hu as (x & [= <- _] & Hx). exact Hx.
    + destruct Hu as [[= <- _]|[]]. reflexivity.
  - intros (p & Hp & Hu). unfold units_of_paragraph.
    destruct (int_gt (len p) limit) eqn:E.
    + exists (u, [SP]). split; [reflexivity|]. apply in_flat_map.
      exists p. split; [exact Hp|]. unfold units_of_paragraph. rewrite E.
      now apply (in_map (fun sentence => (sentence, [SP]))).
    + subst u. exists (p, [NL; NL]). split; [reflexivity|].
      apply in_flat_map. exists p. split; [exact Hp|].
      unfold units_of_paragraph. rewrite E. now left.
Qed.

(** A run that returns segments from a text with a paragraph has
    computed the product of line 64. *)
Lemma splitting_limit text target_length segments :
  intelligent_text_splitting text target_length = Ok segments ->
  paragraphs_of (clean_text text) <> [] \/ segments <> [] ->
  exists limit,
    threshold target_length = Ok limit
    /\ segments
       = finish (fold_left (step target_length) (units text limit)
                   ([], [])).
Proof.
  intros Hrun Hsome.
  destruct (splitting_returns _ _ _ Hrun)
    as [(limit & Hlimit & E)|(_ & E1 & E2)].
  - now exists limit.
  - destruct Hsome as [H|H]; contradiction.
Qed.

End PackingFacts.

Import PackingFacts.

(** X17.  The segmenter never cuts a unit.  When it returns, every
    paragraph of the normalized text that line 64 does not find very long
    (longer than one and a half times the target) stands whole inside one
    of the segments, and so does every sentence of a paragraph that it
    finds very long. *)
Theorem segmenter_never_cuts_a_unit :
  forall (text : str) (target_length : Z) (segments : list str)
         (paragraph : str),
    intelligent_text_splitting text target_length = Ok segments ->
    In paragraph (paragraphs_of (clean_text text)) ->
    (very_long target_length paragraph = Ok false ->
     exists segment a b,
       In segment segments /\ segment = a ++ paragraph ++ b)
    /\ (very_long target_length paragraph = Ok true ->
        forall sentence,
          In sentence (split_into_sentences paragraph) ->
          exists segment a b,
            In segment segments /\ segment = a ++ sentence ++ b).
Proof.
  intros text target_length segments p Hrun Hp.
  destruct (splitting_limit _ _ _ Hrun) as (limit & Hlimit & ->).
  { left. intros E. rewrite E in Hp. destruct Hp. }
  destruct (loop_packed text target_length limit) as [_ Hwhole].
  unfold very_long. rewrite Hlimit. split.
  - intros [= Hv]. destruct (Hwhole p) as (seg & Hin & a & b & ->).
    + apply In_units. exists p. split; [exact Hp|]. now rewrite Hv.
    + now exists (a ++ p ++ b), a, b.
  - intros [= Hv] s Hs. destruct (Hwhole s) as (seg & Hin & a & b & ->).
    + apply In_units. exists p. split; [exact Hp|]. now rewrite Hv.
    + now exists (a ++ s ++ b), a, b.
Qed.

Lemma segmenter_never_cuts_a_unit_witness :
  exists segment a b,
    In segment [lit "One two."; lit "Three four."; lit "Five."]
    /\ segment = a ++ lit "Three four." ++ b.
Proof.
  destruct (segmenter_never_cuts_a_unit
              (lit "One two. Three four." ++ [NL; NL] ++ lit "Five.") 12
              [lit "One two."; lit "Three four."; lit "Five."]
              (lit "One two. Three four.")) as [_ Hlong].
  - vm_compute. reflexivity.
  - vm_compute. now left.
  - apply Hlong; [vm_compute; reflexivity|]. vm_compute. right. now left.
Defined.

(** X18.  The segmenter fills each segment as far as it can: of two
    consecutive segments that it returns, the second starts with a unit
    (a paragraph, or a sentence of a paragraph that line 64 finds very
    long) that the first could not take, because the length of the first,
    the separator of at most two characters and the length of that unit
    together exceed the target. *)
Theorem segments_are_packed_greedily :
  forall (text : str) (target_length : Z) (before after : list str)
         (first second : str),
    intelligent_text_splitting text target_length
    = Ok (before ++ first :: second :: after) ->
    exists unit rest paragraph long,
      second = unit ++ rest
      /\ In paragraph (paragraphs_of (clean_text text))
      /\ very_long target_length paragraph = Ok long
      /\ (if long
          then In unit (split_into_sentences paragraph)
          else unit = paragraph)
      /\ (target_length < len first + 2 + len unit)%Z.
Proof.
  intros text target_length pre post a b Hrun.
  destruct (splitting_limit _ _ _ Hrun) as (limit & Hlimit & E).
  { right. destruct pre; discriminate. }
  destruct (loop_packed text target_length limit) as [Hchain _].
  destruct (Hchain pre a b post (eq_sym E)) as (u & r & -> & Hu & Hlen).
  apply In_units in Hu as (p & Hp & Hup).
  exists u, r, p, (int_gt (len p) limit).
  split; [reflexivity|]. split; [exact Hp|]. split.
  - unfold very_long. now rewrite Hlimit.
  - split; [exact Hup|lia].
Qed.

Lemma segments_are_packed_greedily_witness :
  exists unit rest,
    lit "Three four." = unit ++ rest
    /\ (12 < len (lit "One two.") + 2 + len unit)%Z.
Proof.
  destruct (segments_are_packed_greedily
              (lit "One two. Three four." ++ [NL; NL] ++ lit "Five.") 12
              [] [lit "Five."] (lit "One two.") (lit "Three four."))
    as (u & r & p & long & E & _ & _ & _ & Hlen).
  - vm_compute. reflexivity.
  - now exists u, r.
Defined.

(** ** The normalizer changes whitespace only *)

Module WhitespaceFacts.

Lemma content_cap_from c m s :
  isspace c = true -> forall n, content (cap_from c m n s) = content s.
Proof.
  intros Hc. induction s as [|x s IH]; intros n; cbn [cap_from];
    [reflexivity|].
  destruct (N.eqb_spec x c) as [->|Hne].
  - rewrite (content_cons_space s Hc). destruct (n <? m)%nat.
    + rewrite (content_cons_space _ Hc). apply IH.
    + apply IH.
  - unfold content. cbn [filter]. fold (content (cap_from c m 0 s)).
    fold (content s). now rewrite IH.
Qed.

Lemma content_unspace s : content (unspace s) = content s.
Proof.
  induction s as [|x s IH]; cbn [unspace]; [reflexivity|].
  destruct (isspace x) eqn:Ex.
  - rewrite (content_cons_space s Ex).
    destruct (before_punct s); [exact IH|].
    now rewrite (content_cons_space _ Ex).
  - now rewrite !(content_cons_other _ Ex), IH.
Qed.

Lemma content_clean_text_without_quotes text :
  content (clean_text_without_quotes text) = content text.
Proof.
  unfold clean_text_without_quotes.
  rewrite newlines_capped, spaces_capped, sub_space_before_punct_unspace.
  rewrite content_strip, content_unspace.
  now rewrite !content_cap_from by reflexivity.
Qed.

End WhitespaceFacts.

Import WhitespaceFacts.

(** X19.  On a text that lacks any one character of the fifteen that line
    25 looks for, [clean_text] removes whitespace and nothing else: the
    characters that are not whitespace come out unchanged and in order.
    In particular the curly quotation marks that lines 24 and 25 were meant
    to turn into straight ones stay as they are. *)
Theorem clean_text_changes_whitespace_only :
  forall (text : str) (c : char),
    In c quote_pattern -> ~ In c text ->
    content (clean_text text) = content text.
Proof.
  intros text c Hc Ht. rewrite (clean_text_absent c text Hc Ht).
  apply content_clean_text_without_quotes.
Qed.

Lemma clean_text_changes_whitespace_only_witness :
  clean_text ([8220%N] ++ lit "Stop  !" ++ [8221%N; SP] ++ lit "he said .")
  = [8220%N] ++ lit "Stop!" ++ [8221%N; SP] ++ lit "he said."
  /\ content (clean_text ([8220%N] ++ lit "Stop  !" ++ [8221%N; SP]
                          ++ lit "he said ."))
     = content ([8220%N] ++ lit "Stop  !" ++ [8221%N; SP]
                ++ lit "he said .").
Proof.
  split; [vm_compute; reflexivity|].
  apply (clean_text_changes_whitespace_only _ DQUOTE).
  - vm_compute. tauto.
  - vm_compute. intuition discriminate.
Defined.

(** ** Documents that are not what the orchestrator expects *)

(** X20.  What [process_war_story] does with a document of the wrong
    shape.  A document that is not a dictionary raises [AttributeError]
    before anything is printed.  Segments that have no length (a number,
    a boolean, [None]) raise [TypeError] once the title line is printed.
    In a list of segments, a segment that is not a dictionary, or whose
    text is not a string, raises [AttributeError] when the loop reaches
    it; and a segment with text whose style cannot be hashed (a list or
    a dictionary) raises [TypeError] after it is announced.  In none of
    these cases is any audio requested for that segment. *)
Theorem documents_of_the_wrong_shape_raise :
  forall (env : Env) (self : StoryNarrator.obj env) (story_name : str)
         (t : trace),
    (forall story_data,
        (forall d, story_data <> VDict d) ->
        StoryNarrator.process_war_story self story_data story_name t
        = (Raise AttributeError, t))
    /\ (forall story_data segments,
          dict_get_default story_data (lit "segments") (VList []) = segments ->
          match segments with
          | VNone | VBool _ | VInt _ | VFloat _ => True
          | _ => False
          end ->
          StoryNarrator.process_war_story self (VDict story_data)
            story_name t
          = (Raise TypeError,
             t ++ [Print [FText (lit "Processing war story: ");
                          FValue (dict_get_default story_data (lit "title")
                                    (VStr (lit "Untitled")))]]))
    /\ (forall global_settings count i segment generated_files,
          (forall d, segment <> VDict d) ->
          StoryNarrator.process_segment self global_settings story_name
            count i segment generated_files t
          = (Raise AttributeError, t))
    /\ (forall global_settings count i segment generated_files,
          match dict_get_default segment (lit "text") (VStr []) with
          | VStr _ => False
          | _ => True
          end ->
          StoryNarrator.process_segment self global_settings story_name
            count i (VDict segment) generated_files t
          = (Raise AttributeError, t))
    /\ (forall global_settings count i segment text generated_files,
          dict_get_default segment (lit "text") (VStr []) = VStr text ->
          truthy (strip text) = true ->
          hashable (effective_voice_style segment global_settings) = false ->
          StoryNarrator.process_segment self (VDict global_settings)
            story_name count i (VDict segment) generated_files t
          = (Raise TypeError,
             t ++ [Print [FText (lit "Processing segment ");
                          FValue (VInt (Z.of_nat (i + 1))); FText (lit "/");
                          FValue (VInt (Z.of_nat count)); FText (lit ": ");
                          FValue (effective_voice_style segment
                                    global_settings);
                          FText (lit " style")]])).
Proof.
  intros env self name t. split; [|split; [|split; [|split]]].
  - intros doc Hdoc.
    destruct doc; try reflexivity. now destruct (Hdoc d).
  - intros d segs Hsegs Hshape.
    unfold StoryNarrator.process_war_story, Methods.get.
    unfold bind at 1. unfold ret at 1. rewrite Hsegs.
    unfold bind at 1. unfold ret at 1.
    unfold bind at 1. unfold ret at 1.
    unfold bind at 1. unfold print at 1, emit at 1.
    destruct segs; try contradiction; reflexivity.
  - intros g count i seg gf Hseg.
    destruct seg; try reflexivity. now destruct (Hseg d).
  - intros g count i sd gf Htext.
    unfold StoryNarrator.process_segment, Methods.get, Methods.strip.
    unfold bind at 1. unfold ret at 1.
    destruct (dict_get_default sd (lit "text") (VStr []));
      try contradiction; reflexivity.
  - intros g count i sd text gf Htext Hns Hstyle.
    rewrite (process_segment_with_text env self g sd name count i text gf t
               Htext Hns).
    unfold narrate_segment. unfold bind at 1. unfold print at 1, emit at 1.
    unfold bind at 1. unfold StoryNarrator.generate_segment_audio,
      AudioGenerator.generate_segment_audio.
    unfold bind at 1.
    match goal with
    | |- context [AudioGenerator.getitem VOICE_PRESETS (lit "neutral") ?t0] =>
        change (AudioGenerator.getitem VOICE_PRESETS (lit "neutral") t0)
          with (@Ok (dict value) neutral_preset, t0)
    end.
    cbv iota beta. unfold bind at 1.
    destruct (effective_voice_style sd g); try discriminate Hstyle;
      reflexivity.
Qed.

(** ** The two modes of the command line *)

Module ModeFacts.

Import Appends.

(** An event that is neither a synthesis request nor the saving of a
    file. *)
Definition silent (e : event) : Prop :=
  match e with
  | Generate _ _ _ | SaveAudio _ => False
  | _ => True
  end.

Lemma silent_events t d :
  Forall silent d ->
  generate_calls (t ++ d) = generate_calls t
  /\ saved_paths (t ++ d) = saved_paths t.
Proof.
  intros Hd. rewrite generate_calls_app, saved_paths_app.
  assert (generate_calls d = [] /\ saved_paths d = []) as [-> ->].
  { induction d as [|e d IH]; [now split|].
    apply Forall_cons_iff in Hd as [He Hd]. destruct (IH Hd) as [IH1 IH2].
    destruct e; try contradiction; cbn; now rewrite ?IH1, ?IH2. }
  now rewrite !app_nil_r.
Qed.

(** Making the narrator requests no audio and saves none. *)
Lemma init_is_silent env device output_dir t narrator t' :
  StoryNarrator.init env device output_dir t = (Ok narrator, t') ->
  generate_calls t' = generate_calls t /\ saved_paths t' = saved_paths t.
Proof.
  intros H.
  destruct (adds_init env silent device output_dir
              ltac:(intros; exact I) ltac:(intros; exact I)
              ltac:(intros; exact I) t _ t' H) as (d & -> & Hd).
  now apply silent_events.
Qed.

End ModeFacts.

Import ModeFacts.

(** X21.  In auto mode a voice prompt whose file exists reaches every
    synthesis request: when the run returns, it has made one request for
    each segment of the text it read, in order, each with the prompt, the
    text of the segment and the preset of the style that the default
    pattern gives its position, and it has saved one file for each. *)
Theorem existing_prompt_reaches_every_request :
  forall (env : Env) (input_file voice_prompt device : str) (t t' : trace),
    truthy voice_prompt = true ->
    path_exists env t input_file = true ->
    (forall t0, path_exists env t0 voice_prompt = true) ->
    Main.auto_mode env input_file (Some voice_prompt) device t
    = (Ok tt, t') ->
    exists text_content segments,
      (exists t0, read_text env t0 input_file = Ok text_content)
      /\ intelligent_text_splitting text_content DEFAULT_SEGMENT_LENGTH
         = Ok segments
      /\ generate_calls t'
         = generate_calls t
           ++ requests DEFAULT_VOICE_PATTERN (Some (VStr voice_prompt)) 0
                segments
      /\ length (saved_paths t')
         = (length (saved_paths t) + length segments)%nat.
Proof.
  intros env input p device t t' Hp Hin Hex H.
  unfold Main.auto_mode in H.
  unfold bind at 1 in H. unfold ask at 1 in H. rewrite Hin in H.
  cbn [negb] in H.
  open_bind H. unfold print, emit in E. injection E as _ <-.
  open_bind H. apply init_is_silent in E. destruct E as [Hg0 Hs0].
  rewrite Hp in H. unfold bind at 1 in H. unfold bind at 1 in H.
  unfold ask at 1 in H. rewrite Hex in H. unfold ret at 1 in H.
  open_bind H. unfold print, emit, ret in H. injection H as <-.
  unfold StoryNarrator.process_text_file_directly,
    StoryNarrator.auto_ingest_text_file in E.
  open_bind E. apply auto_ingest_ok in E0.
  destruct E0 as (text & segments & Hread & Hsplit & -> & ->).
  assert (Htight : Forall tight segments).
  { destruct (splitting_invariant _ _ _ Hsplit) as [Hall _].
    eapply Forall_impl; [|exact Hall]. intros s Hs. exact (proj1 Hs). }
  apply (built_story_run _ _ _ _ _ _ _ _ _ Htight) in E.
  destruct E as (Hf & Hs & Hg).
  exists text, segments. split; [eexists; exact Hread|].
  split; [exact Hsplit|].
  match type of Hg with
  | generate_calls _ = generate_calls (?t0 ++ ?d) ++ _ =>
      destruct (silent_events t0 d) as [Hq2 Hq1];
      [ unfold ingest_lines, reading_line, writing; cbn;
        repeat constructor
      | rewrite Hq1 in Hs; rewrite Hq2 in Hg ]
  end.
  rewrite generate_calls_app, saved_paths_app. cbn [generate_calls
    saved_paths flat_map app]. rewrite !app_nil_r.
  rewrite Hg, Hs, Hg0, Hs0, Hf.
  rewrite !generate_calls_app, !saved_paths_app. cbn.
  rewrite !app_nil_r, !length_app, length_map, length_seq, Hp.
  split; reflexivity.
Qed.


(** A world with the text file and the voice prompt. *)
Definition prompted_env : Env :=
  {| wav := unit; model := unit;
     path_str := fun p => p;
     path_name := fun p => p;
     path_stem := fun p => firstn (length p - 4) p;
     path_join := fun d f => d ++ lit "/" ++ f;
     str_title := fun s => s;
     path_exists := fun _ _ => true;
     read_text := fun _ _ => Ok (lit "Hello there.");
     write_text := fun _ _ _ => Ok tt;
     mkdir := fun _ _ => Ok tt;
     glob_json := fun _ _ => Ok [];
     json_dumps_other := fun _ => Raise TypeError;
     json_loads_other := fun _ => Raise (OtherError (lit "JSONDecodeError"));
     from_pretrained := fun _ _ => Ok tt;
     generate := fun _ _ _ _ _ => Ok tt;
     save := fun _ _ _ _ => Ok tt;
     concatenate := fun _ _ _ _ _ => Ok tt |}.

Lemma existing_prompt_reaches_every_request_witness :
  generate_calls
    (snd (Main.auto_mode prompted_env (lit "story.txt")
            (Some (lit "voice.wav")) (lit "cpu") []))
  = [(lit "Hello there.", Some (VStr (lit "voice.wav")), neutral_preset)].
Proof.
  destruct (Main.auto_mode prompted_env (lit "story.txt")
              (Some (lit "voice.wav")) (lit "cpu") [])
    as [[[]|e] t'] eqn:Hrun; [|vm_compute in Hrun; discriminate Hrun].
  destruct (existing_prompt_reaches_every_request prompted_env
              (lit "story.txt") (lit "voice.wav") (lit "cpu") [] t'
              eq_refl eq_refl (fun _ => eq_refl) Hrun)
    as (text & segments & (t0 & Hread) & Hsplit & Hg & _).
  cbn in Hread. injection Hread as <-.
  vm_compute in Hsplit. injection Hsplit as <-.
  cbn [snd]. rewrite Hg. vm_compute. reflexivity.
Defined.

(** X22.  When manual mode returns, it has made exactly one synthesis
    request, for the text as it was given, with the preset of the style
    (the neutral one for a style that has none) and with the voice prompt
    unless there is none or it is empty; it has saved exactly one file, at
    the output path as it was given; and it has made the default output
    directory all the same. *)
Theorem manual_mode_makes_one_request_and_one_file :
  forall (env : Env) (text voice_style : str) (voice_prompt : option str)
         (output device : str) (t t' : trace),
    Main.manual_mode env text voice_style voice_prompt output device t
    = (Ok tt, t') ->
    generate_calls t'
    = generate_calls t
      ++ [(text,
           match voice_prompt with
           | Some p => if truthy p then Some (VStr p) else None
           | None => None
           end,
           preset_of voice_style)]
    /\ saved_paths t' = saved_paths t ++ [output]
    /\ In (Mkdir (path_str env DEFAULT_OUTPUT_DIR)) t'.
Proof.
  intros env text style prompt output device t t' H.
  unfold Main.manual_mode in H.
  open_bind H. unfold print, emit in E. injection E as _ <-.
  open_bind H.
  assert (Hdir : exists d, t0 = (t ++ [Print [FText (127919%N
                                                  :: lit " Generating audio with ");
                                               FText style;
                                               FText (lit " style")]])
                                 ++ Mkdir (path_str env DEFAULT_OUTPUT_DIR)
                                 :: d).
  { unfold StoryNarrator.init in E. unfold bind at 1, act at 1 in E.
    destruct (mkdir env _ _); [|discriminate E].
    match type of E with
    | (_ <- ?m ;; _) ?ta = _ =>
        destruct (Appends.adds_bind (fun _ => True) m _
                    ltac:(unfold AudioGenerator.init;
                          repeat (apply Appends.adds_bind;
                                  [first [now apply Appends.adds_print
                                         |now apply Appends.adds_act]
                                  |intros ?]);
                          apply Appends.adds_ret)
                    ltac:(intros; apply Appends.adds_ret) ta _ _ E)
          as (d & -> & _)
    end.
    exists d. now rewrite <- app_assoc. }
  apply init_is_silent in E. destruct E as [Hg0 Hs0].
  open_bind H.
  assert (Hgen : t1 = t0 ++ [Generate text
                               (match prompt with
                                | Some p =>
                                    if truthy p then Some (VStr p) else None
                                | None => None
                                end) (preset_of style)]).
  { unfold StoryNarrator.generate_segment_audio,
      AudioGenerator.generate_segment_audio in E.
    unfold bind at 1 in E.
    change (AudioGenerator.getitem VOICE_PRESETS (lit "neutral") t0)
      with (@Ok (dict value) neutral_preset, t0) in E.
    cbv iota beta in E. unfold bind at 1 in E.
    change (Methods.lookup VOICE_PRESETS (VStr style) neutral_preset t0)
      with (@Ok (dict value) (preset_of style), t0) in E.
    cbv iota beta in E. unfold bind at 1 in E.
    cbn [truthy_value] in E. unfold ret at 1 in E.
    destruct prompt as [p|]; cbn [of_option truthy_value] in E.
    - destruct (truthy p).
      + rewrite preset_of_has_no_prompt in E. unfold act in E.
        now injection E as _ <-.
      + unfold act in E. now injection E as _ <-.
    - unfold act in E. now injection E as _ <-. }
  subst t1.
  open_bind H. unfold AudioGenerator.save_audio, act in E0.
  injection E0 as _ <-.
  unfold print, emit in H. injection H as <-.
  rewrite !generate_calls_app, !saved_paths_app, Hg0, Hs0.
  rewrite !generate_calls_app, !saved_paths_app. cbn.
  rewrite !app_nil_r. split; [reflexivity|]. split; [reflexivity|].
  destruct Hdir as (d & ->). rewrite <- !app_assoc.
  apply in_or_app. right. cbn. right. now left.
Qed.

Lemma manual_mode_makes_one_request_and_one_file_witness :
  generate_calls
    (snd (Main.manual_mode prompted_env (lit "Hello there.") (lit "angry")
            (Some []) (lit "out/hello.wav") (lit "cpu") []))
  = [(lit "Hello there.", None, neutral_preset)]
  /\ saved_paths
       (snd (Main.manual_mode prompted_env (lit "Hello there.")
               (lit "angry") (Some []) (lit "out/hello.wav") (lit "cpu")
               []))
     = [lit "out/hello.wav"].
Proof.
  destruct (Main.manual_mode prompted_env (lit "Hello there.") (lit "angry")
              (Some []) (lit "out/hello.wav") (lit "cpu") [])
    as [[[]|e] t'] eqn:Hrun; [|vm_compute in Hrun; discriminate Hrun].
  destruct (manual_mode_makes_one_request_and_one_file prompted_env
              (lit "Hello there.") (lit "angry") (Some [])
              (lit "out/hello.wav") (lit "cpu") [] t' Hrun)
    as (Hg & Hs & _).
  cbn [snd]. rewrite Hg, Hs. split; reflexivity.
Defined.

(** ** Durations *)

Module DurationFacts.

(** A whole number as a float. *)
Definition whole (n : Z) : float := of_scaled n 0 false.

(** A whole number of seconds on the clock: seconds with one decimal
    below a minute, minutes and seconds below an hour, and hours and
    minutes from there on, the seconds being left out. *)
Definition clock (n : Z) : str :=
  if (n <? 60)%Z then digits n ++ lit ".0s"
  else if (n <? 3600)%Z
       then digits (n / 60) ++ lit "m " ++ digits (n mod 60) ++ lit "s"
       else digits (n / 3600) ++ lit "h " ++ digits (n mod 3600 / 60)
            ++ lit "m".

(** [f] holds of the [count] whole numbers from [n] on. *)
Fixpoint all_from (count : nat) (n : Z) (f : Z -> bool) : bool :=
  match count with
  | O => true
  | S c => f n && all_from c (n + 1)%Z f
  end.

Lemma all_from_spec count :
  forall n f,
    all_from count n f = true ->
    forall k, (n <= k < n + Z.of_nat count)%Z -> f k = true.
Proof.
  induction count as [|c IH]; intros n f H k Hk; [lia|].
  cbn [all_from] in H. apply andb_true_iff in H as [Hn H].
  destruct (Z.eq_dec k n) as [->|Hne]; [exact Hn|].
  apply (IH (n + 1)%Z f H). lia.
Qed.

Definition shows_clock (n : Z) : bool :=
  Str.eqb (Utils.format_duration (whole n)) (clock n).

Definition shows_sixty (m : Z) : bool :=
  Str.eqb (Utils.format_duration (whole (60 * m + 59) + 0.5)%float)
    (digits m ++ lit "m 60s").

Definition estimates_clock (n : Z) : bool :=
  match Utils.estimate_processing_time n 7 with
  | Ok s => Str.eqb s (clock (7 * n))
  | Raise _ => false
  end.

Lemma all_from_range count n f k :
  all_from (Z.to_nat count) n f = true ->
  (n <= k < n + count)%Z -> f k = true.
Proof.
  intros H Hk. apply (all_from_spec _ n f H). rewrite Z2Nat.id; lia.
Qed.

(** The three checks below are run, number by number. *)
Lemma four_hours_checked : all_from (Z.to_nat 14400) 0 shows_clock = true.
Proof. vm_compute. reflexivity. Qed.

Lemma half_seconds_checked : all_from (Z.to_nat 59) 1 shows_sixty = true.
Proof. vm_compute. reflexivity. Qed.

Lemma estimates_checked :
  all_from (Z.to_nat 2001) 0 estimates_clock = true.
Proof. vm_compute. reflexivity. Qed.

End DurationFacts.

Import DurationFacts.

(** X23.  [format_duration] on a whole number of seconds [n] below four
    hours, given as a float: below 60 it shows [n] with one decimal and
    [s]; from 60 to 3599 it shows the minutes [n // 60] and the seconds
    [n % 60], so that nothing is lost; from 3600 on it shows the hours
    [n // 3600] and the minutes [(n % 3600) // 60], and the seconds are
    left out, not rounded. *)
Theorem whole_seconds_are_shown_on_the_clock :
  forall n : Z,
    (0 <= n < 14400)%Z ->
    Utils.format_duration (whole n)
    = if (n <? 60)%Z then digits n ++ lit ".0s"
      else if (n <? 3600)%Z
           then digits (n / 60) ++ lit "m " ++ digits (n mod 60) ++ lit "s"
           else digits (n / 3600) ++ lit "h " ++ digits (n mod 3600 / 60)
                ++ lit "m".
Proof.
  intros n Hn. apply eqb_eq.
  apply (all_from_range 14400 0 shows_clock n four_hours_checked). lia.
Qed.

Lemma whole_seconds_are_shown_on_the_clock_witness :
  Utils.format_duration 3725 = lit "1h 2m"
  /\ Utils.format_duration 125 = lit "2m 5s"
  /\ Utils.format_duration 7199 = lit "1h 59m".
Proof.
  split; [|split].
  - apply (whole_seconds_are_shown_on_the_clock 3725). lia.
  - apply (whole_seconds_are_shown_on_the_clock 125). lia.
  - apply (whole_seconds_are_shown_on_the_clock 7199). lia.
Defined.

(** X24.  Below an hour [format_duration] rounds the seconds after it
    has cut off the minutes, so the seconds shown can be 60: at [m]
    minutes and 59.5 seconds, for every [m] from 1 to 59, the text is
    [{m}m 60s]. *)
Theorem seconds_can_show_sixty :
  forall m : Z,
    (1 <= m <= 59)%Z ->
    Utils.format_duration (whole (60 * m + 59) + 0.5)%float
    = digits m ++ lit "m 60s".
Proof.
  intros m Hm. apply eqb_eq.
  apply (all_from_range 59 1 shows_sixty m half_seconds_checked). lia.
Qed.

Lemma seconds_can_show_sixty_witness :
  Utils.format_duration 119.5 = lit "1m 60s".
Proof. apply (seconds_can_show_sixty 1). lia. Defined.

(** X25.  For up to two thousand segments, at the seven seconds that
    [estimate_processing_time] takes for a segment when it is not told
    otherwise, the estimate is the clock reading of exactly [7 * n]
    seconds. *)
Theorem estimate_is_seven_seconds_a_segment :
  forall num_segments : Z,
    (0 <= num_segments <= 2000)%Z ->
    Utils.estimate_processing_time num_segments 7
    = Ok (clock (7 * num_segments)).
Proof.
  intros n Hn.
  pose proof (all_from_range 2001 0 estimates_clock n estimates_checked
                ltac:(lia)) as H.
  unfold estimates_clock in H.
  destruct (Utils.estimate_processing_time n 7) as [s|e];
    [|discriminate H].
  apply eqb_eq in H. now rewrite H.
Qed.

Lemma estimate_is_seven_seconds_a_segment_witness :
  Utils.estimate_processing_time 100 7 = Ok (lit "11m 40s").
Proof. apply (estimate_is_seven_seconds_a_segment 100). lia. Defined.
